(** * sylas-oc template server: model and verification

    The repository holds three variants of one Bun HTTP server that
    scaffolds and rebuilds named template projects:

    - [ServerTs]  : src/api/server.ts      (queue, rethrowing catch)
    - [Part000]   : src/unnamed/part_000   (no queue, no 'error' listener)
    - [Part001]   : src/unnamed/part_001   (queue, recovering catch, rm of _package)

    Part I embeds the code: the pipeline operations as functions in a small
    state-and-exception monad over a file system and a process oracle, and
    the per-name promise queue as a transition system over a promise store,
    a microtask queue and the TEMPLATE_LOCKS map.  Part II states and proves
    the properties; Part III adds properties of the remaining code
    (scaffolding, routing, the handlers' answers, the books of the queue)
    and ends with the fault isolation of the queued operations, which
    rests on them.  Strings hold their text in UTF-8. *)

From Stdlib Require Import ZArith Lia Ascii String DecimalString.
From stdpp Require Import gmap strings list fin_maps.

Open Scope string_scope.
Open Scope list_scope.

(* ===================================================================== *)
(** * Part I: the embedding                                               *)
(* ===================================================================== *)

Inductive variant := ServerTs | Part000 | Part001.

(** ** JavaScript values that the code passes around *)

(** A thrown value: an [Error] object with its message and, for errors
    raised by the fs layer, the [code] property ('ENOENT', ...). *)
Record js_error := JsError { err_code : option string; err_message : string }.

Definition new_Error (message : string) : js_error := JsError None message.

Inductive body :=
| TextBody (text : string)
| JsonBody (fields : list (string * string)).

(** [new Response(body, { status, headers })] *)
Record response := Response {
  resp_body : body;
  resp_status : Z;
  resp_content_type : option string
}.

Inductive value := VNull | VResponse (r : response).

(** How a promise ends. *)
Inductive outcome := Fulfilled (v : value) | Rejected (e : js_error).

(** ** Paths (POSIX [path.join] / [path.resolve]) *)

Abbreviation path := (list string).

Fixpoint split_slash_aux (cur : string) (s : string) : list string :=
  match s with
  | EmptyString => [String.rev cur]
  | String c rest =>
      if Ascii.eqb c "/"%char then String.rev cur :: split_slash_aux "" rest
      else split_slash_aux (String c cur) rest
  end.

Definition split_slash (s : string) : list string := split_slash_aux "" s.

(** Normalisation of an absolute path, segment by segment: empty segments
    and "." vanish, ".." removes the segment before it (and stays at the
    root when there is none). [acc] is the normalised prefix, reversed. *)
Fixpoint normalize_aux (acc : list string) (segs : list string) : list string :=
  match segs with
  | [] => rev acc
  | seg :: rest =>
      if String.eqb seg "" then normalize_aux acc rest
      else if String.eqb seg "." then normalize_aux acc rest
      else if String.eqb seg ".." then normalize_aux (tail acc) rest
      else normalize_aux (seg :: acc) rest
  end.

(** [path.join(base, ...parts)] for an absolute, normalised [base]. *)
Definition path_join (base : path) (parts : list string) : path :=
  normalize_aux (rev base) (concat (map split_slash parts)).

(** [path.resolve(rel)] in the working directory [cwd]. *)
Definition path_resolve (cwd : path) (rel : string) : path :=
  path_join cwd [rel].

Definition show_path (p : path) : string :=
  match p with
  | [] => "/"
  | _ => String.concat "" (map (fun seg => "/" +:+ seg) p)
  end.

(** ** The environment: file system and child processes *)

Inductive node := File (content : string) | Dir.

Record invocation := Invocation {
  inv_command : string;
  inv_args : list string;
  inv_cwd : list string
}.

(** What a spawned child emits, in order. [OnClose None] is a close with
    code [null] (killed by a signal). *)
Inductive child_event := OnClose (code : option Z) | OnError (err : js_error).

(** What the code cannot decide: where the server was started, how the
    [n]-th spawned process behaves and what it does to the disk, and the
    message text the fs layer puts into its errors. *)
Record env := Env {
  env_cwd : list string;
  env_child : nat -> invocation -> list child_event;
  env_effect : invocation -> gmap (list string) node -> gmap (list string) node;
  env_message : string -> string -> list string -> string
}.

Record world := World {
  fs : gmap (list string) node;
  spawned : list invocation
}.

Definition TEMPLATE_DIR (E : env) : path := path_resolve (env_cwd E) "./template".
Definition OUTPUT_DIR (E : env) : path := path_resolve (env_cwd E) "../components".

(** ** A monad for async functions run to completion

    An awaited call either returns, throws, or never settles. *)
Inductive completion (A : Type) :=
| Returned (a : A)
| Threw (e : js_error)
| Hung.
Arguments Returned {A} a.
Arguments Threw {A} e.
Arguments Hung {A}.

Definition io (A : Type) : Type := world -> world * completion A.

Definition ret {A} (a : A) : io A := fun w => (w, Returned a).
Definition throw {A} (e : js_error) : io A := fun w => (w, Threw e).

Definition bind {A B} (m : io A) (k : A -> io B) : io B := fun w =>
  match m w with
  | (w', Returned a) => k a w'
  | (w', Threw e) => (w', Threw e)
  | (w', Hung) => (w', Hung)
  end.

Definition try_catch {A} (m : io A) (handler : js_error -> io A) : io A := fun w =>
  match m w with
  | (w', Threw e) => handler e w'
  | r => r
  end.

(** [if (c) await m;] *)
Definition when (c : bool) (m : io unit) : io unit := if c then m else ret tt.

#[global] Instance io_ret : MRet io := @ret.
#[global] Instance io_bind : MBind io := fun A B k m => bind m k.

(** ** fs primitives *)

Definition sys_error (E : env) (code syscall : string) (p : path) : js_error :=
  JsError (Some code) (env_message E code syscall p).

(** The directories on the way to [p] and [p] itself, the root apart. *)
Definition ancestors (p : path) : list path :=
  map (fun n => take n p) (seq 1 (length p)).

Definition holds_file (files : gmap (list string) node) (q : path) : bool :=
  match files !! q with
  | Some (File _) => true
  | _ => false
  end.

(** A file lies on the way to [p]: a path above [p] holds a file where a
    directory is needed, and a system call on [p] fails with ENOTDIR. *)
Definition blocked (files : gmap (list string) node) (p : path) : bool :=
  existsb (holds_file files) (ancestors (removelast p)).

(** [await access(p)]: throws ENOTDIR when a file lies on the way to
    [p], and ENOENT when nothing is at [p]. *)
Definition access (E : env) (p : path) : io unit := fun w =>
  if blocked (fs w) p then (w, Threw (sys_error E "ENOTDIR" "access" p))
  else
    match fs w !! p with
    | Some _ => (w, Returned tt)
    | None => (w, Threw (sys_error E "ENOENT" "access" p))
    end.

(** [await write(p, content)] (Bun.write): replaces the file's content,
    creating the file when it is missing; a directory cannot be written,
    nor a path with a file on the way. *)
Definition write (E : env) (p : path) (content : string) : io unit := fun w =>
  if blocked (fs w) p then (w, Threw (sys_error E "ENOTDIR" "open" p))
  else
    match fs w !! p with
    | Some Dir => (w, Threw (sys_error E "EISDIR" "open" p))
    | _ => (World (<[p := File content]> (fs w)) (spawned w), Returned tt)
    end.

(** [await rm(p, { recursive: true, force: true })]: removes [p] and
    what lies below it; [force] forgives a path that is not there, but
    not a file on the way to it (ENOTDIR). *)
Definition rm_rf (E : env) (p : path) : io unit := fun w =>
  if blocked (fs w) p then (w, Threw (sys_error E "ENOTDIR" "rm" p))
  else (World (filter (fun kv => ~ p `prefix_of` kv.1) (fs w)) (spawned w), Returned tt).

(** ** run_command *)

Definition show_code (code : option Z) : string :=
  match code with
  | Some z => NilZero.string_of_int (Z.to_int z)
  | None => "null"
  end.

Definition exit_message (v : variant) (command : string) (args : list string)
    (code : option Z) : string :=
  match v with
  | Part001 => command +:+ " exited with code " +:+ show_code code
  | _ => command +:+ " " +:+ String.concat " " args +:+ " exited with code " +:+ show_code code
  end.

(** The 'close' listener: [code === 0 ? resolve() : reject(new Error(...))]. *)
Definition on_close (v : variant) (command : string) (args : list string)
    (code : option Z) : completion unit :=
  match code with
  | Some 0%Z => Returned tt
  | _ => Threw (new_Error (exit_message v command args code))
  end.

(** The promise built by [run_command] is settled by the first listener
    call. part_000 registers no 'error' listener: the emitter then raises
    the error as an uncaught exception and the promise is never settled. *)
Definition settle_command (v : variant) (command : string) (args : list string)
    (events : list child_event) : completion unit :=
  match events with
  | [] => Hung
  | OnClose code :: _ => on_close v command args code
  | OnError err :: _ =>
      match v with
      | Part000 => Hung
      | _ => Threw err
      end
  end.

Definition run_command (E : env) (v : variant) (command : string) (args : list string)
    (cwd : path) : io unit := fun w =>
  let inv := Invocation command args cwd in
  let events := env_child E (length (spawned w)) inv in
  (World (env_effect E inv (fs w)) (spawned w ++ [inv]),
   settle_command v command args events).

(** ** update_view / update_server *)

Definition code_is (e : js_error) (code : string) : bool :=
  match err_code e with
  | Some c => String.eqb c code
  | None => false
  end.

Definition view_path (E : env) (name : string) : path :=
  path_join (OUTPUT_DIR E) [name +:+ "/src"; "App.vue"].

Definition update_view (E : env) (name content : string) : io unit :=
  try_catch
    (access E (view_path E name) ;; write E (view_path E name) content)
    (fun error =>
       if code_is error "ENOENT" then
         throw (new_Error ("App.vue not found in the specified template directory: "
                           +:+ show_path (view_path E name)))
       else
         throw (new_Error ("File system error occurred for template " +:+ name +:+ "."))).

Definition server_path (E : env) (v : variant) (name : string) : path :=
  match v with
  | Part000 => path_join (OUTPUT_DIR E) [name; "server.ts"]
  | _ => path_join (OUTPUT_DIR E) [name +:+ "/src"; "server.ts"]
  end.

Definition update_server (E : env) (v : variant) (name content : string) : io unit :=
  try_catch
    (access E (server_path E v name) ;; write E (server_path E v name) content)
    (fun error =>
       if code_is error "ENOENT" then
         throw (new_Error
                  ((match v with Part000 => "App.vue" | _ => "server.ts" end)
                   +:+ " not found in the specified template directory: "
                   +:+ show_path (server_path E v name)))
       else
         throw (new_Error
                  (match v with
                   | Part000 => "File system error occurred for template " +:+ name +:+ "."
                   | _ => "File system error occurred for template " +:+ name +:+ ": "
                          +:+ err_message error
                   end))).

(** ** The update operation of the /update/template route *)

(** JavaScript truthiness of an optional string field of the payload. *)
Definition truthy (s : option string) : bool :=
  match s with
  | Some content => negb (String.eqb content "")
  | None => false
  end.

Definition content_of (s : option string) : string := default "" s.

Definition preview_url (name : string) : string :=
  "https://intcsp.mspbots.ai/" +:+ name
  +:+ "/1.0.0/~preview/?__ocAcceptLanguage=*&tenant_code=1285403951449878530".

Definition json_response (fields : list (string * string)) (status : Z) : response :=
  Response (JsonBody fields) status (Some "application/json").

Definition error_response (err : js_error) : response :=
  json_response [("error", err_message err)] 500.

(** The statements inside the [try] block (the whole handler tail in part_000). *)
Definition update_steps (E : env) (v : variant) (name : string)
    (view server : option string) : io unit :=
  (when (match v with Part001 => true | _ => false end)
     (rm_rf E (path_join (OUTPUT_DIR E) [name +:+ "/_package"])) ;;
   when (truthy view) (update_view E name (content_of view)) ;;
   when (truthy server) (update_server E v name (content_of server)) ;;
   when (truthy view || truthy server)
     (let target_dir := path_join (OUTPUT_DIR E) [name] in
      match v with
      | Part000 => run_command E v "pnpm" ["build"] target_dir
      | _ => (run_command E v "pnpm" ["install"] target_dir ;;
              run_command E v "pnpm" ["build"] target_dir)
      end)).

Definition update_ok (v : variant) (name : string) : response :=
  match v with
  | Part000 =>
      json_response [("message", "Template '" +:+ name +:+ "' updated successfully.")] 200
  | _ =>
      json_response [("message", "Template '" +:+ name +:+ "' updated successfully.");
                     ("url", preview_url name)] 200
  end.

(** server.ts and part_001 wrap the steps in try/catch and answer 500 with
    the message; part_000 lets the exception escape the handler. *)
Definition update_operation (E : env) (v : variant) (name : string)
    (view server : option string) : io response :=
  match v with
  | Part000 => (update_steps E v name view server ;; ret (update_ok v name))
  | _ =>
      try_catch
        (update_steps E v name view server ;; ret (update_ok v name))
        (fun err => ret (error_response err))
  end.

(** ** update_package_json: the manifest rewrite *)

(** [\w] of a regular expression without the u flag. *)
Definition is_word_char (c : ascii) : bool :=
  let n := nat_of_ascii c in
  ((48 <=? n)%nat && (n <=? 57)%nat) || ((65 <=? n)%nat && (n <=? 90)%nat)
  || ((97 <=? n)%nat && (n <=? 122)%nat) || (n =? 95)%nat.

Fixpoint strip_prefix (p s : string) : option string :=
  match p with
  | EmptyString => Some s
  | String a p' =>
      match s with
      | String b s' => if Ascii.eqb a b then strip_prefix p' s' else None
      | EmptyString => None
      end
  end.

(** [/\btemplate\b/] tried at the current position; [prev_word] tells
    whether the character before it is a word character. The result is
    the text after the match. *)
Definition match_template (prev_word : bool) (s : string) : option string :=
  if prev_word then None
  else
    match strip_prefix "template" s with
    | Some EmptyString => Some EmptyString
    | Some (String c rest) => if is_word_char c then None else Some (String c rest)
    | None => None
    end.

(** GetSubstitution of ECMAScript for a pattern without capture groups:
    in the replacement text, [$$] is a dollar, [$&] the match, [$`] the
    text before the match and [$'] the text after it. *)
Fixpoint get_substitution (matched before after replacement : string) : string :=
  match replacement with
  | EmptyString => EmptyString
  | String c r1 =>
      if Ascii.eqb c "$"%char then
        match r1 with
        | String d r2 =>
            if Ascii.eqb d "$"%char then String "$"%char (get_substitution matched before after r2)
            else if Ascii.eqb d "&"%char then matched +:+ get_substitution matched before after r2
            else if Ascii.eqb d "`"%char then before +:+ get_substitution matched before after r2
            else if Ascii.eqb d "'"%char then after +:+ get_substitution matched before after r2
            else String c (get_substitution matched before after r1)
        | EmptyString => String c EmptyString
        end
      else String c (get_substitution matched before after r1)
  end.

(** [s.replace(/\btemplate\b/g, name)], scanning left to right. [skip]
    counts the characters of a match still to be passed over, [before] is
    the text already scanned, reversed. *)
Fixpoint replace_template_aux (name : string) (skip : nat) (prev_word : bool)
    (before : string) (s : string) : string :=
  match s with
  | EmptyString => EmptyString
  | String c rest =>
      match skip with
      | S k => replace_template_aux name k true (String c before) rest
      | O =>
          match match_template prev_word s with
          | Some after =>
              get_substitution "template" (String.rev before) after name
              +:+ replace_template_aux name 7 true (String c before) rest
          | None =>
              String c (replace_template_aux name 0 (is_word_char c) (String c before) rest)
          end
      end
  end.

Definition replace_template (name s : string) : string :=
  replace_template_aux name 0 false EmptyString s.

(** The parsed package.json: the fields the code touches, and the rest. *)
Record manifest := Manifest {
  pkg_name : option string;
  pkg_scripts : option (list (string * string));
  pkg_other : list (string * string)
}.

(** [pkg.name = name] and the loop over [Object.keys(pkg.scripts)]. *)
Definition rewrite_manifest (name : string) (pkg : manifest) : manifest :=
  Manifest (Some name)
    (option_map (map (fun kv => (kv.1, replace_template name kv.2))) (pkg_scripts pkg))
    (pkg_other pkg).

(** ** The request handler: validation and routing *)

(** Strings hold their text in UTF-8. The code points that
    [String.prototype.trim] strips, the white space and the line
    terminators of ECMAScript: TAB, LF, VT, FF, CR, SP, NBSP, U+1680,
    U+2000 to U+200A, U+2028, U+2029, U+202F, U+205F, U+3000 and U+FEFF. *)
Definition white_space_code_points : list N :=
  [9; 10; 11; 12; 13; 32; 160; 5760;
   8192; 8193; 8194; 8195; 8196; 8197; 8198; 8199; 8200; 8201; 8202;
   8232; 8233; 8239; 8287; 12288; 65279]%N.

(** UTF-8 of a code point of the basic plane. *)
Definition utf8 (cp : N) : string :=
  (if cp <? 128 then String (ascii_of_N cp) ""
   else if cp <? 2048 then
     String (ascii_of_N (192 + cp / 64)) (String (ascii_of_N (128 + cp mod 64)) "")
   else
     String (ascii_of_N (224 + cp / 4096))
       (String (ascii_of_N (128 + (cp / 64) mod 64))
          (String (ascii_of_N (128 + cp mod 64)) "")))%N.

Definition white_space : list string := map utf8 white_space_code_points.

(** The bytes of a UTF-8 sequence after its first. *)
Definition continuation_byte (c : ascii) : bool :=
  let n := nat_of_ascii c in (128 <=? n)%nat && (n <? 192)%nat.

(** The text after the first entry of [table] that [s] starts with. *)
Fixpoint strip_any (table : list string) (s : string) : option string :=
  match table with
  | [] => None
  | e :: rest =>
      match strip_prefix e s with
      | Some r => Some r
      | None => strip_any rest s
      end
  end.

(** Entries of [table] are taken off the front of [s] as long as there
    is one; [fuel] bounds the number of rounds. *)
Fixpoint trim_with (table : list string) (fuel : nat) (s : string) : string :=
  match fuel with
  | O => s
  | S n =>
      match strip_any table s with
      | Some r => trim_with table n r
      | None => s
      end
  end.

Definition trim_start (s : string) : string :=
  trim_with white_space (String.length s) s.

(** The end is trimmed on the reversed string, with the reversed table. *)
Definition trim_end (s : string) : string :=
  String.rev (trim_with (map String.rev white_space) (String.length s) (String.rev s)).

Definition trim (s : string) : string := trim_end (trim_start s).

(** [/[\/\\]/.test(name)] *)
Fixpoint has_separator (s : string) : bool :=
  match s with
  | EmptyString => false
  | String c rest =>
      Ascii.eqb c "/"%char || Ascii.eqb c "\"%char || has_separator rest
  end.

(** [!name || /[\/\\]/.test(name)] on [payload.name?.trim()] *)
Definition invalid_name (name : option string) : bool :=
  match name with
  | None => true
  | Some n => String.eqb n "" || has_separator n
  end.

Record request := Request {
  req_method : string;
  req_pathname : string;
  payload_name : option string;
  payload_view : option string;
  payload_server : option string
}.

Inductive operation :=
| Create (name : string)
| Update (name : string) (view server : option string).

(** What [fetch] does with a request: answer at once, or run the
    operation for [name] (through [queue] in server.ts and part_001). *)
Inductive action :=
| Respond (r : response)
| Enqueue (name : string) (op : operation).

Definition fetch_route (req : request) : action :=
  if String.eqb (req_pathname req) "/create/template" && String.eqb (req_method req) "POST" then
    let name := option_map trim (payload_name req) in
    if invalid_name name then Respond (Response (TextBody "Invalid template name") 400 None)
    else Enqueue (default "" name) (Create (default "" name))
  else if String.eqb (req_pathname req) "/update/template" && String.eqb (req_method req) "POST" then
    let name := option_map trim (payload_name req) in
    if invalid_name name then Respond (Response (TextBody "Invalid template name") 400 None)
    else Enqueue (default "" name)
           (Update (default "" name) (payload_view req) (payload_server req))
  else Respond (Response (TextBody "not found") 404 None).

(** [const target_dir = path.join(OUTPUT_DIR, name)] of create_template. *)
Definition create_target_dir (E : env) (name : string) : path :=
  path_join (OUTPUT_DIR E) [name].

(** ** The per-name queue on top of promises

    Promises are cells of a store, addressed by their index; a pending
    promise holds the reactions registered on it, and settling it moves
    them to the microtask queue ([jobs]), which runs first-in first-out.
    The reactions are the four kinds of continuation the code attaches:
    [last.then(task)], [.catch(handler)], [.finally(cleanup)] and the
    adoption of a promise returned from a callback or an async function. *)

(** A task as the queue sees it: an async function that suspends
    [task_awaits] times on I/O and then returns or throws. *)
Record task := Task { task_awaits : nat; task_result : outcome }.

(** The two [catch] handlers: part_001 logs and returns a 500 response;
    server.ts removes the map entry if it still is [next], and rethrows. *)
Inductive handler := Recover | Rethrow (name : string) (next : nat).

Inductive reaction :=
| ThenTask (name : string) (t : task) (target : nat)
| Catch (h : handler) (target : nat)
| Finally (name : string) (next : nat) (target : nat)
| Adopt (target : nat).

Inductive promise := Pending (reactions : list reaction) | Settled (o : outcome).

(** A call of a task that is suspended at an [await]; [act_left] counts
    the awaits after the current one. *)
Record activation := Activation {
  act_promise : nat;
  act_name : string;
  act_op : nat;
  act_left : nat;
  act_result : outcome
}.

(** The observation log, kept by the model only: an operation is named by
    the index [op] of the promise [last.then(task)] creates for it. *)
Inductive event :=
| Enq (name : string) (op : nat) (t : task) (next : nat)
| Start (name : string) (op : nat)
| Skip (name : string) (op : nat)
| Fin (name : string) (op : nat).

Record state := State {
  store : list promise;
  locks : gmap string nat;          (* TEMPLATE_LOCKS *)
  jobs : list (reaction * outcome); (* microtask queue *)
  acts : list activation;
  log : list event
}.

Definition init : state := State [] ∅ [] [] [].

Definition emit (e : event) (s : state) : state :=
  State (store s) (locks s) (jobs s) (acts s) (log s ++ [e]).

Definition alloc (p : promise) (s : state) : nat * state :=
  (length (store s), State (store s ++ [p]) (locks s) (jobs s) (acts s) (log s)).

(** Registering a reaction: on a settled promise it is queued at once. *)
Definition subscribe (p : nat) (r : reaction) (s : state) : state :=
  match store s !! p with
  | Some (Pending rs) =>
      State (<[p := Pending (rs ++ [r])]> (store s)) (locks s) (jobs s) (acts s) (log s)
  | Some (Settled o) =>
      State (store s) (locks s) (jobs s ++ [(r, o)]) (acts s) (log s)
  | None => s
  end.

(** Settling a pending promise queues its reactions; a settled promise
    stays as it is. *)
Definition settle (p : nat) (o : outcome) (s : state) : state :=
  match store s !! p with
  | Some (Pending rs) =>
      State (<[p := Settled o]> (store s)) (locks s)
            (jobs s ++ map (fun r => (r, o)) rs) (acts s) (log s)
  | _ => s
  end.

(** [if (TEMPLATE_LOCKS.get(name) === next) TEMPLATE_LOCKS.delete(name)] *)
Definition cleanup (name : string) (next : nat) (s : state) : state :=
  if decide (locks s !! name = Some next)
  then State (store s) (delete name (locks s)) (jobs s) (acts s) (log s)
  else s.

Definition set_lock (name : string) (next : nat) (s : state) : state :=
  State (store s) (<[name := next]> (locks s)) (jobs s) (acts s) (log s).

Definition push_job (j : reaction * outcome) (s : state) : state :=
  State (store s) (locks s) (jobs s ++ [j]) (acts s) (log s).

(** Calling [task()]: the body runs up to its first [await] (or to its
    end), and [target] adopts the promise the call returned. *)
Definition call_task (name : string) (t : task) (target : nat) (s : state) : state :=
  let s1 := emit (Start name target) s in
  let q := (alloc (Pending []) s1).1 in
  let s2 := (alloc (Pending []) s1).2 in
  let s3 :=
    match task_awaits t with
    | O => settle q (task_result t) (emit (Fin name target) s2)
    | S k =>
        State (store s2) (locks s2) (jobs s2)
              (acts s2 ++ [Activation q name target k (task_result t)]) (log s2)
    end in
  subscribe q (Adopt target) s3.

Definition previous_task_failed : response :=
  Response (TextBody "Previous task failed") 500 None.

Definition run_job (j : reaction * outcome) (s : state) : state :=
  match j with
  | (ThenTask name t target, Fulfilled _) => call_task name t target s
  | (ThenTask name t target, Rejected e) => settle target (Rejected e) (emit (Skip name target) s)
  | (Catch _ target, Fulfilled v) => settle target (Fulfilled v) s
  | (Catch Recover target, Rejected _) =>
      settle target (Fulfilled (VResponse previous_task_failed)) s
  | (Catch (Rethrow name next) target, Rejected e) =>
      settle target (Rejected e) (cleanup name next s)
  | (Finally name next target, o) => push_job (Adopt target, o) (cleanup name next s)
  | (Adopt target, o) => settle target o s
  end.

(** One microtask. *)
Definition tick (s : state) : state :=
  match jobs s with
  | [] => s
  | j :: rest => run_job j (State (store s) (locks s) rest (acts s) (log s))
  end.

(** The I/O the [i]-th suspended call waits for completes. *)
Definition io_done (i : nat) (s : state) : state :=
  match acts s !! i with
  | None => s
  | Some act =>
      match act_left act with
      | S k =>
          State (store s) (locks s) (jobs s)
                (<[i := Activation (act_promise act) (act_name act) (act_op act) k
                                   (act_result act)]> (acts s))
                (log s)
      | O =>
          settle (act_promise act) (act_result act)
            (emit (Fin (act_name act) (act_op act))
               (State (store s) (locks s) (jobs s) (delete i (acts s)) (log s)))
      end
  end.

(** [TEMPLATE_LOCKS.get(name) || Promise.resolve(null)] *)
Definition get_last (name : string) (s : state) : nat * state :=
  match locks s !! name with
  | Some p => (p, s)
  | None => alloc (Settled (Fulfilled VNull)) s
  end.

(** [queue(name, task)] of part_001: then, catch, finally, set, return. *)
Definition queue_part001 (name : string) (t : task) (s : state) : nat * state :=
  let last := (get_last name s).1 in
  let s0 := (get_last name s).2 in
  let a := (alloc (Pending []) s0).1 in
  let s1 := subscribe last (ThenTask name t a) (alloc (Pending []) s0).2 in
  let b := (alloc (Pending []) s1).1 in
  let s2 := subscribe a (Catch Recover b) (alloc (Pending []) s1).2 in
  let c := (alloc (Pending []) s2).1 in
  let s3 := subscribe b (Finally name c c) (alloc (Pending []) s2).2 in
  (c, emit (Enq name a t c) (set_lock name c s3)).

(** [queue(name, task)] of server.ts: then, catch, set, finally on [next]
    (whose result is dropped), return. *)
Definition queue_server (name : string) (t : task) (s : state) : nat * state :=
  let last := (get_last name s).1 in
  let s0 := (get_last name s).2 in
  let a := (alloc (Pending []) s0).1 in
  let s1 := subscribe last (ThenTask name t a) (alloc (Pending []) s0).2 in
  let b := (alloc (Pending []) s1).1 in
  let s2 := subscribe a (Catch (Rethrow name b) b) (alloc (Pending []) s1).2 in
  let s3 := set_lock name b s2 in
  let d := (alloc (Pending []) s3).1 in
  let s4 := subscribe b (Finally name b d) (alloc (Pending []) s3).2 in
  (b, emit (Enq name a t b) s4).

(** part_000 has no queue: the handler awaits the operation directly. *)
Definition direct_call (name : string) (t : task) (s : state) : nat * state :=
  let a := (alloc (Pending []) s).1 in
  (a, call_task name t a (emit (Enq name a t a) (alloc (Pending []) s).2)).

(** What a request handler does with a valid name and its operation. *)
Definition submit (v : variant) (name : string) (t : task) (s : state) : nat * state :=
  match v with
  | ServerTs => queue_server name t s
  | Part001 => queue_part001 name t s
  | Part000 => direct_call name t s
  end.

(** The event loop: requests arrive, microtasks run, I/O completes, in
    any order. *)
Inductive input :=
| Submit (name : string) (t : task)
| Tick
| IoDone (i : nat).

Definition step (v : variant) (s : state) (i : input) : state :=
  match i with
  | Submit name t => (submit v name t s).2
  | Tick => tick s
  | IoDone i => io_done i s
  end.

Definition run (v : variant) (inputs : list input) (s : state) : state :=
  fold_left (step v) inputs s.

Definition reachable (v : variant) (s : state) : Prop :=
  exists inputs, s = run v inputs init.

(** Nothing left to do: no microtask, no suspended call. *)
Definition quiescent (s : state) : Prop := jobs s = [] /\ acts s = [].

(** A fair schedule: microtasks first, then the oldest pending I/O. *)
Fixpoint drain (fuel : nat) (s : state) : state :=
  match fuel with
  | O => s
  | S n =>
      match jobs s, acts s with
      | _ :: _, _ => drain n (tick s)
      | [], _ :: _ => drain n (io_done 0 s)
      | [], [] => s
      end
  end.


(** ** Vocabulary of the properties *)

(** The project directory [path.join(OUTPUT_DIR, name)] and the build
    output directory that part_001 clears. *)
Definition project_dir (E : env) (name : string) : path := path_join (OUTPUT_DIR E) [name].

Definition package_dir (E : env) (name : string) : path :=
  path_join (OUTPUT_DIR E) [name +:+ "/_package"].

Definition install_step (E : env) (name : string) : invocation :=
  Invocation "pnpm" ["install"] (project_dir E name).

Definition build_step (E : env) (name : string) : invocation :=
  Invocation "pnpm" ["build"] (project_dir E name).

(** A content field is supplied when the payload has it. *)
Definition supplied (view server : option string) : Prop := is_Some view \/ is_Some server.

(** The update operation runs the install-then-build pipeline exactly when
    a content was supplied, and succeeds without any step otherwise. *)
Definition pipeline_iff_supplied (v : variant) : Prop :=
  forall E name view server w,
    let r := update_operation E v name view server w in
    (supplied view server ->
       spawned r.1 = spawned w ++ [install_step E name; build_step E name]) /\
    (~ supplied view server ->
       spawned r.1 = spawned w /\ r.2 = Returned (update_ok v name)).

(** A mutation whose target exists as a file goes through: the way to
    [p] is open and [p] holds a file. *)
Definition is_file (w : world) (p : path) : Prop :=
  blocked (fs w) p = false /\ exists content, fs w !! p = Some (File content).

(** The outcome of the install step spawned in world [w]. *)
Definition install_result (E : env) (v : variant) (name : string) (w : world) : completion unit :=
  settle_command v "pnpm" ["install"] (env_child E (length (spawned w)) (install_step E name)).

Definition not_found_message (file : string) (p : path) : string :=
  file +:+ " not found in the specified template directory: " +:+ show_path p.

(** The text of a mutation for an error that is not ENOENT; update_server
    of server.ts and part_001 adds the message of the error. *)
Definition fs_error_message (name : string) : string :=
  "File system error occurred for template " +:+ name +:+ ".".

Definition server_error_message (E : env) (v : variant) (name code syscall : string) : string :=
  match v with
  | Part000 => fs_error_message name
  | _ => "File system error occurred for template " +:+ name +:+ ": "
         +:+ env_message E code syscall (server_path E v name)
  end.

(** The world the mutations of an update see: part_001 has cleared the
    build output directory before. *)
Definition after_rm (E : env) (v : variant) (name : string) (w : world) : world :=
  match v with
  | Part001 => (rm_rf E (package_dir E name) w).1
  | _ => w
  end.

(** The statements of the [try] block that follow the rm of part_001
    (all of them in server.ts and part_000). *)
Definition update_tail (E : env) (v : variant) (name : string)
    (view server : option string) : io unit :=
  (when (truthy view) (update_view E name (content_of view)) ;;
   when (truthy server) (update_server E v name (content_of server)) ;;
   when (truthy view || truthy server)
     (match v with
      | Part000 => run_command E v "pnpm" ["build"] (project_dir E name)
      | _ => (run_command E v "pnpm" ["install"] (project_dir E name) ;;
              run_command E v "pnpm" ["build"] (project_dir E name))
      end)).

(** The world without the _package directory of the project and what
    lies below it. *)
Definition cleared (E : env) (name : string) (w : world) : world :=
  World (filter (fun kv => ~ package_dir E name `prefix_of` kv.1) (fs w)) (spawned w).

(** The error of an rm that finds a file on its way. *)
Definition rm_blocked (E : env) (name : string) : js_error :=
  sys_error E "ENOTDIR" "rm" (package_dir E name).

(** C10 as the specification words it: every update of part_001 goes on
    in the world without _package, and one without content ends there
    with success. *)
Definition clears_package_first : Prop :=
  forall E name view server w,
    let r := update_operation E Part001 name view server w in
    update_steps E Part001 name view server w
      = update_tail E Part001 name view server (cleared E name w) /\
    (truthy view = false -> truthy server = false ->
       r = (cleared E name w, Returned (update_ok Part001 name))).

(** How the handler answers for a completed run of the steps. *)
Definition update_answer (v : variant) (name : string) (c : completion unit)
    : completion response :=
  match c with
  | Returned _ => Returned (update_ok v name)
  | Threw e => match v with Part000 => Threw e | _ => Returned (error_response e) end
  | Hung => Hung
  end.

(** ** Words about names *)

(** A string of white space only. *)
Definition blank (s : string) : Prop :=
  exists chars, Forall (fun c => c ∈ white_space) chars /\ s = String.concat "" chars.

(** [s] begins, or ends, with a white space character. *)
Definition space_at_start (s : string) : Prop :=
  exists c rest, c ∈ white_space /\ s = c +:+ rest.

Definition space_at_end (s : string) : Prop :=
  exists c front, c ∈ white_space /\ s = front +:+ c.

(** ** Concrete environments and worlds used in the examples *)

Definition env_plain : env :=
  Env ["srv"; "api"] (fun _ _ => [OnClose (Some 0%Z)]) (fun _ files => files)
      (fun code _ _ => code).

Definition world_stray_server : world :=
  World {[ ["srv"; "components"; "acme"; "server.ts"] := File "old" ]} [].


Definition world_empty : world := World ∅ [].

(** A file where the project directory of acme would be. *)
Definition world_file_on_way : world :=
  World {[ ["srv"; "components"; "acme"] := File "notes" ]} [].

Definition world_acme : world :=
  World {[ ["srv"; "components"; "acme"; "src"; "App.vue"] := File "<old/>";
           ["srv"; "components"; "acme"; "_package"; "server.js"] := File "built" ]} [].

Definition manifest_template : manifest :=
  Manifest (Some "template") (Some [("build", "run template build")]) [].

Definition boom : outcome := Rejected (new_Error "boom").

Definition ok200 : outcome := Fulfilled (VResponse (Response (TextBody "ok") 200 None)).

(** Two requests for one project: the first starts and waits for its
    I/O, the second arrives, the I/O ends in a failure, and the event loop
    runs until nothing is left. *)
Definition two_requests : list input :=
  [Submit "acme" (Task 1 boom); Tick; Submit "acme" (Task 0 ok200); IoDone 0]
  ++ replicate 12 Tick.



(** Two requests for one project that arrive together. *)
Definition together : list input :=
  [Submit "acme" (Task 1 ok200); Submit "acme" (Task 1 ok200)].

(** One request each for two projects. *)
Definition two_projects : list input :=
  [Submit "acme" (Task 1 ok200); Submit "zenith" (Task 1 ok200); Tick; Tick].

(** A request for a project that is being built, while another project
    is being built too. *)
Definition waiting : list input :=
  [Submit "acme" (Task 1 ok200); Tick; Submit "zenith" (Task 1 ok200); Tick;
   Submit "acme" (Task 0 ok200)].

(** ** Views of a queue state *)

Definition target (r : reaction) : nat :=
  match r with
  | ThenTask _ _ a => a
  | Catch _ t => t
  | Finally _ _ t => t
  | Adopt t => t
  end.

Definition pending (s : state) (p : nat) : Prop :=
  exists rs, store s !! p = Some (Pending rs).

(** [r] is registered on the pending promise [p]. *)
Definition reg (s : state) (p : nat) (r : reaction) : Prop :=
  exists rs, store s !! p = Some (Pending rs) /\ r ∈ rs.

Definition settled (s : state) (p : nat) (o : outcome) : Prop :=
  store s !! p = Some (Settled o).

Definition queued (s : state) (r : reaction) (o : outcome) : Prop :=
  (r, o) ∈ jobs s.

(** [r] will run: it is in the microtask queue or waits on a pending promise. *)
Definition armed (s : state) (r : reaction) : Prop :=
  (exists o, queued s r o) \/ (exists p, reg s p r).

(** The primitive moves that a microtask or an I/O completion is made of,
    besides those of Part I. *)
Definition pop_job (s : state) : state :=
  State (store s) (locks s) (tail (jobs s)) (acts s) (log s).

Definition set_acts (l : list activation) (s : state) : state :=
  State (store s) (locks s) (jobs s) l (log s).

(** ** Reading the log *)

(** The operation has run to its end, or was passed over. *)
Definition done (tr : list event) (name : string) (x : nat) : Prop :=
  Fin name x ∈ tr \/ Skip name x ∈ tr.

(** [x], with task [tx], was enqueued under [name] before [y] was. *)
Definition enq_before (tr : list event) (name : string) (x : nat) (tx : task) (y : nat) : Prop :=
  exists l1 l2 nx ty ny, tr = l1 ++ Enq name x tx nx :: l2 /\ Enq name y ty ny ∈ l2.

(** What the [catch] of part_001 makes of an outcome. *)
Definition recover (o : outcome) : outcome :=
  match o with
  | Fulfilled v => Fulfilled v
  | Rejected _ => Fulfilled (VResponse previous_task_failed)
  end.

(** What the caller of [queue] receives when its own task ended with [o]. *)
Definition delivered (v : variant) (o : outcome) : outcome :=
  match v with
  | Part001 => recover o
  | _ => o
  end.

Definition has_queue (v : variant) : bool :=
  match v with Part000 => false | _ => true end.

(** ** The properties as the specification words them *)

(** Operations of one name run one after the other, in enqueue order:
    when a later one starts, an earlier one that runs at all has ended. *)
Definition sequential (v : variant) : Prop :=
  forall inputs name x tx y l1 l2,
    let s := run v inputs init in
    enq_before (log s) name x tx y ->
    log s = l1 ++ Start name y :: l2 ->
    Start name x ∈ log s ->
    Fin name x ∈ l1.





(** A microtask may as well be taken off the queue after it has run. *)
Definition with_head (j : reaction * outcome) (s : state) : state :=
  State (store s) (locks s) (j :: jobs s) (acts s) (log s).

(** ** The invariant of the queue

    The invariant speaks about the promises through ghost annotations
    that no step reads: for each promise, what holds of the log and of the
    outcome once it is settled ([post]); for each operation, what holds
    when its turn comes ([pre]) and which promise it waits on ([src]);
    for each promise, the name whose chain it belongs to ([owner]) and a
    rank that decreases along "is registered on" ([rank]). *)

Record ghost := Ghost {
  post : nat -> list event -> outcome -> Prop;
  pre : nat -> list event -> outcome -> Prop;
  owner : nat -> string;
  rank : nat -> nat;
  src : nat -> nat
}.

(** *** Well-formedness: every index in the state is allocated *)

Definition wf_reaction (n : nat) (r : reaction) : Prop :=
  target r < n /\
  match r with
  | Finally _ next _ => next < n
  | Catch (Rethrow _ next) _ => next < n
  | _ => True
  end.

Definition event_bound (n : nat) (e : event) : Prop :=
  match e with
  | Enq _ a _ next => a < n /\ next < n
  | Start _ a => a < n
  | Skip _ a => a < n
  | Fin _ a => a < n
  end.

Record wf (s : state) : Prop := Wf {
  wf_reg : forall p r, reg s p r -> wf_reaction (length (store s)) r;
  wf_job : forall r o, queued s r o -> wf_reaction (length (store s)) r;
  wf_lock : forall name c, locks s !! name = Some c -> c < length (store s);
  wf_act : forall act, act ∈ acts s ->
    act_promise act < length (store s) /\ act_op act < length (store s);
  wf_log : forall e, e ∈ log s -> event_bound (length (store s)) e
}.

(** *** An operation is started or passed over according to the one
    promise it waits on *)

Record src_inv (G : ghost) (s : state) : Prop := SrcInv {
  src_reg : forall p name t a, reg s p (ThenTask name t a) -> src G a = p;
  src_job : forall name t a o, queued s (ThenTask name t a) o -> settled s (src G a) o;
  src_start : forall name a, Start name a ∈ log s ->
    exists val, settled s (src G a) (Fulfilled val);
  src_skip : forall name a, Skip name a ∈ log s ->
    exists e, settled s (src G a) (Rejected e)
}.

(** *** What a settled promise tells *)

Definition op_done (name : string) (a : nat) (o : outcome) (tr : list event) : Prop :=
  match o with
  | Fulfilled _ => Fin name a ∈ tr
  | Rejected _ => Skip name a ∈ tr
  end.

(** The outcome of [last.then(task)] for the outcome [o] of [last]. *)
Definition then_outcome (t : task) (o : outcome) : outcome :=
  match o with
  | Fulfilled _ => task_result t
  | Rejected e => Rejected e
  end.

(** What must hold of the log [tr] and the outcome [o] handed to a
    reaction for its effect to respect the annotations. *)
Definition rpre (G : ghost) (r : reaction) (tr : list event) (o : outcome) : Prop :=
  match r with
  | Adopt t => post G t tr o
  | Catch Recover t => post G t tr (recover o)
  | Catch (Rethrow _ next) t => post G t tr o /\ post G next tr o
  | Finally _ next t => post G t tr o /\ exists o', post G next tr o'
  | ThenTask name t a =>
      pre G a tr o /\
      forall tr', tr `prefix_of` tr' -> op_done name a o tr' ->
        post G a tr' (then_outcome t o)
  end.

(** A rejection is never seen in part_001, and in server.ts it is the
    error of an operation picked out by [P]. *)
Definition cause (v : variant) (o : outcome) (P : nat -> task -> Prop) : Prop :=
  match o with
  | Fulfilled _ => True
  | Rejected e =>
      match v with
      | Part001 => False
      | _ => exists x tx, P x tx /\ task_result tx = Rejected e
      end
  end.

(** When the promise stored for [name] is settled, every operation
    enqueued under [name] so far (log [L]) is done. *)
Definition lock_post (v : variant) (L : list event) (name : string)
    (tr : list event) (o : outcome) : Prop :=
  (forall x tx nx, Enq name x tx nx ∈ L -> done tr name x) /\
  cause v o (fun x tx => exists nx, Enq name x tx nx ∈ L).

(** When the turn of [a] comes, every operation enqueued before it under
    its name is done. *)
Definition turn (v : variant) (L : list event) (name : string) (a : nat)
    (tr : list event) (o : outcome) : Prop :=
  (forall x tx, enq_before L name x tx a -> done tr name x) /\
  cause v o (fun x tx => enq_before L name x tx a).

(** What the promise returned by [queue] is settled with: the result of
    the caller's own task, or the error that made the queue pass it over. *)
Definition answer (v : variant) (L : list event) (name : string) (a : nat) (t : task)
    (tr : list event) (o : outcome) : Prop :=
  (Fin name a ∈ tr /\ o = delivered v (task_result t)) \/
  (exists e, o = Rejected e /\ Skip name a ∈ tr /\
     exists x tx, enq_before L name x tx a /\ task_result tx = Rejected e).

Record pl (v : variant) (G : ghost) (s : state) : Prop := Pl {
  pl_mono_post : forall p tr tr' o, tr `prefix_of` tr' -> post G p tr o -> post G p tr' o;
  pl_mono_pre : forall a tr tr' o, tr `prefix_of` tr' -> pre G a tr o -> pre G a tr' o;
  pl_settled : forall p o, settled s p o -> post G p (log s) o;
  pl_reg : forall p r, reg s p r ->
    forall tr o, log s `prefix_of` tr -> post G p tr o -> rpre G r tr o;
  pl_job : forall r o, queued s r o -> rpre G r (log s) o;
  pl_act : forall act, act ∈ acts s ->
    forall tr, log s `prefix_of` tr -> Fin (act_name act) (act_op act) ∈ tr ->
      post G (act_promise act) tr (act_result act);
  pl_lock : forall name c, locks s !! name = Some c ->
    forall tr o, log s `prefix_of` tr -> post G c tr o -> lock_post v (log s) name tr o;
  pl_nolock : forall name, locks s !! name = None ->
    forall x tx nx, Enq name x tx nx ∈ log s -> done (log s) name x;
  pl_pre : forall name a t nx, Enq name a t nx ∈ log s ->
    forall tr o, pre G a tr o -> turn v (log s) name a tr o;
  pl_post : forall name a t nx, Enq name a t nx ∈ log s ->
    forall tr o, post G nx tr o -> answer v (log s) name a t tr o;
  pl_start : forall l1 l2 name a, log s = l1 ++ Start name a :: l2 ->
    exists val, pre G a l1 (Fulfilled val);
  pl_skip : forall name a, Skip name a ∈ log s -> exists e, pre G a (log s) (Rejected e)
}.

(** *** Nothing is left behind *)

(** Something will settle the pending promise [p]: a reaction that is
    armed, or a suspended call. *)
Definition has_resolver (s : state) (p : nat) : Prop :=
  (exists r, armed s r /\ target r = p) \/
  (exists act, act ∈ acts s /\ act_promise act = p).

(** [D] lists promises that were just allocated and have no resolver yet,
    [X] is an operation whose [then] is registered while [queue] has not
    yet stored its promise. *)
Record lv (G : ghost) (D : list nat) (X : option (string * task * nat)) (s : state)
    : Prop := Lv {
  lv_rank : forall p r, reg s p r ->
    rank G p < rank G (target r) /\ owner G p = owner G (target r);
  lv_jobrank : forall r o, queued s r o -> 0 < rank G (target r);
  lv_resolver : forall p, pending s p -> p ∈ D \/ has_resolver s p;
  lv_lock : forall name c, locks s !! name = Some c ->
    owner G c = name /\ exists tgt, armed s (Finally name c tgt);
  lv_enq : forall name a t nx, Enq name a t nx ∈ log s ->
    Start name a ∈ log s \/ Skip name a ∈ log s \/ armed s (ThenTask name t a);
  lv_then : forall name t a, armed s (ThenTask name t a) ->
    owner G a = name /\
    (X = Some (name, t, a) \/ exists nx, Enq name a t nx ∈ log s);
  lv_act : forall act, act ∈ acts s ->
    Start (act_name act) (act_op act) ∈ log s /\
    owner G (act_promise act) = act_name act /\
    exists t nx, Enq (act_name act) (act_op act) t nx ∈ log s;
  lv_fin : forall name a, Fin name a ∈ log s -> Start name a ∈ log s
}.

(** The whole invariant, inside a step ([inv_at]) and between steps. *)
Record inv_at (v : variant) (G : ghost) (D : list nat) (X : option (string * task * nat))
    (s : state) : Prop := Inv {
  inv_wf : wf s;
  inv_src : src_inv G s;
  inv_pl : pl v G s;
  inv_lv : lv G D X s
}.

Definition inv (v : variant) (G : ghost) (s : state) : Prop := inv_at v G [] None s.

(** Annotations for indices from [n] on are taken from [N]. *)
Definition extend (n : nat) (G N : ghost) : ghost :=
  Ghost (fun p => if decide (p < n) then post G p else post N p)
        (fun p => if decide (p < n) then pre G p else pre N p)
        (fun p => if decide (p < n) then owner G p else owner N p)
        (fun p => if decide (p < n) then rank G p else rank N p)
        (fun p => if decide (p < n) then src G p else src N p).

Definition monotone (P : nat -> list event -> outcome -> Prop) : Prop :=
  forall p tr tr' o, tr `prefix_of` tr' -> P p tr o -> P p tr' o.

(** The annotations of the promise that a call of a task returns: it
    stands for the promise [a] that adopts it. *)
Definition call_ghost (G : ghost) (a : nat) : ghost :=
  Ghost (fun _ => post G a) (fun _ _ _ => True) (fun _ => owner G a) (fun _ => 0) (fun _ => 0).

(** The annotations of the promises that [queue(name, t)] creates in a
    state whose log is [L0]; [m] is the index of the promise of
    [last.then(task)], the promises before it stand for the resolved
    promise used when the map has no entry. *)
Definition skipped (L0 : list event) (name : string) (a : nat)
    (tr : list event) (o : outcome) : Prop :=
  exists e, o = Rejected e /\ Skip name a ∈ tr /\
    exists x tx nx, Enq name x tx nx ∈ L0 /\ task_result tx = Rejected e.

Definition link_post (v : variant) (L0 : list event) (name : string) (a : nat)
    (res : outcome) (tr : list event) (o : outcome) : Prop :=
  (forall x tx nx, Enq name x tx nx ∈ L0 -> done tr name x) /\
  done tr name a /\
  ((Fin name a ∈ tr /\ o = res) \/
   match v with Part001 => False | _ => skipped L0 name a tr o end).

Definition queue_ghost (v : variant) (L0 : list event) (name : string) (t : task)
    (m last last_rank : nat) : ghost :=
  Ghost (fun p =>
           if decide (p < m) then lock_post v L0 name
           else if decide (p = m) then link_post v L0 name m (task_result t)
           else if decide (p = S m) then link_post v L0 name m (delivered v (task_result t))
           else match v with
                | Part001 => link_post v L0 name m (delivered v (task_result t))
                | _ => fun _ _ => True
                end)
        (fun _ => lock_post v L0 name)
        (fun _ => name)
        (fun p => if decide (p < m) then 0 else last_rank + 1 + (p - m))
        (fun _ => last).

(** What the proof uses of the annotations of a new link. *)
Definition chain_ghost (v : variant) (G : ghost) (L0 : list event) (name : string)
    (t : task) (m last last_rank : nat) : Prop :=
  post G m = link_post v L0 name m (task_result t) /\
  post G (S m) = link_post v L0 name m (delivered v (task_result t)) /\
  post G (S (S m)) =
    match v with
    | Part001 => link_post v L0 name m (delivered v (task_result t))
    | _ => fun _ _ => True
    end /\
  pre G m = lock_post v L0 name /\
  (owner G m = name /\ owner G (S m) = name /\ owner G (S (S m)) = name) /\
  (rank G m = last_rank + 1 /\ rank G (S m) = last_rank + 2 /\
   rank G (S (S m)) = last_rank + 3) /\
  src G m = last.
(** ** A measure for the termination of the event loop

    A number that every microtask and every I/O completion of the model
    makes smaller, so that the loop comes to rest when no request
    arrives. It serves the termination argument only: the jobs of the
    model are coarser than the microtasks of an engine, and the measure
    counts neither. A reaction weighs the jobs of the model it can still
    cause, a registered reaction one more than a queued one, and a
    suspended call the I/O completions it waits for. *)
Definition weight (r : reaction) : nat :=
  match r with
  | ThenTask _ t _ => 2 * task_awaits t + 3
  | Finally _ _ _ => 2
  | Catch _ _ => 1
  | Adopt _ => 1
  end.

Definition cell_potential (p : promise) : nat :=
  match p with
  | Pending rs => sum_list_with (fun r => S (weight r)) rs
  | Settled _ => 0
  end.

Definition job_potential (j : reaction * outcome) : nat := weight j.1.

Definition act_potential (a : activation) : nat := 2 * act_left a + 2.

Definition potential (s : state) : nat :=
  sum_list_with cell_potential (store s) +
  sum_list_with job_potential (jobs s) +
  sum_list_with act_potential (acts s).

(** The inputs that [drain] feeds to the event loop. *)
Fixpoint drain_inputs (fuel : nat) (s : state) : list input :=
  match fuel with
  | O => []
  | S n =>
      match jobs s, acts s with
      | _ :: _, _ => Tick :: drain_inputs n (tick s)
      | [], _ :: _ => IoDone 0 :: drain_inputs n (io_done 0 s)
      | [], [] => []
      end
  end.

(** ** Vocabulary of the further properties *)

(** The outcome of the build step, spawned after the install step that
    was spawned in world [w]. *)
Definition build_result (E : env) (v : variant) (name : string) (w : world) : completion unit :=
  settle_command v "pnpm" ["build"] (env_child E (S (length (spawned w))) (build_step E name)).

(** The answer of a handler of server.ts and part_001 whose steps ended
    with the outcome of the pipeline. *)
Definition pipeline_answer (ok : response) (install build : completion unit)
    : completion response :=
  match install with
  | Returned _ =>
      match build with
      | Returned _ => Returned ok
      | Threw e => Returned (error_response e)
      | Hung => Hung
      end
  | Threw e => Returned (error_response e)
  | Hung => Hung
  end.

(** ** Counting what happens to an operation *)

Definition count {A} (P : A -> bool) (l : list A) : nat :=
  sum_list_with (fun x => if P x then 1 else 0) l.

Definition is_then (name : string) (a : nat) (r : reaction) : bool :=
  match r with
  | ThenTask n _ b => bool_decide (n = name /\ b = a)
  | _ => false
  end.

Definition is_enq (name : string) (a : nat) (e : event) : bool :=
  match e with Enq n b _ _ => bool_decide (n = name /\ b = a) | _ => false end.

Definition is_start (name : string) (a : nat) (e : event) : bool :=
  match e with Start n b => bool_decide (n = name /\ b = a) | _ => false end.

Definition is_skip (name : string) (a : nat) (e : event) : bool :=
  match e with Skip n b => bool_decide (n = name /\ b = a) | _ => false end.

Definition is_fin (name : string) (a : nat) (e : event) : bool :=
  match e with Fin n b => bool_decide (n = name /\ b = a) | _ => false end.

(** An [Enq] of the operation [a], under whatever name. *)
Definition enq_of (a : nat) (e : event) : bool :=
  match e with Enq _ b _ _ => bool_decide (b = a) | _ => false end.

Definition cell_thens (name : string) (a : nat) (p : promise) : nat :=
  match p with
  | Pending rs => count (is_then name a) rs
  | Settled _ => 0
  end.

(** The [then] reactions of the operation that have not run yet. *)
Definition thens_left (name : string) (a : nat) (s : state) : nat :=
  sum_list_with (cell_thens name a) (store s) +
  count (fun j => is_then name a j.1) (jobs s).

(** The suspended calls of the operation. *)
Definition running (name : string) (a : nat) (s : state) : nat :=
  count (fun act => bool_decide (act_name act = name /\ act_op act = a)) (acts s).

(** The books of the queue balance: an enqueued operation waits, or was
    started or passed over, once; a started operation runs or has ended,
    once; no operation is enqueued twice. *)
Record tally (s : state) : Prop := Tally {
  tally_run : forall name a,
    thens_left name a s + count (is_start name a) (log s) + count (is_skip name a) (log s)
    = count (is_enq name a) (log s);
  tally_fin : forall name a,
    running name a s + count (is_fin name a) (log s) = count (is_start name a) (log s);
  tally_once : forall a, count (enq_of a) (log s) <= 1
}.

(** The entry of a name in the map is the promise that [queue] returned
    for the operation enqueued last under that name. *)
Definition latest_link (s : state) : Prop :=
  forall name c, locks s !! name = Some c ->
    exists l1 a t l2,
      log s = l1 ++ Enq name a t c :: l2 /\
      forall a' t' c', Enq name a' t' c' ∉ l2.

(** ** create_template and update_package_json on the disk *)

(** What the code cannot decide about package.json: how [JSON.parse]
    reads its text and how [JSON.stringify(pkg, null, 2)] writes the
    manifest. [json_parse] gives the error for every text at which
    update_package_json throws before it writes (text that is not JSON,
    JSON that is no object, script values that are no strings). *)
Record json := Json {
  json_parse : string -> js_error + manifest;
  json_stringify : manifest -> string
}.

(** [await mkdir(p, { recursive: true })]: fails when [p] (EEXIST) or a
    path above it (ENOTDIR) is a file, and otherwise creates what is
    missing. *)
Definition mkdir_p (E : env) (p : path) : io unit := fun w =>
  match find (holds_file (fs w)) (ancestors p) with
  | Some q =>
      (w, Threw (sys_error E (if decide (q = p) then "EEXIST" else "ENOTDIR") "mkdir" p))
  | None =>
      (World (foldr (fun q files => <[q := Dir]> files) (fs w) (ancestors p)) (spawned w),
       Returned tt)
  end.

(** A directory is not copied onto a file, nor a file onto a directory. *)
Definition compatible (old : option node) (new : node) : bool :=
  match old, new with
  | Some (File _), Dir => false
  | Some Dir, File _ => false
  | _, _ => true
  end.

(** The loop of the recursive copy over the entries met under [src]: each
    goes to the same place under [dst], replacing a file that is there
    ([force]); the copy stops at the first entry that does not fit. *)
Fixpoint copy_entries (E : env) (src dst : path) (entries : list (path * node))
    (files : gmap (list string) node) : gmap (list string) node * option js_error :=
  match entries with
  | [] => (files, None)
  | (q, n) :: rest =>
      let target := dst ++ drop (length src) q in
      if compatible (files !! target) n
      then copy_entries E src dst rest (<[target := n]> files)
      else (files,
            Some (sys_error E
                    (match n with
                     | Dir => "ERR_FS_CP_DIR_TO_NON_DIR"
                     | File _ => "ERR_FS_CP_NON_DIR_TO_DIR"
                     end) "cp" target))
  end.

(** [await cp(src, dst, { recursive: true, force: true })]: the source
    must exist; a file is not copied onto a directory, nor a directory
    into itself or onto a file; the entries of a directory are copied one
    by one. *)
Definition cp_r (E : env) (src dst : path) : io unit := fun w =>
  match fs w !! src with
  | None => (w, Threw (sys_error E "ENOENT" "cp" src))
  | Some (File content) =>
      match fs w !! dst with
      | Some Dir => (w, Threw (sys_error E "ERR_FS_CP_NON_DIR_TO_DIR" "cp" dst))
      | _ => (World (<[dst := File content]> (fs w)) (spawned w), Returned tt)
      end
  | Some Dir =>
      if decide (src `prefix_of` dst) then (w, Threw (sys_error E "ERR_FS_CP_EINVAL" "cp" dst))
      else if holds_file (fs w) dst
      then (w, Threw (sys_error E "ERR_FS_CP_DIR_TO_NON_DIR" "cp" dst))
      else
        match copy_entries E src dst
                (map_to_list (filter (fun kv => src `prefix_of` kv.1) (fs w))) (fs w) with
        | (files, None) => (World files (spawned w), Returned tt)
        | (files, Some e) => (World files (spawned w), Threw e)
        end
  end.

(** update_package_json: nothing to do without a package.json; the
    manifest is read, renamed, its scripts rewritten, and written back. *)
Definition update_package_json (E : env) (J : json) (target_dir : path) (name : string)
    : io unit := fun w =>
  let pkg_path := path_join target_dir ["package.json"] in
  match fs w !! pkg_path with
  | None => (w, Returned tt)
  | Some Dir => (w, Threw (sys_error E "EISDIR" "read" pkg_path))
  | Some (File text) =>
      match json_parse J text with
      | inl e => (w, Threw e)
      | inr pkg =>
          (World (<[pkg_path := File (json_stringify J (rewrite_manifest name pkg))]> (fs w))
                 (spawned w),
           Returned tt)
      end
  end.

(** The statements of create_template before the commands. *)
Definition create_files (E : env) (J : json) (name : string) : io unit :=
  let target_dir := create_target_dir E name in
  (mkdir_p E target_dir ;;
   cp_r E (TEMPLATE_DIR E) target_dir ;;
   update_package_json E J target_dir name).

Definition create_template (E : env) (J : json) (v : variant) (name : string) : io unit :=
  let target_dir := create_target_dir E name in
  (create_files E J name ;;
   run_command E v "pnpm" ["install"] target_dir ;;
   run_command E v "pnpm" ["build"] target_dir).

Definition create_ok (v : variant) (name : string) : response :=
  match v with
  | Part000 =>
      Response (TextBody ("http://localhost:5000/" +:+ name
                          +:+ "/1.0.0/~preview/?__ocAcceptLanguage=*&userId=1")) 200 None
  | _ => json_response [("url", preview_url name)] 200
  end.

(** The create operation of the /create/template route: server.ts and
    part_001 answer a failure with 500 and its message, part_000 lets it
    escape the handler. *)
Definition create_operation (E : env) (J : json) (v : variant) (name : string) : io response :=
  match v with
  | Part000 => (create_template E J v name ;; ret (create_ok v name))
  | _ =>
      try_catch
        (create_template E J v name ;; ret (create_ok v name))
        (fun err => ret (error_response err))
  end.

(** What a request does once its turn has come. *)
Definition run_operation (E : env) (J : json) (v : variant) (op : operation) : io response :=
  match op with
  | Create name => create_operation E J v name
  | Update name view server => update_operation E v name view server
  end.

(** The statements in the [try] block of the task of a request, and the
    answer that follows them. *)
Definition operation_steps (E : env) (J : json) (v : variant) (op : operation) : io unit :=
  match op with
  | Create name => create_template E J v name
  | Update name view server => update_steps E v name view server
  end.

Definition operation_ok (v : variant) (op : operation) : response :=
  match op with
  | Create name => create_ok v name
  | Update name _ _ => update_ok v name
  end.

(** ** A template on the disk, for the examples *)

Definition json_plain : json :=
  Json (fun text =>
          if String.eqb text "{template}" then inr manifest_template
          else inl (new_Error "Unexpected token"))
       (fun pkg => "{" +:+ default "" (pkg_name pkg) +:+ "}").

Definition world_template : world :=
  World {[ ["srv"; "api"; "template"] := Dir;
           ["srv"; "api"; "template"; "package.json"] := File "{template}";
           ["srv"; "api"; "template"; "src"] := Dir;
           ["srv"; "api"; "template"; "src"; "App.vue"] := File "<app/>" ]} [].

(* ===================================================================== *)
(** * Part II: properties                                                 *)
(* ===================================================================== *)

(** ** Paths *)

Lemma split_slash_aux_app (s t cur : string) :
  split_slash_aux cur (s +:+ String "/"%char t) = split_slash_aux cur s ++ split_slash t.
Proof.
  revert cur. induction s as [|c s IH]; intros cur; simpl.
  - reflexivity.
  - destruct (Ascii.eqb c "/"%char); simpl; rewrite IH; reflexivity.
Qed.

Lemma split_slash_subdir (name sub : string) :
  split_slash (name +:+ String "/"%char sub) = split_slash name ++ split_slash sub.
Proof. apply split_slash_aux_app. Qed.

Lemma normalize_aux_app (l1 l2 acc : list string) :
  normalize_aux acc (l1 ++ l2) = normalize_aux (rev (normalize_aux acc l1)) l2.
Proof.
  revert acc. induction l1 as [|seg l1 IH]; intros acc; simpl.
  - by rewrite rev_involutive.
  - repeat case_match; apply IH.
Qed.

Lemma path_join_app (base : path) (l1 l2 : list string) :
  normalize_aux (rev base) (l1 ++ l2) = normalize_aux (rev (normalize_aux (rev base) l1)) l2.
Proof. apply normalize_aux_app. Qed.

(** The files the mutations aim at lie below the project directory. *)
Lemma view_path_project (E : env) (name : string) :
  view_path E name = project_dir E name ++ ["src"; "App.vue"].
Proof.
  unfold view_path, project_dir, path_join. simpl.
  rewrite app_nil_r, (split_slash_subdir name "src"), <- app_assoc, normalize_aux_app.
  simpl. by rewrite rev_involutive, <- app_assoc.
Qed.

Lemma server_path_project (E : env) (v : variant) (name : string) :
  server_path E v name =
  project_dir E name ++ (match v with Part000 => ["server.ts"] | _ => ["src"; "server.ts"] end).
Proof.
  unfold server_path, project_dir, path_join.
  destruct v; simpl; rewrite app_nil_r.
  1,3: rewrite (split_slash_subdir name "src"), <- app_assoc, normalize_aux_app;
       simpl; by rewrite rev_involutive, <- app_assoc.
  rewrite normalize_aux_app. simpl. by rewrite rev_involutive.
Qed.

Lemma package_dir_project (E : env) (name : string) :
  package_dir E name = project_dir E name ++ ["_package"].
Proof.
  unfold package_dir, project_dir, path_join. simpl.
  rewrite !app_nil_r, (split_slash_subdir name "_package"), normalize_aux_app.
  simpl. by rewrite rev_involutive.
Qed.

Lemma output_dir_components (E : env) :
  OUTPUT_DIR E = path_join (env_cwd E) [".."] ++ ["components"].
Proof.
  unfold OUTPUT_DIR, path_resolve, path_join. simpl. reflexivity.
Qed.

(** ** The monad, unfolded *)

Lemma bind_unfold {A B} (m : io A) (k : A -> io B) (w : world) :
  (m ≫= k) w =
  match m w with
  | (w', Returned a) => k a w'
  | (w', Threw e) => (w', Threw e)
  | (w', Hung) => (w', Hung)
  end.
Proof. reflexivity. Qed.

Lemma bind_returned {A B} (m : io A) (k : A -> io B) (w w' : world) (a : A) :
  m w = (w', Returned a) -> (m ≫= k) w = k a w'.
Proof. intros H. rewrite bind_unfold, H. reflexivity. Qed.

Lemma bind_threw {A B} (m : io A) (k : A -> io B) (w w' : world) (e : js_error) :
  m w = (w', Threw e) -> (m ≫= k) w = (w', Threw e).
Proof. intros H. rewrite bind_unfold, H. reflexivity. Qed.

Lemma bind_hung {A B} (m : io A) (k : A -> io B) (w w' : world) :
  m w = (w', Hung) -> (m ≫= k) w = (w', Hung).
Proof. intros H. rewrite bind_unfold, H. reflexivity. Qed.

(** ** Files on the way *)

Lemma ancestors_spec (p q : path) : q ∈ ancestors p <-> q <> [] /\ q `prefix_of` p.
Proof.
  unfold ancestors. rewrite list_elem_of_fmap. split.
  - intros (n & -> & Hn). apply elem_of_seq in Hn. split.
    + intros H. apply (f_equal length) in H. rewrite length_take in H. simpl in H. lia.
    + exists (drop n p). by rewrite take_drop.
  - intros [Hq [k ->]]. exists (length q). split.
    + by rewrite take_app_length.
    + apply elem_of_seq. rewrite length_app. destruct q; [done|]. simpl. lia.
Qed.

(** The way to [d ++ [x]] is open when no path down to [d] holds a file. *)
Lemma blocked_snoc (files : gmap (list string) node) (d : path) (x : string) :
  blocked files (d ++ [x]) = false <->
  forall q, q <> [] -> q `prefix_of` d -> holds_file files q = false.
Proof.
  unfold blocked. rewrite removelast_last, <- not_true_iff_false, existsb_exists. split.
  - intros H q Hq Hp. destruct (holds_file files q) eqn:Hf; [|done].
    exfalso. apply H. exists q. split; [|done]. by apply list_elem_of_In, ancestors_spec.
  - intros H (q & Hin & Hf). apply list_elem_of_In, ancestors_spec in Hin as [Hq Hp].
    by rewrite (H q Hq Hp) in Hf.
Qed.

Lemma blocked_frame (files files' : gmap (list string) node) (d : path) (x : string) :
  (forall q, q `prefix_of` d -> files' !! q = files !! q) ->
  blocked files' (d ++ [x]) = blocked files (d ++ [x]).
Proof.
  intros Hsame.
  assert (forall q, q `prefix_of` d -> holds_file files' q = holds_file files q) as Hh.
  { intros q Hq. unfold holds_file. by rewrite Hsame. }
  destruct (blocked files (d ++ [x])) eqn:Hb.
  - apply not_false_iff_true. intros Hb'. apply not_false_iff_true in Hb. apply Hb.
    apply blocked_snoc. intros q Hq Hp. rewrite <- Hh by done.
    by apply (proj1 (blocked_snoc files' d x) Hb').
  - apply blocked_snoc. intros q Hq Hp. rewrite Hh by done.
    by apply (proj1 (blocked_snoc files d x) Hb).
Qed.

Lemma blocked_prefix (files : gmap (list string) node) (d d' : path) (x y : string) :
  d `prefix_of` d' -> blocked files (d' ++ [y]) = false -> blocked files (d ++ [x]) = false.
Proof.
  intros Hd Hb. apply blocked_snoc. intros q Hq Hp.
  apply (proj1 (blocked_snoc files d' y) Hb q Hq). by etrans.
Qed.

Lemma view_path_snoc (E : env) (name : string) :
  view_path E name = (project_dir E name ++ ["src"]) ++ ["App.vue"].
Proof. by rewrite view_path_project, <- app_assoc. Qed.

Lemma server_path_snoc (E : env) (v : variant) (name : string) :
  server_path E v name =
  (project_dir E name ++ match v with Part000 => [] | _ => ["src"] end) ++ ["server.ts"].
Proof. rewrite server_path_project, <- app_assoc. by destruct v. Qed.

(** ** update_view and update_server, case by case *)

Lemma overwrite_blocked (E : env) (p : path) (content : string) (w : world) :
  blocked (fs w) p = true ->
  (access E p ;; write E p content) w = (w, Threw (sys_error E "ENOTDIR" "access" p)).
Proof.
  intros H. apply bind_threw. unfold access. by rewrite H.
Qed.

Lemma overwrite_missing (E : env) (p : path) (content : string) (w : world) :
  blocked (fs w) p = false -> fs w !! p = None ->
  (access E p ;; write E p content) w = (w, Threw (sys_error E "ENOENT" "access" p)).
Proof.
  intros Hb H. apply bind_threw. unfold access. by rewrite Hb, H.
Qed.

Lemma overwrite_file (E : env) (p : path) (content old : string) (w : world) :
  blocked (fs w) p = false -> fs w !! p = Some (File old) ->
  (access E p ;; write E p content) w =
  (World (<[p := File content]> (fs w)) (spawned w), Returned tt).
Proof.
  intros Hb H. rewrite (bind_returned _ _ w w tt); unfold access, write; by rewrite Hb, H.
Qed.

Lemma overwrite_dir (E : env) (p : path) (content : string) (w : world) :
  blocked (fs w) p = false -> fs w !! p = Some Dir ->
  (access E p ;; write E p content) w = (w, Threw (sys_error E "EISDIR" "open" p)).
Proof.
  intros Hb H. rewrite (bind_returned _ _ w w tt); unfold access, write; by rewrite Hb, H.
Qed.

Lemma update_view_blocked (E : env) (name content : string) (w : world) :
  blocked (fs w) (view_path E name) = true ->
  update_view E name content w = (w, Threw (new_Error (fs_error_message name))).
Proof.
  intros H. unfold update_view, try_catch. by rewrite overwrite_blocked.
Qed.

Lemma update_view_missing (E : env) (name content : string) (w : world) :
  blocked (fs w) (view_path E name) = false -> fs w !! view_path E name = None ->
  update_view E name content w =
  (w, Threw (new_Error (not_found_message "App.vue" (view_path E name)))).
Proof.
  intros Hb H. unfold update_view, try_catch. by rewrite overwrite_missing.
Qed.

Lemma update_view_file (E : env) (name content old : string) (w : world) :
  blocked (fs w) (view_path E name) = false -> fs w !! view_path E name = Some (File old) ->
  update_view E name content w =
  (World (<[view_path E name := File content]> (fs w)) (spawned w), Returned tt).
Proof.
  intros Hb H. unfold update_view, try_catch. by rewrite (overwrite_file _ _ _ old).
Qed.

Lemma update_view_dir (E : env) (name content : string) (w : world) :
  blocked (fs w) (view_path E name) = false -> fs w !! view_path E name = Some Dir ->
  update_view E name content w = (w, Threw (new_Error (fs_error_message name))).
Proof.
  intros Hb H. unfold update_view, try_catch. by rewrite overwrite_dir.
Qed.

Lemma update_server_blocked (E : env) (v : variant) (name content : string) (w : world) :
  blocked (fs w) (server_path E v name) = true ->
  update_server E v name content w =
  (w, Threw (new_Error (server_error_message E v name "ENOTDIR" "access"))).
Proof.
  intros H. unfold update_server, try_catch. rewrite overwrite_blocked by done.
  by destruct v.
Qed.

Lemma update_server_missing (E : env) (v : variant) (name content : string) (w : world) :
  blocked (fs w) (server_path E v name) = false -> fs w !! server_path E v name = None ->
  update_server E v name content w =
  (w, Threw (new_Error (not_found_message
                          (match v with Part000 => "App.vue" | _ => "server.ts" end)
                          (server_path E v name)))).
Proof.
  intros Hb H. unfold update_server, try_catch. by rewrite overwrite_missing.
Qed.

Lemma update_server_file (E : env) (v : variant) (name content old : string) (w : world) :
  blocked (fs w) (server_path E v name) = false ->
  fs w !! server_path E v name = Some (File old) ->
  update_server E v name content w =
  (World (<[server_path E v name := File content]> (fs w)) (spawned w), Returned tt).
Proof.
  intros Hb H. unfold update_server, try_catch. by rewrite (overwrite_file _ _ _ old).
Qed.

Lemma update_server_dir (E : env) (v : variant) (name content : string) (w : world) :
  blocked (fs w) (server_path E v name) = false -> fs w !! server_path E v name = Some Dir ->
  update_server E v name content w =
  (w, Threw (new_Error (server_error_message E v name "EISDIR" "open"))).
Proof.
  intros Hb H. unfold update_server, try_catch. rewrite overwrite_dir by done.
  by destruct v.
Qed.

(** A mutation whose target is missing fails, whatever the reason. *)
Lemma update_view_fails (E : env) (name content : string) (w : world) :
  fs w !! view_path E name = None ->
  exists e, update_view E name content w = (w, Threw e).
Proof.
  intros H. destruct (blocked (fs w) (view_path E name)) eqn:Hb.
  - eexists. by apply update_view_blocked.
  - eexists. by apply update_view_missing.
Qed.

Lemma update_server_fails (E : env) (v : variant) (name content : string) (w : world) :
  fs w !! server_path E v name = None ->
  exists e, update_server E v name content w = (w, Threw e).
Proof.
  intros H. destruct (blocked (fs w) (server_path E v name)) eqn:Hb.
  - eexists. by apply update_server_blocked.
  - eexists. by apply update_server_missing.
Qed.

(** A mutation never adds a path to the file system. *)
Lemma update_view_dom (E : env) (name content : string) (w : world) :
  dom (fs (update_view E name content w).1) = dom (fs w).
Proof.
  destruct (blocked (fs w) (view_path E name)) eqn:Hb; [by rewrite update_view_blocked|].
  destruct (fs w !! view_path E name) as [[old|]|] eqn:H.
  - rewrite (update_view_file _ _ _ old) by done. simpl.
    rewrite dom_insert_L. apply (elem_of_dom_2 (fs w)) in H. set_solver.
  - by rewrite update_view_dir.
  - by rewrite update_view_missing.
Qed.

Lemma update_server_dom (E : env) (v : variant) (name content : string) (w : world) :
  dom (fs (update_server E v name content w).1) = dom (fs w).
Proof.
  destruct (blocked (fs w) (server_path E v name)) eqn:Hb; [by rewrite update_server_blocked|].
  destruct (fs w !! server_path E v name) as [[old|]|] eqn:H.
  - rewrite (update_server_file _ _ _ _ old) by done. simpl.
    rewrite dom_insert_L. apply (elem_of_dom_2 (fs w)) in H. set_solver.
  - by rewrite update_server_dir.
  - by rewrite update_server_missing.
Qed.

(** ** The mutation precondition (C6) *)

(** In every variant a mutation whose own target is missing, the way to
    it being open, throws the not-found error and leaves the world as it
    was. *)
Lemma mutation_not_found (E : env) (v : variant) (name content : string) (w : world) :
  (blocked (fs w) (view_path E name) = false -> fs w !! view_path E name = None ->
   exists message,
     update_view E name content w = (w, Threw (new_Error message)) /\
     message = not_found_message "App.vue" (view_path E name)) /\
  (blocked (fs w) (server_path E v name) = false -> fs w !! server_path E v name = None ->
   exists file,
     update_server E v name content w =
     (w, Threw (new_Error (not_found_message file (server_path E v name))))).
Proof.
  split; intros Hb H.
  - eexists. split; [by apply update_view_missing | reflexivity].
  - eexists. by apply update_server_missing.
Qed.

(** In server.ts and part_001 both targets lie in the src directory of the
    project, so there the precondition is the one C6 states. *)
Lemma mutation_targets_in_src (E : env) (v : variant) (name : string) :
  v <> Part000 ->
  view_path E name = project_dir E name ++ ["src"; "App.vue"] /\
  server_path E v name = project_dir E name ++ ["src"; "server.ts"].
Proof.
  intros Hv. split; [apply view_path_project|].
  rewrite server_path_project. by destruct v.
Qed.

(** C6, at the input where part_000 departs from it: the server entry file
    src/server.ts of project acme does not exist, yet update_server of
    part_000 succeeds, because it looks for server.ts in the project
    directory itself and overwrites that file; server.ts and part_001
    throw the not-found error on the same world. *)
Theorem C6_part000_server_path :
  fs world_stray_server !! (project_dir env_plain "acme" ++ ["src"; "server.ts"]) = None /\
  update_server env_plain Part000 "acme" "new" world_stray_server =
    (World {[ ["srv"; "components"; "acme"; "server.ts"] := File "new" ]} [], Returned tt) /\
  update_server env_plain ServerTs "acme" "new" world_stray_server =
    (world_stray_server,
     Threw (new_Error "server.ts not found in the specified template directory: /srv/components/acme/src/server.ts")) /\
  update_server env_plain Part001 "acme" "new" world_stray_server =
    (world_stray_server,
     Threw (new_Error "server.ts not found in the specified template directory: /srv/components/acme/src/server.ts")).
Proof.
  split; [reflexivity|]. split; [|split].
  - rewrite (update_server_file _ _ _ _ "old") by reflexivity.
    reflexivity.
  - by rewrite update_server_missing.
  - by rewrite update_server_missing.
Qed.

(** ** run_command (C7) *)

Lemma settle_command_close (v : variant) (command : string) (args : list string)
    (code : option Z) (rest : list child_event) :
  (settle_command v command args (OnClose code :: rest) = Returned tt <-> code = Some 0%Z) /\
  (code <> Some 0%Z ->
   settle_command v command args (OnClose code :: rest) =
   Threw (new_Error (exit_message v command args code))).
Proof.
  simpl. unfold on_close. destruct code as [[| |]|]; split; try done; intros; try congruence.
Qed.

Lemma append_assoc (a b c : string) : (a +:+ b) +:+ c = a +:+ (b +:+ c).
Proof.
  induction a as [|x a IH]; [done|].
  change (String x ((a +:+ b) +:+ c) = String x (a +:+ (b +:+ c))). by f_equal.
Qed.

(** The message of a failed step ends with the exit code. *)
Lemma exit_message_code (v : variant) (command : string) (args : list string) (code : option Z) :
  exists front, exit_message v command args code = front +:+ " exited with code " +:+ show_code code.
Proof.
  destruct v; unfold exit_message;
    [exists (command +:+ " " +:+ String.concat " " args)
    |exists (command +:+ " " +:+ String.concat " " args)
    |exists command]; by rewrite ?append_assoc.
Qed.

Lemma settle_command_error (v : variant) (command : string) (args : list string)
    (err : js_error) (rest : list child_event) :
  v <> Part000 ->
  settle_command v command args (OnError err :: rest) = Threw err.
Proof. by destruct v. Qed.

(** C7, at the input where part_000 departs from it: when the process
    cannot be started the child emits 'error'; server.ts and part_001
    reject with that error, part_000 has no listener for it and its promise
    is never settled. *)
Theorem C7_part000_spawn_error (command : string) (args : list string) (cwd : path)
    (E : env) (w : world) (err : js_error) :
  settle_command Part000 command args [OnError err] = Hung /\
  settle_command ServerTs command args [OnError err] = Threw err /\
  settle_command Part001 command args [OnError err] = Threw err /\
  (run_command (Env (env_cwd E) (fun _ _ => [OnError err]) (env_effect E) (env_message E))
     Part000 command args cwd w).2 = Hung.
Proof. done. Qed.

(** ** The update operation (C4, C10) *)

Lemma update_operation_steps (E : env) (v : variant) (name : string)
    (view server : option string) (w : world) :
  update_operation E v name view server w =
  ((update_steps E v name view server w).1,
   update_answer v name (update_steps E v name view server w).2).
Proof.
  destruct v; unfold update_operation, try_catch; rewrite bind_unfold;
    by destruct (update_steps _ _ name view server w) as [w' [[]|e|]].
Qed.

Lemma cleared_lookup (E : env) (name : string) (w : world) (q : path) :
  fs (cleared E name w) !! q =
  if decide (package_dir E name `prefix_of` q) then None else fs w !! q.
Proof.
  simpl. case_decide as Hp.
  - apply map_lookup_filter_None. right. intros x _. simpl. tauto.
  - destruct (fs w !! q) as [x|] eqn:Hq.
    + by apply map_lookup_filter_Some.
    + apply map_lookup_filter_None. by left.
Qed.

Lemma rm_rf_open (E : env) (name : string) (w : world) :
  blocked (fs w) (package_dir E name) = false ->
  rm_rf E (package_dir E name) w = (cleared E name w, Returned tt).
Proof. intros H. unfold rm_rf. by rewrite H. Qed.

Lemma rm_rf_blocked (E : env) (name : string) (w : world) :
  blocked (fs w) (package_dir E name) = true ->
  rm_rf E (package_dir E name) w = (w, Threw (rm_blocked E name)).
Proof. intros H. unfold rm_rf. by rewrite H. Qed.

Lemma after_rm_open (E : env) (name : string) (w : world) :
  blocked (fs w) (package_dir E name) = false ->
  after_rm E Part001 name w = cleared E name w.
Proof. intros H. unfold after_rm. by rewrite rm_rf_open. Qed.

Lemma after_rm_lookup (E : env) (v : variant) (name : string) (w : world) (q : path) :
  ~ package_dir E name `prefix_of` q ->
  fs (after_rm E v name w) !! q = fs w !! q.
Proof.
  intros Hq. destruct v; try done. unfold after_rm.
  destruct (blocked (fs w) (package_dir E name)) eqn:Hb.
  - by rewrite rm_rf_blocked.
  - rewrite rm_rf_open by done. cbn [fst]. rewrite cleared_lookup. by rewrite decide_False.
Qed.

Lemma package_dir_apart (E : env) (name : string) (seg : string) (rest : list string) :
  seg <> "_package" ->
  ~ package_dir E name `prefix_of` project_dir E name ++ seg :: rest.
Proof.
  intros Hseg Hp. rewrite package_dir_project in Hp.
  apply prefix_app_inv in Hp. destruct Hp as [k Hk].
  simpl in Hk. injection Hk as Hk _. done.
Qed.

(** Nothing on the way to a file of the project lies below _package. *)
Lemma package_dir_aside (E : env) (name : string) (d q : path) :
  d = [] \/ d = ["src"] ->
  q `prefix_of` project_dir E name ++ d -> ~ package_dir E name `prefix_of` q.
Proof.
  intros Hd Hq Hp. assert (package_dir E name `prefix_of` project_dir E name ++ d) as H
    by by etrans.
  destruct Hd as [-> | ->].
  - rewrite app_nil_r, package_dir_project in H. apply prefix_length in H.
    rewrite length_app in H. simpl in H. lia.
  - by apply package_dir_apart in H.
Qed.

Lemma after_rm_view (E : env) (v : variant) (name : string) (w : world) :
  fs (after_rm E v name w) !! view_path E name = fs w !! view_path E name.
Proof.
  apply after_rm_lookup. rewrite view_path_project. by apply package_dir_apart.
Qed.

Lemma after_rm_server (E : env) (v : variant) (name : string) (w : world) :
  fs (after_rm E v name w) !! server_path E v name = fs w !! server_path E v name.
Proof.
  apply after_rm_lookup. rewrite server_path_project.
  destruct v; by apply package_dir_apart.
Qed.

Lemma after_rm_view_blocked (E : env) (v : variant) (name : string) (w : world) :
  blocked (fs (after_rm E v name w)) (view_path E name) = blocked (fs w) (view_path E name).
Proof.
  rewrite view_path_snoc. apply blocked_frame. intros q Hq.
  apply after_rm_lookup. apply (package_dir_aside E name ["src"]); auto.
Qed.

Lemma after_rm_server_blocked (E : env) (v : variant) (name : string) (w : world) :
  blocked (fs (after_rm E v name w)) (server_path E v name)
  = blocked (fs w) (server_path E v name).
Proof.
  rewrite server_path_snoc. apply blocked_frame. intros q Hq.
  apply after_rm_lookup.
  apply (package_dir_aside E name (match v with Part000 => [] | _ => ["src"] end));
    [destruct v; auto | done].
Qed.

Lemma after_rm_spawned (E : env) (v : variant) (name : string) (w : world) :
  spawned (after_rm E v name w) = spawned w.
Proof.
  destruct v; try done. unfold after_rm, rm_rf.
  by destruct (blocked (fs w) (package_dir E name)).
Qed.

(** A file of the project that can be reached shows that the way to the
    _package directory is open. *)
Lemma package_open (E : env) (v : variant) (name : string) (w : world) :
  is_file w (view_path E name) \/ is_file w (server_path E v name) ->
  blocked (fs w) (package_dir E name) = false.
Proof.
  rewrite package_dir_project, view_path_snoc, server_path_snoc.
  intros [[Hb _]|[Hb _]]; eapply blocked_prefix; try exact Hb.
  - by apply prefix_app_r.
  - by apply prefix_app_r.
Qed.

(** The rm of part_001 either finds a file on its way or goes through. *)
Lemma rm_cases (E : env) (v : variant) (name : string) (w : world) :
  (v = Part001 /\ blocked (fs w) (package_dir E name) = true) \/
  (v = Part001 -> blocked (fs w) (package_dir E name) = false).
Proof.
  destruct v; [by right | by right |].
  destruct (blocked (fs w) (package_dir E name)); [by left | by right].
Qed.

Lemma update_steps_tail (E : env) (v : variant) (name : string)
    (view server : option string) (w : world) :
  update_steps E v name view server w =
  (when (match v with Part001 => true | _ => false end) (rm_rf E (package_dir E name)) ;;
   update_tail E v name view server) w.
Proof. reflexivity. Qed.

Lemma update_steps_after_rm (E : env) (v : variant) (name : string)
    (view server : option string) (w : world) :
  (v = Part001 -> blocked (fs w) (package_dir E name) = false) ->
  update_steps E v name view server w = update_tail E v name view server (after_rm E v name w).
Proof.
  intros Hb. rewrite update_steps_tail. destruct v; try done.
  rewrite (bind_returned _ _ _ _ tt (rm_rf_open E name w (Hb eq_refl))).
  by rewrite after_rm_open by auto.
Qed.

Lemma update_steps_blocked (E : env) (name : string) (view server : option string) (w : world) :
  blocked (fs w) (package_dir E name) = true ->
  update_steps E Part001 name view server w = (w, Threw (rm_blocked E name)).
Proof.
  intros Hb. rewrite update_steps_tail.
  by rewrite (bind_threw _ _ _ _ _ (rm_rf_blocked E name w Hb)).
Qed.

Lemma view_server_apart (E : env) (v : variant) (name : string) :
  view_path E name <> server_path E v name.
Proof.
  rewrite view_path_project, server_path_project. intros H.
  apply app_inv_head in H. destruct v; discriminate.
Qed.

(** Writing the view file leaves the way to the server file as it is. *)
Lemma view_written_server (E : env) (v : variant) (name content : string) (w : world) :
  let w1 := World (<[view_path E name := File content]> (fs w)) (spawned w) in
  blocked (fs w1) (server_path E v name) = blocked (fs w) (server_path E v name) /\
  fs w1 !! server_path E v name = fs w !! server_path E v name.
Proof.
  cbv zeta. cbn [fs]. split.
  - rewrite server_path_snoc. apply blocked_frame. intros q Hq.
    apply lookup_insert_ne. intros <-. rewrite view_path_project in Hq.
    apply prefix_length in Hq. rewrite !length_app in Hq. destruct v; simpl in Hq; lia.
  - apply lookup_insert_ne, view_server_apart.
Qed.

(** The commands of the pipeline as run in server.ts and part_001. *)
Lemma pipeline_spawned (E : env) (v : variant) (name : string) (w : world) :
  v <> Part000 ->
  spawned ((run_command E v "pnpm" ["install"] (project_dir E name) ;;
            run_command E v "pnpm" ["build"] (project_dir E name)) w).1 =
  spawned w ++ install_step E name ::
    match install_result E v name w with
    | Returned _ => [build_step E name]
    | _ => []
    end.
Proof.
  intros Hv. rewrite bind_unfold. unfold install_result, install_step, run_command at 1.
  destruct (settle_command v "pnpm" ["install"] _) as [[]|e|]; simpl; try done.
  by rewrite <- app_assoc.
Qed.

Lemma when_false (m : io unit) (w : world) : when false m w = (w, Returned tt).
Proof. reflexivity. Qed.

Lemma when_false_bind {B} (m : io unit) (k : io B) (w : world) :
  (when false m ;; k) w = k w.
Proof. reflexivity. Qed.

Lemma when_true_bind {B} (m : io unit) (k : io B) (w : world) :
  (when true m ;; k) w = (m ;; k) w.
Proof. reflexivity. Qed.

Ltac io_next := cbv beta; rewrite ?when_false_bind, ?when_true_bind.

(** The two mutations of an update, when each supplied one finds its file. *)
Lemma mutations_succeed (E : env) (v : variant) (name : string)
    (view server : option string) (k : io unit) (w : world) :
  (truthy view = true -> is_file w (view_path E name)) ->
  (truthy server = true -> is_file w (server_path E v name)) ->
  exists w', spawned w' = spawned w /\
    (when (truthy view) (update_view E name (content_of view)) ;;
     when (truthy server) (update_server E v name (content_of server)) ;; k) w = k w'.
Proof.
  intros Hview Hserver.
  destruct (truthy view) eqn:Hv, (truthy server) eqn:Hs;
    rewrite ?when_false_bind, ?when_true_bind.
  - destruct (Hview eq_refl) as [Hb [old Hold]], (Hserver eq_refl) as [Hb' [old' Hold']].
    rewrite (bind_returned _ _ _ _ tt (update_view_file _ _ _ old _ Hb Hold)); io_next.
    destruct (view_written_server E v name (content_of view) w) as [H1 H2].
    rewrite Hb' in H1. rewrite Hold' in H2.
    rewrite (bind_returned _ _ _ _ tt (update_server_file _ _ _ _ old' _ H1 H2)).
    eexists; split; [|reflexivity]; done.
  - destruct (Hview eq_refl) as [Hb [old Hold]].
    rewrite (bind_returned _ _ _ _ tt (update_view_file _ _ _ old _ Hb Hold)); io_next.
    eexists; split; [|reflexivity]; done.
  - destruct (Hserver eq_refl) as [Hb' [old' Hold']].
    rewrite (bind_returned _ _ _ _ tt (update_server_file _ _ _ _ old' _ Hb' Hold')).
    eexists; split; [|reflexivity]; done.
  - by exists w.
Qed.

Lemma is_file_after_rm (E : env) (v : variant) (name : string) (w : world) :
  (is_file w (view_path E name) -> is_file (after_rm E v name w) (view_path E name)) /\
  (is_file w (server_path E v name) -> is_file (after_rm E v name w) (server_path E v name)).
Proof.
  unfold is_file.
  rewrite after_rm_view, after_rm_server, after_rm_view_blocked, after_rm_server_blocked.
  done.
Qed.

(** The way to _package is open when a supplied content finds its file. *)
Lemma supplied_open (E : env) (v : variant) (name : string)
    (view server : option string) (w : world) :
  truthy view || truthy server = true ->
  (truthy view = true -> is_file w (view_path E name)) ->
  (truthy server = true -> is_file w (server_path E v name)) ->
  blocked (fs w) (package_dir E name) = false.
Proof.
  intros Hany Hview Hserver. apply (package_open E v).
  destruct (truthy view); [left; auto | right; auto].
Qed.

(** C4, as the code has it: an update whose view and server are both
    absent or empty runs no pipeline step and succeeds, unless, in
    part_001, the rm of _package fails because a file lies on the way,
    which is answered 500; an update with a supplied content whose target
    file is missing runs no pipeline step and reports the failure; and
    in server.ts and part_001 an update with a non-empty content whose
    mutations succeed runs pnpm install in the project directory and,
    when that exits with zero, pnpm build there. *)
Theorem C4_update_pipeline (E : env) (v : variant) (name : string)
    (view server : option string) (w : world) :
  let r := update_operation E v name view server w in
  (truthy view = false -> truthy server = false ->
     spawned r.1 = spawned w /\
     ((v = Part001 -> blocked (fs w) (package_dir E name) = false) ->
        r.2 = Returned (update_ok v name)) /\
     (v = Part001 -> blocked (fs w) (package_dir E name) = true ->
        r = (w, Returned (error_response (rm_blocked E name))))) /\
  ((truthy view = true /\ fs w !! view_path E name = None) \/
   ((truthy view = true -> is_file w (view_path E name)) /\
    truthy server = true /\ fs w !! server_path E v name = None) ->
     spawned r.1 = spawned w /\ exists e, r.2 = update_answer v name (Threw e)) /\
  (v <> Part000 -> truthy view || truthy server = true ->
   (truthy view = true -> is_file w (view_path E name)) ->
   (truthy server = true -> is_file w (server_path E v name)) ->
     spawned r.1 = spawned w ++ install_step E name ::
       match install_result E v name w with
       | Returned _ => [build_step E name]
       | _ => []
       end).
Proof.
  intros r. subst r. rewrite update_operation_steps.
  assert (v = Part001 -> blocked (fs w) (package_dir E name) = true ->
          update_steps E v name view server w = (w, Threw (rm_blocked E name))) as Hshut.
  { intros -> Hb. by apply update_steps_blocked. }
  split; [|split].
  - intros Hv Hs.
    assert ((v = Part001 -> blocked (fs w) (package_dir E name) = false) ->
            update_steps E v name view server w = (after_rm E v name w, Returned tt)) as Hopen.
    { intros Hb. rewrite update_steps_after_rm by done. unfold update_tail.
      by rewrite Hv, Hs, !when_false_bind, when_false. }
    split_and!.
    + destruct (rm_cases E v name w) as [[Hp Hb]|Hno].
      * by rewrite Hshut.
      * rewrite Hopen by done. apply after_rm_spawned.
    + intros Hb. by rewrite Hopen.
    + intros Hp Hb. rewrite Hshut by done. by subst v.
  - intros Hcase.
    destruct (rm_cases E v name w) as [[Hp Hb]|Hno].
    { rewrite Hshut by done. simpl. eauto. }
    rewrite update_steps_after_rm by done.
    unfold update_tail. rewrite <- (after_rm_spawned E v name w).
    destruct Hcase as [[Hv Hmiss] | (Hview & Hs & Hmiss)].
    + rewrite Hv, when_true_bind.
      rewrite <- (after_rm_view E v) in Hmiss.
      destruct (update_view_fails E name (content_of view) _ Hmiss) as [e He].
      rewrite (bind_threw _ _ _ _ _ He). simpl. eauto.
    + rewrite Hs.
      destruct (truthy view) eqn:Hv; rewrite ?when_false_bind, ?when_true_bind.
      * destruct (proj1 (is_file_after_rm E v name w) (Hview eq_refl)) as [Hb [old Hold]].
        rewrite (bind_returned _ _ _ _ tt (update_view_file _ _ _ old _ Hb Hold)); io_next.
        destruct (view_written_server E v name (content_of view) (after_rm E v name w))
          as [_ H2].
        rewrite after_rm_server, Hmiss in H2.
        destruct (update_server_fails E v name (content_of server) _ H2) as [e He].
        rewrite (bind_threw _ _ _ _ _ He). simpl. eauto.
      * rewrite <- (after_rm_server E v) in Hmiss.
        destruct (update_server_fails E v name (content_of server) _ Hmiss) as [e He].
        rewrite (bind_threw _ _ _ _ _ He). simpl. eauto.
  - intros Hq Hany Hview Hserver.
    rewrite update_steps_after_rm
      by (intros _; by apply (supplied_open E v name view server)).
    unfold update_tail.
    destruct (mutations_succeed E v name view server
                (when (truthy view || truthy server)
                   (match v with
                    | Part000 => run_command E v "pnpm" ["build"] (project_dir E name)
                    | _ => (run_command E v "pnpm" ["install"] (project_dir E name) ;;
                            run_command E v "pnpm" ["build"] (project_dir E name))
                    end))
                (after_rm E v name w)) as (w' & Hsp & ->).
    { intros H. by apply is_file_after_rm, Hview. }
    { intros H. by apply is_file_after_rm, Hserver. }
    rewrite Hany. simpl.
    assert (install_result E v name w = install_result E v name w') as ->.
    { unfold install_result. by rewrite Hsp, after_rm_spawned. }
    rewrite <- (after_rm_spawned E v name w), <- Hsp.
    destruct v; [|done|]; by apply pipeline_spawned.
Qed.

Lemma C4_update_pipeline_witness :
  spawned (update_operation env_plain ServerTs "acme" (Some "<new/>") None world_acme).1 =
  [install_step env_plain "acme"; build_step env_plain "acme"].
Proof.
  apply (proj2 (proj2 (C4_update_pipeline env_plain ServerTs "acme" (Some "<new/>") None world_acme))).
  - discriminate.
  - reflexivity.
  - intros _. split; [reflexivity | by exists "<old/>"].
  - discriminate.
Defined.

(** C4 as stated fails: a view is supplied for a project that was never
    scaffolded, the mutation throws, and no pipeline step is run. *)
Lemma C4_counterexample : ~ pipeline_iff_supplied ServerTs.
Proof.
  intros H.
  destruct (H env_plain "acme" (Some "<new/>") None world_empty) as [Hrun _].
  specialize (Hrun (or_introl (mk_is_Some _ _ eq_refl))).
  vm_compute in Hrun. discriminate.
Qed.

(** C10 (as amended): in part_001 every update begins with the rm of the
    project's _package directory, whatever it was sent. When the way to that
    directory is open the rm succeeds and leaves a world without the
    directory and what lay below it, every other path as it was; the
    rest of the update runs in that world and decides the answer; with
    neither view nor server supplied the update ends there, with
    success, having run no command, and the disk has changed if anything
    lay under _package. When a file lies on the way, the rm throws
    ENOTDIR, nothing is changed and the answer is the 500 of that error. *)
Theorem C10_update_clears_package (E : env) (name : string)
    (view server : option string) (w : world) :
  let r := update_operation E Part001 name view server w in
  let rest := update_tail E Part001 name view server (cleared E name w) in
  (blocked (fs w) (package_dir E name) = false ->
     rm_rf E (package_dir E name) w = (cleared E name w, Returned tt) /\
     (forall p, package_dir E name `prefix_of` p -> fs (cleared E name w) !! p = None) /\
     (forall p, ~ package_dir E name `prefix_of` p -> fs (cleared E name w) !! p = fs w !! p) /\
     spawned (cleared E name w) = spawned w /\
     update_steps E Part001 name view server w = rest /\
     r = (rest.1, update_answer Part001 name rest.2) /\
     (truthy view = false -> truthy server = false ->
        r = (cleared E name w, Returned (update_ok Part001 name)) /\
        ((exists p, package_dir E name `prefix_of` p /\ is_Some (fs w !! p)) ->
           fs r.1 <> fs w))) /\
  (blocked (fs w) (package_dir E name) = true ->
     rm_rf E (package_dir E name) w = (w, Threw (rm_blocked E name)) /\
     r = (w, Returned (error_response (rm_blocked E name)))).
Proof.
  intros r rest. subst r rest. rewrite update_operation_steps. split.
  - intros Hb.
    assert (forall p, package_dir E name `prefix_of` p -> fs (cleared E name w) !! p = None)
      as Hgone.
    { intros p Hp. by rewrite cleared_lookup, decide_True. }
    rewrite update_steps_after_rm by done. rewrite after_rm_open by done.
    split_and!; try done.
    + by apply rm_rf_open.
    + intros p Hp. by rewrite cleared_lookup, decide_False.
    + intros Hv Hs. unfold update_tail.
      rewrite Hv, Hs, !when_false_bind, when_false. split; [done|].
      intros (p & Hp & [x Hx]) Heq. cbn [fst] in Heq.
      specialize (Hgone p Hp). rewrite Heq in Hgone. congruence.
  - intros Hb. split; [by apply rm_rf_blocked|].
    by rewrite update_steps_blocked.
Qed.

Lemma C10_update_clears_package_witness :
  fs (update_operation env_plain Part001 "acme" None None world_acme).1
  <> fs world_acme.
Proof.
  destruct (C10_update_clears_package env_plain "acme" None None world_acme) as [H _].
  destruct (H eq_refl) as (_ & _ & _ & _ & _ & _ & Hnone).
  apply (Hnone eq_refl eq_refl).
  exists ["srv"; "components"; "acme"; "_package"; "server.js"].
  split; [by exists ["server.js"] | by eexists].
Defined.

(** C10 as stated fails where a file lies on the way to _package: the
    rm throws, and the update without content is answered 500. *)
Lemma C10_counterexample : ~ clears_package_first.
Proof.
  intros H.
  destruct (H env_plain "acme" None None world_file_on_way) as [_ Hok].
  specialize (Hok eq_refl eq_refl). apply (f_equal snd) in Hok.
  vm_compute in Hok. discriminate.
Qed.

(** ** The manifest rewrite (C5) *)

Lemma get_substitution_no_dollar (matched before after name : string) :
  (forall c, c ∈ list_ascii_of_string name -> c <> "$"%char) ->
  get_substitution matched before after name = name.
Proof.
  induction name as [|c name IH]; intros Hno; [done|].
  simpl. destruct (Ascii.eqb_spec c "$"%char) as [->|_].
  - exfalso. apply (Hno "$"%char); [left | done].
  - f_equal. apply IH. intros d Hd. apply Hno. simpl. by right.
Qed.

(** The two examples of the specification hold. *)
Lemma rewrite_manifest_examples :
  rewrite_manifest "acme" manifest_template
    = Manifest (Some "acme") (Some [("build", "run acme build")]) [] /\
  replace_template "acme" "run templates build" = "run templates build" /\
  replace_template "acme" "a template-dir, my_template, template" = "a acme-dir, my_template, acme".
Proof. repeat split. Qed.

(** C5, at an input where the code departs from it: the replacement text
    is the name itself, in which replace reads a dollar pair as a pattern,
    so for the name a$$b the word template becomes a$b, not the name. *)
Theorem C5_dollar_in_name :
  invalid_name (Some (trim "a$$b")) = false /\
  rewrite_manifest "a$$b" manifest_template
    = Manifest (Some "a$$b") (Some [("build", "run a$b build")]) [] /\
  replace_template "$&" "run template build" = "run template build".
Proof. repeat split. Qed.
(** ** Strings *)

Lemma append_nil_r (s : string) : s +:+ "" = s.
Proof. induction s as [|c s IH]; [done|]. change (String c (s +:+ "") = String c s). by rewrite IH. Qed.

Lemma rev_app_append (s t u : string) :
  String.rev_app s (t +:+ u) = String.rev_app s t +:+ u.
Proof.
  revert t. induction s as [|c s IH]; intros t; simpl; [done|].
  by rewrite <- IH.
Qed.

Lemma rev_app_rev (s t : string) : String.rev_app s t = String.rev s +:+ t.
Proof. unfold String.rev. by rewrite <- rev_app_append. Qed.

Lemma rev_app_twice (s t u : string) :
  String.rev_app (String.rev_app s t) u = String.rev_app t (s +:+ u).
Proof.
  revert t. induction s as [|c s IH]; intros t; simpl; [done|].
  by rewrite IH.
Qed.

Lemma string_rev_involutive (s : string) : String.rev (String.rev s) = s.
Proof. unfold String.rev. rewrite rev_app_twice. simpl. apply append_nil_r. Qed.

Lemma rev_app_of_append (a b t : string) :
  String.rev_app (a +:+ b) t = String.rev_app b (String.rev_app a t).
Proof.
  revert t. induction a as [|c a IH]; intros t; [done|].
  change (String.rev_app (a +:+ b) (String c t) = String.rev_app b (String.rev_app a (String c t))).
  apply IH.
Qed.

Lemma string_rev_append (a b : string) :
  String.rev (a +:+ b) = String.rev b +:+ String.rev a.
Proof. unfold String.rev at 1. by rewrite rev_app_of_append, rev_app_rev. Qed.

Lemma length_append (s t : string) :
  String.length (s +:+ t) = String.length s + String.length t.
Proof.
  induction s as [|c s IH]; [done|].
  change (S (String.length (s +:+ t)) = S (String.length s + String.length t)). by rewrite IH.
Qed.

Lemma length_rev_app (s t : string) :
  String.length (String.rev_app s t) = String.length s + String.length t.
Proof.
  revert t. induction s as [|c s IH]; intros t; simpl; [done|].
  rewrite IH. simpl. lia.
Qed.

Lemma length_string_rev (s : string) : String.length (String.rev s) = String.length s.
Proof. unfold String.rev. rewrite length_rev_app. simpl. lia. Qed.

Lemma append_inv_head (s t t' : string) : s +:+ t = s +:+ t' -> t = t'.
Proof.
  induction s as [|c s IH]; [done|].
  change (String c (s +:+ t) = String c (s +:+ t') -> t = t'). intros [= H]. by apply IH.
Qed.

Lemma concat_cons (x : string) (l : list string) :
  String.concat "" (x :: l) = x +:+ String.concat "" l.
Proof. destruct l; simpl; [by rewrite append_nil_r | done]. Qed.

Lemma concat_app (l k : list string) :
  String.concat "" (l ++ k) = String.concat "" l +:+ String.concat "" k.
Proof.
  induction l as [|x l IH]; [done|].
  change ((x :: l) ++ k) with (x :: (l ++ k)). by rewrite !concat_cons, IH, append_assoc.
Qed.

Lemma string_rev_concat (l : list string) :
  String.rev (String.concat "" l) = String.concat "" (map String.rev (rev l)).
Proof.
  induction l as [|x l IH]; [done|].
  rewrite concat_cons, string_rev_append, IH. simpl.
  rewrite map_app, concat_app. simpl. done.
Qed.

Lemma has_separator_append (s t : string) :
  has_separator (s +:+ t) = has_separator s || has_separator t.
Proof.
  induction s as [|c s IH]; [done|].
  change (has_separator (String c (s +:+ t)) = has_separator (String c s) || has_separator t).
  simpl. rewrite IH. by rewrite !orb_assoc.
Qed.

Lemma has_separator_rev_app (s t : string) :
  has_separator (String.rev_app s t) = has_separator s || has_separator t.
Proof.
  revert t. induction s as [|c s IH]; intros t; simpl; [done|].
  rewrite IH. simpl. destruct (Ascii.eqb c "/"), (Ascii.eqb c "\"), (has_separator s); done.
Qed.

Lemma has_separator_rev (s : string) : has_separator (String.rev s) = has_separator s.
Proof. unfold String.rev. rewrite has_separator_rev_app. simpl. apply orb_false_r. Qed.

Lemma has_separator_concat (l : list string) :
  Forall (fun e => has_separator e = false) l -> has_separator (String.concat "" l) = false.
Proof.
  induction 1 as [|x l Hx _ IH]; [done|].
  by rewrite concat_cons, has_separator_append, Hx, IH.
Qed.

(** ** Taking entries of a table off the front of a string *)

Lemma strip_prefix_spec (p s r : string) : strip_prefix p s = Some r <-> s = p +:+ r.
Proof.
  revert s. induction p as [|a p IH]; intros s; simpl.
  - split; [by intros [= ->] | by intros ->].
  - destruct s as [|b s].
    + split; [done|]. intros H. discriminate H.
    + change (String a p +:+ r) with (String a (p +:+ r)).
      destruct (Ascii.eqb_spec a b) as [->|Hne].
      * rewrite IH. split; [by intros -> | by intros [= ->]].
      * split; [done|]. intros [= ? _]. congruence.
Qed.

(** Of two strings that begin one text, one begins the other. *)
Lemma strip_prefix_comparable (e e' r r' : string) :
  e +:+ r = e' +:+ r' -> is_Some (strip_prefix e e') \/ is_Some (strip_prefix e' e).
Proof.
  revert e'. induction e as [|a e IH]; intros e' H.
  - left. by eexists.
  - destruct e' as [|b e']; [right; by eexists|].
    change (String a (e +:+ r) = String b (e' +:+ r')) in H. injection H as -> H.
    simpl. rewrite Ascii.eqb_refl. by apply IH.
Qed.

Lemma strip_any_Some (T : list string) (s r : string) :
  strip_any T s = Some r -> exists e, e ∈ T /\ s = e +:+ r.
Proof.
  induction T as [|a T IH]; simpl; [done|].
  destruct (strip_prefix a s) as [r'|] eqn:Ha.
  - intros [= ->]. exists a. split; [by left | by apply strip_prefix_spec].
  - intros H. destruct (IH H) as (e & He & Hs). exists e. split; [by right | done].
Qed.

Lemma strip_any_None (T : list string) (s : string) :
  strip_any T s = None <-> forall e r, e ∈ T -> s <> e +:+ r.
Proof.
  induction T as [|a T IH]; simpl.
  - split; [|done]. intros _ e r He. by apply elem_of_nil in He.
  - destruct (strip_prefix a s) as [r'|] eqn:Ha.
    + split; [done|]. intros H. exfalso. apply (H a r'); [by left|].
      by apply strip_prefix_spec.
    + rewrite IH. split.
      * intros H e r [->|He]%elem_of_cons; [|by apply H].
        intros Hs. apply strip_prefix_spec in Hs. congruence.
      * intros H e r He. apply H. by right.
Qed.

Lemma trim_with_id (T : list string) (fuel : nat) (s : string) :
  strip_any T s = None -> trim_with T fuel s = s.
Proof. intros H. destruct fuel; simpl; [done|]. by rewrite H. Qed.

(** What is taken off is a run of entries of the table. *)
Lemma trim_with_split (T : list string) (fuel : nat) (s : string) :
  exists chars, Forall (fun c => c ∈ T) chars /\
    s = String.concat "" chars +:+ trim_with T fuel s.
Proof.
  revert s. induction fuel as [|n IH]; intros s; simpl.
  - by exists [].
  - destruct (strip_any T s) as [r|] eqn:Hs; [|by exists []].
    apply strip_any_Some in Hs as (e & He & ->).
    destruct (IH r) as (chars & Hall & Hr). exists (e :: chars). split; [by constructor|].
    by rewrite concat_cons, append_assoc, <- Hr.
Qed.

Section trimming.
Variable T : list string.
Hypothesis T_nonempty : forall e, e ∈ T -> e <> "".
Hypothesis T_prefix_free :
  forall e e' r r', e ∈ T -> e' ∈ T -> e +:+ r = e' +:+ r' -> e = e'.

Lemma strip_any_entry (e r : string) : e ∈ T -> strip_any T (e +:+ r) = Some r.
Proof.
  intros He. destruct (strip_any T (e +:+ r)) as [r'|] eqn:Hs.
  - apply strip_any_Some in Hs as (e' & He' & Heq).
    pose proof (T_prefix_free e e' r r' He He' Heq) as <-.
    by apply append_inv_head in Heq as ->.
  - exfalso. by apply (proj1 (strip_any_None T _) Hs e r).
Qed.

Lemma strip_any_empty : strip_any T "" = None.
Proof.
  apply strip_any_None. intros e r He Heq. apply (T_nonempty e He).
  destruct e; [done|discriminate Heq].
Qed.

Lemma entry_length (e : string) : e ∈ T -> 0 < String.length e.
Proof.
  intros He. pose proof (T_nonempty e He). destruct e; [done|simpl; lia].
Qed.

(** With fuel for every character, nothing of the table is left at
    the front. *)
Lemma trim_with_clean (fuel : nat) (s : string) :
  String.length s <= fuel -> strip_any T (trim_with T fuel s) = None.
Proof.
  revert s. induction fuel as [|n IH]; intros s Hlen; simpl.
  - destruct s; [apply strip_any_empty | simpl in Hlen; lia].
  - destruct (strip_any T s) as [r|] eqn:Hs; [|done].
    apply IH. apply strip_any_Some in Hs as (e & He & ->).
    rewrite length_append in Hlen. pose proof (entry_length e He). lia.
Qed.

(** A run of entries before a clean string is taken off entirely. *)
Lemma trim_with_chars (fuel : nat) (chars : list string) (s : string) :
  Forall (fun c => c ∈ T) chars -> strip_any T s = None ->
  String.length (String.concat "" chars +:+ s) <= fuel ->
  trim_with T fuel (String.concat "" chars +:+ s) = s.
Proof.
  intros Hall Hs. revert fuel. induction Hall as [|e chars He _ IH]; intros fuel Hlen.
  - by apply trim_with_id.
  - rewrite concat_cons, append_assoc in Hlen |- *.
    rewrite length_append in Hlen. pose proof (entry_length e He).
    destruct fuel as [|n]; [lia|]. simpl. rewrite (strip_any_entry e _ He).
    apply IH. lia.
Qed.
End trimming.

(** ** The white space table *)

Lemma table_checked (T : list string) :
  forallb (fun e =>
             negb (String.eqb e "") && negb (has_separator e) &&
             forallb (fun e' => match strip_prefix e e' with
                                | Some _ => String.eqb e e'
                                | None => true
                                end) T) T = true ->
  (forall e, e ∈ T -> e <> "" /\ has_separator e = false) /\
  (forall e e' r r', e ∈ T -> e' ∈ T -> e +:+ r = e' +:+ r' -> e = e').
Proof.
  intros H. rewrite forallb_forall in H.
  assert (forall e, e ∈ T -> e <> "" /\ has_separator e = false) as H1.
  { intros e He. apply list_elem_of_In, H in He.
    apply andb_prop in He as [He _]. apply andb_prop in He as [Hn Hs].
    split; [by apply String.eqb_neq, negb_true_iff | by apply negb_true_iff]. }
  split; [done|].
  assert (forall e e', e ∈ T -> e' ∈ T -> is_Some (strip_prefix e e') -> e = e') as Hp.
  { intros e e' He He' [r Hr]. apply list_elem_of_In, H in He.
    apply andb_prop in He as [_ He]. rewrite forallb_forall in He.
    apply list_elem_of_In, He in He'. rewrite Hr in He'. by apply String.eqb_eq. }
  intros e e' r r' He He' Heq.
  destruct (strip_prefix_comparable e e' r r' Heq) as [Hc|Hc]; [by apply Hp|].
  symmetry. by apply Hp.
Qed.

Lemma white_space_table :
  (forall e, e ∈ white_space -> e <> "" /\ has_separator e = false) /\
  (forall e e' r r', e ∈ white_space -> e' ∈ white_space -> e +:+ r = e' +:+ r' -> e = e').
Proof. apply table_checked. by vm_compute. Qed.

Lemma white_space_rev_table :
  (forall e, e ∈ map String.rev white_space -> e <> "" /\ has_separator e = false) /\
  (forall e e' r r', e ∈ map String.rev white_space -> e' ∈ map String.rev white_space ->
     e +:+ r = e' +:+ r' -> e = e').
Proof. apply table_checked. by vm_compute. Qed.

Lemma blank_no_separator (s : string) : blank s -> has_separator s = false.
Proof.
  intros (chars & Hall & ->). apply has_separator_concat.
  eapply Forall_impl; [exact Hall|]. intros e He. by apply white_space_table.
Qed.

Lemma blank_rev (chars : list string) :
  Forall (fun c => c ∈ map String.rev white_space) chars ->
  blank (String.rev (String.concat "" chars)).
Proof.
  intros Hall. exists (map String.rev (rev chars)). split; [|apply string_rev_concat].
  apply Forall_forall. intros e (e' & -> & He')%list_elem_of_fmap.
  apply list_elem_of_In, in_rev, list_elem_of_In in He'.
  rewrite Forall_forall in Hall. apply Hall in He'.
  apply list_elem_of_fmap in He' as (c & -> & Hc). by rewrite string_rev_involutive.
Qed.

(** ** Trimming *)

Lemma not_space_at_start (s : string) :
  ~ space_at_start s <-> strip_any white_space s = None.
Proof.
  rewrite strip_any_None. split.
  - intros H e r He Hs. apply H. by exists e, r.
  - intros H (e & r & He & Hs). by apply (H e r).
Qed.

Lemma not_space_at_end (s : string) :
  ~ space_at_end s <-> strip_any (map String.rev white_space) (String.rev s) = None.
Proof.
  rewrite strip_any_None. split.
  - intros H e r (c & -> & Hc)%list_elem_of_fmap Hs. apply H. exists c, (String.rev r).
    split; [done|]. apply (f_equal String.rev) in Hs.
    by rewrite string_rev_involutive, string_rev_append, string_rev_involutive in Hs.
  - intros H (c & front & Hc & ->). apply (H (String.rev c) (String.rev front)).
    + by apply list_elem_of_fmap_2.
    + apply string_rev_append.
Qed.

Lemma trim_start_split (s : string) : exists pre, blank pre /\ s = pre +:+ trim_start s.
Proof.
  destruct (trim_with_split white_space (String.length s) s) as (chars & Hall & Hs).
  exists (String.concat "" chars). split; [by exists chars | done].
Qed.

Lemma trim_start_clean (s : string) : ~ space_at_start (trim_start s).
Proof.
  apply not_space_at_start, trim_with_clean; [|done].
  intros e He. by apply white_space_table.
Qed.

Lemma trim_start_id (s : string) : ~ space_at_start s -> trim_start s = s.
Proof. intros H. by apply trim_with_id, not_space_at_start. Qed.

Lemma trim_end_split (s : string) : exists post, blank post /\ s = trim_end s +:+ post.
Proof.
  destruct (trim_with_split (map String.rev white_space) (String.length s) (String.rev s))
    as (chars & Hall & Hs).
  exists (String.rev (String.concat "" chars)). split; [by apply blank_rev|].
  apply (f_equal String.rev) in Hs.
  by rewrite string_rev_involutive, string_rev_append in Hs.
Qed.

Lemma trim_end_clean (s : string) : ~ space_at_end (trim_end s).
Proof.
  apply not_space_at_end. unfold trim_end. rewrite string_rev_involutive.
  apply trim_with_clean; [|by rewrite length_string_rev].
  intros e He. by apply white_space_rev_table.
Qed.

Lemma trim_end_id (s : string) : ~ space_at_end s -> trim_end s = s.
Proof.
  intros H. unfold trim_end.
  rewrite trim_with_id by by apply not_space_at_end. apply string_rev_involutive.
Qed.

(** What begins a string begins every string it begins. *)
Lemma space_at_start_append (s t : string) : space_at_start s -> space_at_start (s +:+ t).
Proof.
  intros (c & rest & Hc & ->). exists c, (rest +:+ t). by rewrite append_assoc.
Qed.

(** trim takes a run of white space off each end, and leaves none at
    either end. *)
Lemma trim_split (s : string) :
  exists pre post, blank pre /\ blank post /\ s = pre +:+ trim s +:+ post.
Proof.
  destruct (trim_start_split s) as (pre & Hpre & Hs).
  destruct (trim_end_split (trim_start s)) as (post & Hpost & Ht).
  exists pre, post. split_and!; [done|done|]. unfold trim. by rewrite <- Ht.
Qed.

Lemma trim_clean (s : string) : ~ space_at_start (trim s) /\ ~ space_at_end (trim s).
Proof.
  split; [|apply trim_end_clean].
  intros H. destruct (trim_end_split (trim_start s)) as (post & _ & Ht).
  apply (trim_start_clean s). rewrite Ht. by apply space_at_start_append.
Qed.

Lemma trim_id (s : string) : ~ space_at_start s -> ~ space_at_end s -> trim s = s.
Proof. intros H1 H2. unfold trim. rewrite (trim_start_id s H1). by apply trim_end_id. Qed.

Lemma trim_idempotent (s : string) : trim (trim s) = trim s.
Proof. destruct (trim_clean s). by apply trim_id. Qed.

Lemma has_separator_trim (s : string) : has_separator (trim s) = has_separator s.
Proof.
  destruct (trim_split s) as (pre & post & Hpre & Hpost & Hs).
  rewrite Hs at 2. rewrite !has_separator_append.
  by rewrite (blank_no_separator pre Hpre), (blank_no_separator post Hpost), orb_false_r.
Qed.

Lemma trim_blank (s : string) : blank s -> trim s = "".
Proof.
  intros (chars & Hall & ->). unfold trim.
  assert (trim_start (String.concat "" chars) = "") as ->; [|done].
  assert (forall e, e ∈ white_space -> e <> "") as Hne
    by (intros e He; by apply white_space_table).
  pose proof (trim_with_chars white_space Hne (proj2 white_space_table)
                (String.length (String.concat "" chars)) chars "" Hall
                (strip_any_empty white_space Hne)) as H.
  rewrite append_nil_r in H. by apply H.
Qed.

(** In UTF-8 no character begins inside another: a white space
    character starts with a byte that is no continuation byte, and goes
    on with continuation bytes only. *)
Lemma white_space_bytes (e : string) :
  e ∈ white_space ->
  exists c t, e = String c t /\ continuation_byte c = false /\
    forall d, d ∈ list_ascii_of_string t -> continuation_byte d = true.
Proof.
  assert (forallb (fun e => match e with
                            | String c t => negb (continuation_byte c)
                                            && forallb continuation_byte (list_ascii_of_string t)
                            | EmptyString => false
                            end) white_space = true) as H by by vm_compute.
  rewrite forallb_forall in H. intros He. apply list_elem_of_In, H in He.
  destruct e as [|c t]; [done|]. apply andb_prop in He as [Hc Ht].
  exists c, t. split_and!; [done|by apply negb_true_iff|].
  rewrite forallb_forall in Ht. intros d Hd. by apply Ht, list_elem_of_In.
Qed.

Lemma append_eq_cases (a b c d : string) :
  a +:+ b = c +:+ d ->
  (exists k, a = c +:+ k) \/ (exists k, k <> "" /\ c = a +:+ k /\ b = k +:+ d).
Proof.
  revert c. induction a as [|x a IH]; intros c H.
  - destruct c as [|y c]; [left; by exists ""|].
    right. exists (String y c). by split_and!.
  - destruct c as [|y c]; [left; by exists (String x a)|].
    change (String x (a +:+ b) = String y (c +:+ d)) in H. injection H as -> H.
    destruct (IH c H) as [[k ->]|(k & Hk & -> & ->)].
    + left. by exists k.
    + right. by exists k.
Qed.

(** White space after a name does not make the name begin with white
    space. *)
Lemma clean_start_append (n post : string) :
  n <> "" -> ~ space_at_start n -> blank post -> ~ space_at_start (n +:+ post).
Proof.
  intros Hn Hclean (chars & Hall & ->) (e & r & He & Heq).
  destruct (append_eq_cases _ _ _ _ Heq) as [[k ->]|(k & Hk & -> & Hpost)].
  { apply Hclean. by exists e, k. }
  destruct (white_space_bytes _ He) as (c & t & Hct & _ & Hcont).
  destruct n as [|x n]; [done|]. injection Hct as -> <-.
  destruct k as [|y k]; [done|].
  assert (continuation_byte y = true) as Hy.
  { apply Hcont. clear. induction n as [|z n IH]; [by left|by right]. }
  destruct Hall as [|e' chars He' _]; [discriminate Hpost|].
  rewrite concat_cons in Hpost.
  destruct (white_space_bytes _ He') as (c' & t' & -> & Hc' & _).
  injection Hpost as -> _. congruence.
Qed.

(** trim gives back a name that has white space around it and none at
    its own ends. *)
Lemma trim_core (pre n post : string) :
  blank pre -> blank post -> n <> "" -> ~ space_at_start n -> ~ space_at_end n ->
  trim (pre +:+ n +:+ post) = n.
Proof.
  intros (chars & Hall & ->) Hpost Hn Hs He.
  assert (forall e, e ∈ white_space -> e <> "") as Hne
    by (intros e Hin; by apply white_space_table).
  assert (forall e, e ∈ map String.rev white_space -> e <> "") as Hne'
    by (intros e Hin; by apply white_space_rev_table).
  unfold trim.
  assert (trim_start (String.concat "" chars +:+ n +:+ post) = n +:+ post) as ->.
  { apply (trim_with_chars white_space Hne (proj2 white_space_table)); [done| |done].
    by apply not_space_at_start, clean_start_append. }
  destruct Hpost as (chars' & Hall' & ->). unfold trim_end.
  rewrite string_rev_append, string_rev_concat.
  rewrite (trim_with_chars _ Hne' (proj2 white_space_rev_table)).
  - apply string_rev_involutive.
  - apply Forall_forall. intros e (e' & -> & Hin)%list_elem_of_fmap.
    apply list_elem_of_fmap_2. apply list_elem_of_In, in_rev, list_elem_of_In in Hin.
    rewrite Forall_forall in Hall'. by apply Hall'.
  - by apply not_space_at_end.
  - rewrite <- string_rev_concat, <- string_rev_append, length_string_rev. done.
Qed.
(** ** Name validation and the scaffold target (C9) *)

Lemma invalid_name_false (n : string) :
  n <> "" -> has_separator n = false -> invalid_name (Some n) = false.
Proof.
  intros Hn Hs. simpl. rewrite Hs, orb_false_r.
  by apply String.eqb_neq.
Qed.

(** C9: every payload name that is a non-empty string without slash and
    backslash and without white space at its ends, with any white space
    around it, passes the validation of both routes and is handed on,
    trimmed, with its operation; the name ".." is such a name, and its
    scaffold target is the parent directory of the output root, which
    lies outside the output root. *)
Theorem C9_name_validation (E : env) (pre n post : string) (view server : option string) :
  (blank pre -> blank post ->
   n <> "" -> has_separator n = false -> ~ space_at_start n -> ~ space_at_end n ->
   fetch_route (Request "POST" "/create/template" (Some (pre +:+ n +:+ post)) view server)
     = Enqueue n (Create n) /\
   fetch_route (Request "POST" "/update/template" (Some (pre +:+ n +:+ post)) view server)
     = Enqueue n (Update n view server)) /\
  fetch_route (Request "POST" "/create/template" (Some "..") view server)
    = Enqueue ".." (Create "..") /\
  create_target_dir E ".." = path_join (env_cwd E) [".."] /\
  OUTPUT_DIR E = create_target_dir E ".." ++ ["components"] /\
  ~ OUTPUT_DIR E `prefix_of` create_target_dir E "..".
Proof.
  assert (create_target_dir E ".." = path_join (env_cwd E) [".."]) as Hdir.
  { unfold create_target_dir. rewrite output_dir_components.
    unfold path_join. simpl. rewrite rev_app_distr. simpl. by rewrite rev_involutive. }
  split; [|split; [|split; [|split]]].
  - intros Hpre Hpost Hn Hs Hstart Hend. unfold fetch_route. cbn -[invalid_name trim].
    rewrite (trim_core pre n post) by done.
    rewrite (invalid_name_false _ Hn Hs). done.
  - reflexivity.
  - exact Hdir.
  - rewrite Hdir. apply output_dir_components.
  - rewrite Hdir, output_dir_components. intros [k Hk].
    apply (f_equal length) in Hk. rewrite !length_app in Hk. simpl in Hk. lia.
Qed.

Lemma C9_name_validation_witness :
  fetch_route (Request "POST" "/create/template" (Some ("  " +:+ ".." +:+ utf8 160)) None None)
    = Enqueue ".." (Create "..") /\
  fetch_route (Request "POST" "/update/template" (Some ("  " +:+ ".." +:+ utf8 160)) None None)
    = Enqueue ".." (Update ".." None None).
Proof.
  apply (proj1 (C9_name_validation env_plain "  " ".." (utf8 160) None None)).
  - exists [" "; " "]. split; [|reflexivity].
    repeat constructor; by apply (list_elem_of_lookup_2 _ 5).
  - exists [utf8 160]. split; [|reflexivity].
    repeat constructor; by apply (list_elem_of_lookup_2 _ 6).
  - discriminate.
  - reflexivity.
  - by apply not_space_at_start.
  - by apply not_space_at_end.
Defined.


(** ** How the primitive moves change the views of a state *)

Lemma state_eta (s : state) :
  s = State (store s) (locks s) (jobs s) (acts s) (log s).
Proof. by destruct s. Qed.

Lemma settle_cases (p : nat) (o : outcome) (s : state) :
  (exists rs, store s !! p = Some (Pending rs) /\
     settle p o s = State (<[p := Settled o]> (store s)) (locks s)
                      (jobs s ++ map (fun r => (r, o)) rs) (acts s) (log s))
  \/ (~ pending s p /\ settle p o s = s).
Proof.
  unfold settle, pending. destruct (store s !! p) as [[rs|o']|] eqn:H.
  - left. by exists rs.
  - right. split; [intros [rs Hrs]; congruence | done].
  - right. split; [intros [rs Hrs]; congruence | done].
Qed.

Lemma settle_frame (p : nat) (o : outcome) (s : state) :
  locks (settle p o s) = locks s /\ acts (settle p o s) = acts s /\
  log (settle p o s) = log s /\ length (store (settle p o s)) = length (store s).
Proof.
  destruct (settle_cases p o s) as [(rs & _ & ->)|[_ ->]]; simpl; [|done].
  by rewrite length_insert.
Qed.

Lemma settled_settle (p : nat) (o : outcome) (s : state) (p' : nat) (o' : outcome) :
  settled (settle p o s) p' o' <-> settled s p' o' \/ (pending s p /\ p' = p /\ o' = o).
Proof.
  unfold settled.
  destruct (settle_cases p o s) as [(rs & Hp & ->)|[Hn ->]]; simpl.
  - assert (p < length (store s)) by by eapply lookup_lt_Some.
    destruct (decide (p' = p)) as [->|Hne].
    + rewrite list_lookup_insert_eq by done. split.
      * intros [= ->]. right. unfold pending. eauto.
      * intros [?|(_ & _ & ->)]; [congruence|done].
    + rewrite list_lookup_insert_ne by done. naive_solver.
  - naive_solver.
Qed.

Lemma pending_settle (p : nat) (o : outcome) (s : state) (p' : nat) :
  pending (settle p o s) p' <-> pending s p' /\ p' <> p.
Proof.
  unfold pending.
  destruct (settle_cases p o s) as [(rs & Hp & ->)|[Hn ->]]; simpl.
  - assert (p < length (store s)) by by eapply lookup_lt_Some.
    destruct (decide (p' = p)) as [->|Hne].
    + rewrite list_lookup_insert_eq by done. naive_solver.
    + rewrite list_lookup_insert_ne by done. naive_solver.
  - unfold pending in Hn. naive_solver.
Qed.

Lemma reg_settle (p : nat) (o : outcome) (s : state) (p' : nat) (r : reaction) :
  reg (settle p o s) p' r <-> reg s p' r /\ p' <> p.
Proof.
  unfold reg.
  destruct (settle_cases p o s) as [(rs & Hp & ->)|[Hn ->]]; simpl.
  - assert (p < length (store s)) by by eapply lookup_lt_Some.
    destruct (decide (p' = p)) as [->|Hne].
    + rewrite list_lookup_insert_eq by done. naive_solver.
    + rewrite list_lookup_insert_ne by done. naive_solver.
  - unfold pending in Hn. naive_solver.
Qed.

Lemma queued_settle (p : nat) (o : outcome) (s : state) (r : reaction) (o' : outcome) :
  queued (settle p o s) r o' <-> queued s r o' \/ (reg s p r /\ o' = o).
Proof.
  unfold queued, reg.
  destruct (settle_cases p o s) as [(rs & Hp & ->)|[Hn ->]]; simpl.
  - rewrite elem_of_app, list_elem_of_fmap. split.
    + intros [?|(r' & [= -> ->] & Hr)]; [by left|]. right. eauto.
    + intros [?|((rs' & Hrs' & Hr) & ->)]; [by left|]. right.
      exists r. split; [done|]. congruence.
  - unfold pending in Hn. naive_solver.
Qed.

Lemma subscribe_cases (p : nat) (r : reaction) (s : state) :
  (exists rs, store s !! p = Some (Pending rs) /\
     subscribe p r s = State (<[p := Pending (rs ++ [r])]> (store s)) (locks s)
                         (jobs s) (acts s) (log s))
  \/ (exists o, store s !! p = Some (Settled o) /\
        subscribe p r s = State (store s) (locks s) (jobs s ++ [(r, o)]) (acts s) (log s))
  \/ (store s !! p = None /\ subscribe p r s = s).
Proof.
  unfold subscribe. destruct (store s !! p) as [[rs|o']|] eqn:H; eauto.
Qed.

Lemma subscribe_frame (p : nat) (r : reaction) (s : state) :
  locks (subscribe p r s) = locks s /\ acts (subscribe p r s) = acts s /\
  log (subscribe p r s) = log s /\ length (store (subscribe p r s)) = length (store s).
Proof.
  destruct (subscribe_cases p r s) as [(rs & _ & ->)|[(o & _ & ->)|[_ ->]]]; simpl; try done.
  by rewrite length_insert.
Qed.

Lemma settled_subscribe (p : nat) (r : reaction) (s : state) (p' : nat) (o : outcome) :
  settled (subscribe p r s) p' o <-> settled s p' o.
Proof.
  unfold settled.
  destruct (subscribe_cases p r s) as [(rs & Hp & ->)|[(o' & _ & ->)|[_ ->]]]; simpl; try done.
  assert (p < length (store s)) by by eapply lookup_lt_Some.
  destruct (decide (p' = p)) as [->|Hne].
  - rewrite list_lookup_insert_eq by done. naive_solver.
  - by rewrite list_lookup_insert_ne.
Qed.

Lemma pending_subscribe (p : nat) (r : reaction) (s : state) (p' : nat) :
  pending (subscribe p r s) p' <-> pending s p'.
Proof.
  unfold pending.
  destruct (subscribe_cases p r s) as [(rs & Hp & ->)|[(o' & _ & ->)|[_ ->]]]; simpl; try done.
  assert (p < length (store s)) by by eapply lookup_lt_Some.
  destruct (decide (p' = p)) as [->|Hne].
  - rewrite list_lookup_insert_eq by done. naive_solver.
  - by rewrite list_lookup_insert_ne.
Qed.

Lemma reg_subscribe (p : nat) (r : reaction) (s : state) (p' : nat) (r' : reaction) :
  reg (subscribe p r s) p' r' <-> reg s p' r' \/ (pending s p /\ p' = p /\ r' = r).
Proof.
  unfold reg, pending.
  destruct (subscribe_cases p r s) as [(rs & Hp & ->)|[(o' & Hp & ->)|[Hp ->]]]; simpl.
  - assert (p < length (store s)) by by eapply lookup_lt_Some.
    destruct (decide (p' = p)) as [->|Hne].
    + rewrite list_lookup_insert_eq by done. split.
      * intros (rs' & [= <-] & Hr). apply elem_of_app in Hr as [Hr|Hr].
        -- left. eauto.
        -- apply list_elem_of_singleton in Hr. right. eauto.
      * intros [(rs' & Hrs' & Hr)|(_ & _ & ->)]; eexists; (split; [done|]).
        -- apply elem_of_app. left. congruence.
        -- apply elem_of_app. right. by apply list_elem_of_singleton.
    + rewrite list_lookup_insert_ne by done. naive_solver.
  - naive_solver.
  - naive_solver.
Qed.

Lemma queued_subscribe (p : nat) (r : reaction) (s : state) (r' : reaction) (o : outcome) :
  queued (subscribe p r s) r' o <-> queued s r' o \/ (settled s p o /\ r' = r).
Proof.
  unfold queued, settled.
  destruct (subscribe_cases p r s) as [(rs & Hp & ->)|[(o' & Hp & ->)|[Hp ->]]]; simpl.
  - naive_solver.
  - rewrite elem_of_app, list_elem_of_singleton. naive_solver.
  - naive_solver.
Qed.

Lemma alloc_fst (x : promise) (s : state) : (alloc x s).1 = length (store s).
Proof. done. Qed.

Lemma alloc_frame (x : promise) (s : state) :
  locks (alloc x s).2 = locks s /\ acts (alloc x s).2 = acts s /\
  log (alloc x s).2 = log s /\ jobs (alloc x s).2 = jobs s /\
  length (store (alloc x s).2) = S (length (store s)).
Proof. simpl. rewrite length_app. simpl. repeat split; lia. Qed.

Lemma alloc_lookup (x : promise) (s : state) (p : nat) (y : promise) :
  store (alloc x s).2 !! p = Some y <->
  store s !! p = Some y \/ (p = length (store s) /\ y = x).
Proof.
  simpl. rewrite lookup_app_Some, list_lookup_singleton_Some. split.
  - intros [?|(Hle & Hp & ->)]; [by left|]. right. split; [lia|done].
  - intros [?|[-> ->]]; [by left|]. right. split; [lia|]. split; [lia|done].
Qed.

Lemma settled_alloc (x : promise) (s : state) (p : nat) (o : outcome) :
  settled (alloc x s).2 p o <-> settled s p o \/ (p = length (store s) /\ x = Settled o).
Proof. unfold settled. rewrite alloc_lookup. naive_solver. Qed.

Lemma pending_alloc (x : promise) (s : state) (p : nat) :
  pending (alloc x s).2 p <->
  pending s p \/ (p = length (store s) /\ exists rs, x = Pending rs).
Proof. unfold pending. setoid_rewrite alloc_lookup. naive_solver. Qed.

Lemma reg_alloc_empty (s : state) (p : nat) (r : reaction) :
  reg (alloc (Pending []) s).2 p r <-> reg s p r.
Proof.
  unfold reg. setoid_rewrite alloc_lookup. split.
  - intros (rs & [H|[_ [= ->]]] & Hr); [eauto|]. by apply elem_of_nil in Hr.
  - intros (rs & H & Hr). eauto.
Qed.

Lemma reg_alloc_settled (o : outcome) (s : state) (p : nat) (r : reaction) :
  reg (alloc (Settled o) s).2 p r <-> reg s p r.
Proof.
  unfold reg. setoid_rewrite alloc_lookup. naive_solver.
Qed.

Lemma queued_alloc (x : promise) (s : state) (r : reaction) (o : outcome) :
  queued (alloc x s).2 r o <-> queued s r o.
Proof. done. Qed.

Lemma cleanup_lookup (name : string) (next : nat) (s : state) (name' : string) :
  locks (cleanup name next s) !! name' =
  if decide (name' = name /\ locks s !! name = Some next) then None else locks s !! name'.
Proof.
  unfold cleanup. case_decide as Hl; simpl.
  - case_decide as H'.
    + destruct H' as [-> _]. apply lookup_delete_eq.
    + rewrite lookup_delete_ne; [done|]. intros ->. tauto.
  - rewrite decide_False; [done | tauto].
Qed.

Lemma cleanup_frame (name : string) (next : nat) (s : state) :
  store (cleanup name next s) = store s /\ jobs (cleanup name next s) = jobs s /\
  acts (cleanup name next s) = acts s /\ log (cleanup name next s) = log s.
Proof. unfold cleanup. by case_decide. Qed.


Lemma queued_push (j : reaction * outcome) (s : state) (r : reaction) (o : outcome) :
  queued (push_job j s) r o <-> queued s r o \/ j = (r, o).
Proof.
  unfold queued, push_job. simpl. rewrite elem_of_app, list_elem_of_singleton. naive_solver.
Qed.

Lemma queued_pop (s : state) (r : reaction) (o : outcome) :
  queued (pop_job s) r o -> queued s r o.
Proof.
  unfold queued, pop_job. simpl. destruct (jobs s); [done|]. rewrite elem_of_cons. by right.
Qed.

Lemma queued_pop_inv (s : state) (j : reaction * outcome) (rest : list (reaction * outcome))
    (r : reaction) (o : outcome) :
  jobs s = j :: rest -> queued s r o -> j = (r, o) \/ queued (pop_job s) r o.
Proof.
  unfold queued, pop_job. simpl. intros ->. rewrite elem_of_cons. naive_solver.
Qed.

Lemma armed_mono_reg (s s' : state) (r : reaction) :
  (forall o, queued s r o -> queued s' r o) ->
  (forall p, reg s p r -> reg s' p r \/ exists o, queued s' r o) ->
  armed s r -> armed s' r.
Proof.
  intros Hq Hr [[o Ho]|[p Hp]].
  - left. eauto.
  - destruct (Hr p Hp) as [?|[o Ho]]; [right|left]; eauto.
Qed.

Lemma armed_settle (p : nat) (o : outcome) (s : state) (r : reaction) :
  armed s r -> armed (settle p o s) r.
Proof.
  apply armed_mono_reg.
  - intros o' H. apply queued_settle. by left.
  - intros p' H. destruct (decide (p' = p)) as [->|Hne].
    + right. exists o. apply queued_settle. by right.
    + left. by apply reg_settle.
Qed.

Lemma armed_subscribe (p : nat) (r0 : reaction) (s : state) (r : reaction) :
  armed s r -> armed (subscribe p r0 s) r.
Proof.
  apply armed_mono_reg.
  - intros o' H. apply queued_subscribe. by left.
  - intros p' H. left. apply reg_subscribe. by left.
Qed.

Lemma armed_subscribe_new (p : nat) (r : reaction) (s : state) :
  p < length (store s) -> armed (subscribe p r s) r.
Proof.
  intros Hp. apply lookup_lt_is_Some_2 in Hp as [[rs|o] Hx].
  - right. exists p. apply reg_subscribe. right. unfold pending. eauto.
  - left. exists o. apply queued_subscribe. by right.
Qed.

Lemma armed_alloc (x : promise) (s : state) (r : reaction) :
  armed s r -> armed (alloc x s).2 r.
Proof.
  intros [[o Ho]|[p (rs & Hp & Hr)]]; [by left; exists o|].
  right. exists p, rs. split; [|done]. apply alloc_lookup. by left.
Qed.

Lemma armed_push (j : reaction * outcome) (s : state) (r : reaction) :
  armed s r -> armed (push_job j s) r.
Proof.
  intros [[o Ho]|[p Hp]]; [left; exists o; apply queued_push; by left|].
  right. by exists p.
Qed.

(** ** Each step as a sequence of primitive moves *)

Lemma with_head_settle (j : reaction * outcome) (p : nat) (o : outcome) (s : state) :
  settle p o (with_head j s) = with_head j (settle p o s).
Proof. unfold settle, with_head. simpl. by destruct (store s !! p) as [[]|]. Qed.

Lemma with_head_subscribe (j : reaction * outcome) (p : nat) (r : reaction) (s : state) :
  subscribe p r (with_head j s) = with_head j (subscribe p r s).
Proof. unfold subscribe, with_head. simpl. by destruct (store s !! p) as [[]|]. Qed.

Lemma with_head_cleanup (j : reaction * outcome) (name : string) (next : nat) (s : state) :
  cleanup name next (with_head j s) = with_head j (cleanup name next s).
Proof. unfold cleanup, with_head. simpl. by case_decide. Qed.

Lemma with_head_call_task (j : reaction * outcome) (name : string) (t : task) (a : nat)
    (s : state) :
  call_task name t a (with_head j s) = with_head j (call_task name t a s).
Proof.
  unfold call_task. destruct (task_awaits t) as [|k].
  - change (emit (Fin name a) (alloc (Pending []) (emit (Start name a) (with_head j s))).2)
      with (with_head j (emit (Fin name a) (alloc (Pending []) (emit (Start name a) s)).2)).
    by rewrite with_head_settle, with_head_subscribe.
  - by rewrite <- (with_head_subscribe j).
Qed.

Lemma with_head_run_job (j j' : reaction * outcome) (s : state) :
  run_job j' (with_head j s) = with_head j (run_job j' s).
Proof.
  destruct j' as [r o].
  destruct r as [name t a|h tgt|name next tgt|tgt]; [|destruct h|..]; destruct o; simpl;
    rewrite ?with_head_call_task, ?with_head_cleanup;
    first [ done
          | apply with_head_settle
          | apply (with_head_settle j _ _ (emit _ s)) ].
Qed.

Lemma tick_run_pop (s : state) (j : reaction * outcome) (rest : list (reaction * outcome)) :
  jobs s = j :: rest -> tick s = pop_job (run_job j s).
Proof.
  intros Hj. unfold tick. rewrite Hj.
  destruct s as [st lk jb ac lg]. simpl in *. subst jb.
  change (State st lk (j :: rest) ac lg) with (with_head j (State st lk rest ac lg)).
  rewrite with_head_run_job. by destruct (run_job j _).
Qed.

Lemma tick_idle (s : state) : jobs s = [] -> tick s = s.
Proof. intros H. unfold tick. by rewrite H. Qed.

Lemma set_acts_settle (l : list activation) (p : nat) (o : outcome) (s : state) :
  settle p o (set_acts l s) = set_acts l (settle p o s).
Proof. unfold settle, set_acts. simpl. by destruct (store s !! p) as [[]|]. Qed.

Lemma io_done_cases (i : nat) (s : state) :
  match acts s !! i with
  | None => io_done i s = s
  | Some act =>
      match act_left act with
      | S k =>
          io_done i s =
          set_acts (<[i := Activation (act_promise act) (act_name act) (act_op act) k
                                      (act_result act)]> (acts s)) s
      | O =>
          io_done i s =
          set_acts (delete i (acts s))
            (settle (act_promise act) (act_result act)
               (emit (Fin (act_name act) (act_op act)) s))
      end
  end.
Proof.
  unfold io_done. destruct (acts s !! i) as [act|]; [|done].
  destruct (act_left act); [|done].
  rewrite <- set_acts_settle. done.
Qed.

Lemma call_task_cases (name : string) (t : task) (a : nat) (s : state) :
  let s2 := (alloc (Pending []) (emit (Start name a) s)).2 in
  let q := length (store s) in
  call_task name t a s =
  subscribe q (Adopt a)
    (match task_awaits t with
     | O => settle q (task_result t) (emit (Fin name a) s2)
     | S k => set_acts (acts s2 ++ [Activation q name a k (task_result t)]) s2
     end).
Proof. done. Qed.

(** ** Well-formedness is kept by every primitive move *)

Lemma wf_reaction_mono (n m : nat) (r : reaction) :
  n <= m -> wf_reaction n r -> wf_reaction m r.
Proof.
  intros Hle [Ht Hn]. split; [lia|].
  destruct r as [| [|] | |]; try done; lia.
Qed.

Lemma event_bound_mono (n m : nat) (e : event) :
  n <= m -> event_bound n e -> event_bound m e.
Proof. intros Hle. destruct e; simpl; lia. Qed.

Lemma wf_init : wf init.
Proof.
  split; simpl.
  - intros p r (rs & H & _). simpl in H. by rewrite lookup_nil in H.
  - intros r o H. by apply elem_of_nil in H.
  - intros name c H. by rewrite lookup_empty in H.
  - intros act H. by apply elem_of_nil in H.
  - intros e H. by apply elem_of_nil in H.
Qed.

Lemma wf_emit (e : event) (s : state) :
  wf s -> event_bound (length (store s)) e -> wf (emit e s).
Proof.
  intros [H1 H2 H3 H4 H5] He. split; simpl; try done.
  intros e' [H|H%list_elem_of_singleton]%elem_of_app; [by apply H5 | by subst].
Qed.

Lemma wf_alloc (x : promise) (s : state) :
  wf s -> x = Pending [] \/ (exists o, x = Settled o) -> wf (alloc x s).2.
Proof.
  intros [H1 H2 H3 H4 H5] Hx.
  destruct (alloc_frame x s) as (Hl & Ha & Hg & Hj & Hn).
  split; rewrite Hn.
  - intros p r Hr. eapply wf_reaction_mono; [|apply (H1 p)]; [lia|].
    destruct Hx as [->|[o ->]]; [by apply reg_alloc_empty | by apply (reg_alloc_settled o)].
  - intros r o Hq. eapply wf_reaction_mono; [|by apply (H2 r o)]. lia.
  - rewrite Hl. intros name c Hc. specialize (H3 _ _ Hc). lia.
  - rewrite Ha. intros act Hact. specialize (H4 _ Hact). lia.
  - rewrite Hg. intros e He. eapply event_bound_mono; [|by apply H5]. lia.
Qed.

Lemma wf_subscribe (p : nat) (r : reaction) (s : state) :
  wf s -> wf_reaction (length (store s)) r -> wf (subscribe p r s).
Proof.
  intros [H1 H2 H3 H4 H5] Hr.
  destruct (subscribe_frame p r s) as (Hl & Ha & Hg & Hn).
  split; rewrite Hn, ?Hl, ?Ha, ?Hg; try done.
  - intros p' r' [H|(_ & _ & ->)]%reg_subscribe; [by apply (H1 p')|done].
  - intros r' o [H|[_ ->]]%queued_subscribe; [by apply (H2 r' o)|done].
Qed.

Lemma wf_settle (p : nat) (o : outcome) (s : state) :
  wf s -> wf (settle p o s).
Proof.
  intros [H1 H2 H3 H4 H5].
  destruct (settle_frame p o s) as (Hl & Ha & Hg & Hn).
  split; rewrite Hn, ?Hl, ?Ha, ?Hg; try done.
  - intros p' r' [H _]%reg_settle. by apply (H1 p').
  - intros r' o' [H|[H _]]%queued_settle; [by apply (H2 r' o') | by apply (H1 p)].
Qed.

Lemma wf_cleanup (name : string) (next : nat) (s : state) :
  wf s -> wf (cleanup name next s).
Proof.
  intros [H1 H2 H3 H4 H5]. unfold cleanup. case_decide; [|done].
  split; simpl; try done.
  intros name' c Hc. apply (H3 name').
  destruct (decide (name' = name)) as [->|Hne].
  - by rewrite lookup_delete_eq in Hc.
  - by rewrite lookup_delete_ne in Hc.
Qed.

Lemma wf_set_lock (name : string) (c : nat) (s : state) :
  wf s -> c < length (store s) -> wf (set_lock name c s).
Proof.
  intros [H1 H2 H3 H4 H5] Hc. split; simpl; try done.
  intros name' c' Hc'. destruct (decide (name' = name)) as [->|Hne].
  - rewrite lookup_insert_eq in Hc'. by simplify_eq.
  - rewrite lookup_insert_ne in Hc' by done. by apply (H3 name').
Qed.

Lemma wf_push_job (r : reaction) (o : outcome) (s : state) :
  wf s -> wf_reaction (length (store s)) r -> wf (push_job (r, o) s).
Proof.
  intros [H1 H2 H3 H4 H5] Hr. split; simpl; try done.
  intros r' o' [H|[= -> ->]]%queued_push; [by apply (H2 r' o')|done].
Qed.

Lemma wf_pop_job (s : state) : wf s -> wf (pop_job s).
Proof.
  intros [H1 H2 H3 H4 H5]. split; simpl; try done.
  intros r o H%queued_pop. by apply (H2 r o).
Qed.

Lemma wf_set_acts (l : list activation) (s : state) :
  wf s ->
  (forall act, act ∈ l ->
     act_promise act < length (store s) /\ act_op act < length (store s)) ->
  wf (set_acts l s).
Proof. intros [H1 H2 H3 H4 H5] Hl. by split. Qed.

(** ** The promise an operation waits on decides between start and skip *)

Lemma src_init (G : ghost) : src_inv G init.
Proof.
  split; simpl.
  - intros p name t a (rs & H & _). simpl in H. by rewrite lookup_nil in H.
  - intros name t a o H. by apply elem_of_nil in H.
  - intros name a H. by apply elem_of_nil in H.
  - intros name a H. by apply elem_of_nil in H.
Qed.

Lemma src_emit (G : ghost) (e : event) (s : state) :
  src_inv G s ->
  match e with
  | Start _ a => exists val, settled s (src G a) (Fulfilled val)
  | Skip _ a => exists e0, settled s (src G a) (Rejected e0)
  | _ => True
  end ->
  src_inv G (emit e s).
Proof.
  intros [H1 H2 H3 H4] He. split; simpl; try done.
  - intros name a [H|H%list_elem_of_singleton]%elem_of_app; [by eapply H3 | by subst].
  - intros name a [H|H%list_elem_of_singleton]%elem_of_app; [by eapply H4 | by subst].
Qed.

Lemma src_alloc (G : ghost) (x : promise) (s : state) :
  src_inv G s -> x = Pending [] \/ (exists o, x = Settled o) -> src_inv G (alloc x s).2.
Proof.
  intros [H1 H2 H3 H4] Hx.
  destruct (alloc_frame x s) as (Hl & Ha & Hg & Hj & Hn).
  split; rewrite ?Hg.
  - intros p name t a Hr. apply (H1 p name t).
    destruct Hx as [->|[o ->]]; [by apply reg_alloc_empty | by apply (reg_alloc_settled o)].
  - intros name t a o Hq. apply settled_alloc. left. by eapply H2.
  - intros name a Hs. destruct (H3 _ _ Hs) as [val Hv]. exists val.
    apply settled_alloc. by left.
  - intros name a Hs. destruct (H4 _ _ Hs) as [e Hv]. exists e.
    apply settled_alloc. by left.
Qed.

Lemma src_subscribe (G : ghost) (p : nat) (r : reaction) (s : state) :
  src_inv G s ->
  (forall name t a, r = ThenTask name t a -> src G a = p) ->
  src_inv G (subscribe p r s).
Proof.
  intros [H1 H2 H3 H4] Hr.
  destruct (subscribe_frame p r s) as (Hl & Ha & Hg & Hn).
  split; rewrite ?Hg.
  - intros p' name t a [H|(_ & -> & <-)]%reg_subscribe; [by eapply H1 | by eapply Hr].
  - intros name t a o [H|[Hs <-]]%queued_subscribe; apply settled_subscribe.
    + by eapply H2.
    + by rewrite (Hr name t a).
  - intros name a Hs. destruct (H3 _ _ Hs) as [val Hv]. exists val.
    by apply settled_subscribe.
  - intros name a Hs. destruct (H4 _ _ Hs) as [e Hv]. exists e.
    by apply settled_subscribe.
Qed.

Lemma src_settle (G : ghost) (p : nat) (o : outcome) (s : state) :
  src_inv G s -> src_inv G (settle p o s).
Proof.
  intros [H1 H2 H3 H4].
  destruct (settle_frame p o s) as (Hl & Ha & Hg & Hn).
  split; rewrite ?Hg.
  - intros p' name t a [H _]%reg_settle. by eapply H1.
  - intros name t a o' [H|[H ->]]%queued_settle; apply settled_settle.
    + left. by eapply H2.
    + right. rewrite (H1 _ _ _ _ H). destruct H as (rs & H & _).
      split; [by exists rs | done].
  - intros name a Hs. destruct (H3 _ _ Hs) as [val Hv]. exists val.
    apply settled_settle. by left.
  - intros name a Hs. destruct (H4 _ _ Hs) as [e Hv]. exists e.
    apply settled_settle. by left.
Qed.

Lemma src_cleanup (G : ghost) (name : string) (next : nat) (s : state) :
  src_inv G s -> src_inv G (cleanup name next s).
Proof. intros H. unfold cleanup. case_decide; [|done]. by destruct H. Qed.

Lemma src_set_lock (G : ghost) (name : string) (c : nat) (s : state) :
  src_inv G s -> src_inv G (set_lock name c s).
Proof. intros H. by destruct H. Qed.

Lemma src_push_job (G : ghost) (r : reaction) (o : outcome) (s : state) :
  src_inv G s -> (forall name t a, r <> ThenTask name t a) -> src_inv G (push_job (r, o) s).
Proof.
  intros [H1 H2 H3 H4] Hr. split; try done.
  intros name t a o' [H|[= -> ->]]%queued_push; [by eapply H2 | by destruct (Hr name t a)].
Qed.

Lemma src_pop_job (G : ghost) (s : state) : src_inv G s -> src_inv G (pop_job s).
Proof.
  intros [H1 H2 H3 H4]. split; try done.
  intros name t a o H%queued_pop. by eapply H2.
Qed.

Lemma src_set_acts (G : ghost) (l : list activation) (s : state) :
  src_inv G s -> src_inv G (set_acts l s).
Proof. intros H. by destruct H. Qed.

(** The annotations may be changed at indices that are not allocated. *)
Lemma src_ghost (G G' : ghost) (s : state) :
  wf s -> src_inv G s ->
  (forall a, a < length (store s) -> src G' a = src G a) ->
  src_inv G' s.
Proof.
  intros [W1 W2 W3 W4 W5] [H1 H2 H3 H4] Hagree. split.
  - intros p name t a Hr. rewrite Hagree; [by eapply H1|]. by destruct (W1 _ _ Hr).
  - intros name t a o Hq. rewrite Hagree; [by eapply H2|]. by destruct (W2 _ _ Hq).
  - intros name a Hs. rewrite Hagree; [by eapply H3|]. apply (W5 _ Hs).
  - intros name a Hs. rewrite Hagree; [by eapply H4|]. apply (W5 _ Hs).
Qed.

(** ** Reading the log: monotonicity *)

Lemma elem_of_prefix {A} (l1 l2 : list A) (x : A) :
  l1 `prefix_of` l2 -> x ∈ l1 -> x ∈ l2.
Proof. intros [k ->] H. apply elem_of_app. by left. Qed.

Lemma prefix_snoc_l {A} (l1 l2 : list A) (x : A) :
  l1 ++ [x] `prefix_of` l2 -> l1 `prefix_of` l2.
Proof. apply prefix_app_l. Qed.

Lemma done_mono (tr tr' : list event) (name : string) (x : nat) :
  tr `prefix_of` tr' -> done tr name x -> done tr' name x.
Proof. intros Hp [H|H]; [left|right]; by eapply elem_of_prefix. Qed.

Lemma op_done_done (name : string) (a : nat) (o : outcome) (tr : list event) :
  op_done name a o tr -> done tr name a.
Proof. destruct o; [by left | by right]. Qed.

Lemma cause_mono (v : variant) (o : outcome) (P Q : nat -> task -> Prop) :
  (forall x tx, P x tx -> Q x tx) -> cause v o P -> cause v o Q.
Proof.
  intros HPQ. destruct o as [val|e]; [done|]. destruct v; simpl; try done.
  - intros (x & tx & HP & Hr). eauto.
  - intros (x & tx & HP & Hr). eauto.
Qed.

Lemma snoc_eq_app_cons {A} (l l1 l2 : list A) (e x : A) :
  l ++ [e] = l1 ++ x :: l2 ->
  (l2 = [] /\ l = l1 /\ e = x) \/ (exists l2', l2 = l2' ++ [e] /\ l = l1 ++ x :: l2').
Proof.
  intros H. destruct (decide (l2 = [])) as [->|Hne].
  - left. apply app_inj_tail in H as [-> ->]. done.
  - right. destruct (exists_last Hne) as (l2' & y & ->).
    rewrite app_comm_cons, app_assoc in H. apply app_inj_tail in H as [-> ->]. eauto.
Qed.

Lemma enq_before_snoc (L : list event) (e : event) (name : string) (x : nat) (tx : task)
    (y : nat) :
  enq_before (L ++ [e]) name x tx y <->
  enq_before L name x tx y \/
  (exists ty ny nx, e = Enq name y ty ny /\ Enq name x tx nx ∈ L).
Proof.
  split.
  - intros (l1 & l2 & nx & ty & ny & Heq & Hy).
    apply snoc_eq_app_cons in Heq as [(-> & _ & _)|(l2' & -> & ->)].
    + by apply elem_of_nil in Hy.
    + apply elem_of_app in Hy as [Hy|Hy%list_elem_of_singleton].
      * left. by exists l1, l2', nx, ty, ny.
      * right. exists ty, ny, nx. split; [done|].
        apply elem_of_app. right. by left.
  - intros [(l1 & l2 & nx & ty & ny & -> & Hy)|(ty & ny & nx & -> & Hx)].
    + exists l1, (l2 ++ [e]), nx, ty, ny. split; [by rewrite <- app_assoc|].
      apply elem_of_app. by left.
    + apply list_elem_of_split in Hx as (l1 & l2 & ->).
      exists l1, (l2 ++ [Enq name y ty ny]), nx, ty, ny.
      split; [by rewrite <- app_assoc|]. apply elem_of_app. right. by left.
Qed.

Lemma enq_before_elem (L : list event) (name : string) (x : nat) (tx : task) (y : nat) :
  enq_before L name x tx y ->
  (exists nx, Enq name x tx nx ∈ L) /\ (exists ty ny, Enq name y ty ny ∈ L).
Proof.
  intros (l1 & l2 & nx & ty & ny & -> & Hy). split.
  - exists nx. apply elem_of_app. right. by left.
  - exists ty, ny. apply elem_of_app. right. by right.
Qed.

(** ** The annotations are respected by every primitive move *)

Lemma rpre_mono (G : ghost) (r : reaction) (tr tr' : list event) (o : outcome) :
  (forall p tr tr' o, tr `prefix_of` tr' -> post G p tr o -> post G p tr' o) ->
  (forall a tr tr' o, tr `prefix_of` tr' -> pre G a tr o -> pre G a tr' o) ->
  tr `prefix_of` tr' -> rpre G r tr o -> rpre G r tr' o.
Proof.
  intros Hpost Hpre Hp. destruct r as [name t a|[|name next] tgt|name next tgt|tgt]; simpl.
  - intros [H1 H2]. split; [by eapply Hpre|].
    intros tr'' Hp' Hd. apply H2; [by etrans|done].
  - by apply Hpost.
  - intros [H1 H2]. split; by eapply Hpost.
  - intros [H1 [o' H2]]. split; [by eapply Hpost|]. exists o'. by eapply Hpost.
  - by apply Hpost.
Qed.

Lemma pl_init (v : variant) (G : ghost) :
  (forall p tr tr' o, tr `prefix_of` tr' -> post G p tr o -> post G p tr' o) ->
  (forall a tr tr' o, tr `prefix_of` tr' -> pre G a tr o -> pre G a tr' o) ->
  pl v G init.
Proof.
  intros Hpost Hpre. split; simpl.
  - exact Hpost.
  - exact Hpre.
  - intros p o H. unfold settled in H. simpl in H. by rewrite lookup_nil in H.
  - intros p r (rs & H & _). simpl in H. by rewrite lookup_nil in H.
  - intros r o H. by apply elem_of_nil in H.
  - intros act H. by apply elem_of_nil in H.
  - intros name c H. by rewrite lookup_empty in H.
  - intros name _ x tx nx H. by apply elem_of_nil in H.
  - intros name a t nx H. by apply elem_of_nil in H.
  - intros name a t nx H. by apply elem_of_nil in H.
  - intros l1 l2 name a H. by destruct l1.
  - intros name a H. by apply elem_of_nil in H.
Qed.

Lemma enq_snoc_other (L : list event) (e : event) (name : string) (x : nat) (tx : task)
    (nx : nat) :
  (forall y ty ny, e <> Enq name y ty ny) ->
  Enq name x tx nx ∈ L ++ [e] -> Enq name x tx nx ∈ L.
Proof.
  intros He [H|H%list_elem_of_singleton]%elem_of_app; [done|]. by destruct (He x tx nx).
Qed.

Lemma turn_snoc (v : variant) (L : list event) (e : event) (name : string) (a : nat)
    (tr : list event) (o : outcome) :
  (forall ty ny, e <> Enq name a ty ny) ->
  turn v L name a tr o -> turn v (L ++ [e]) name a tr o.
Proof.
  intros He [H1 H2]. split.
  - intros x tx [H|(ty & ny & nx & -> & _)]%enq_before_snoc; [by eapply H1|].
    by destruct (He ty ny).
  - eapply cause_mono; [|done]. intros x tx H. apply enq_before_snoc. by left.
Qed.

Lemma answer_snoc (v : variant) (L : list event) (e : event) (name : string) (a : nat)
    (t : task) (tr : list event) (o : outcome) :
  answer v L name a t tr o -> answer v (L ++ [e]) name a t tr o.
Proof.
  intros [H|(e0 & -> & Hs & x & tx & Hb & Hr)]; [by left|]. right.
  exists e0. repeat split; try done. exists x, tx. split; [|done].
  apply enq_before_snoc. by left.
Qed.

Lemma lock_post_snoc (v : variant) (L : list event) (e : event) (name : string)
    (tr : list event) (o : outcome) :
  (forall y ty ny, e <> Enq name y ty ny) ->
  lock_post v L name tr o -> lock_post v (L ++ [e]) name tr o.
Proof.
  intros He [H1 H2]. split.
  - intros x tx nx Hx%enq_snoc_other; [by eapply H1 | done].
  - eapply cause_mono; [|done]. intros x tx [nx Hx]. exists nx.
    apply elem_of_app. by left.
Qed.

Lemma pl_emit (v : variant) (G : ghost) (e : event) (s : state) :
  pl v G s ->
  match e with
  | Enq _ _ _ _ => False
  | Start _ a => exists val, pre G a (log s) (Fulfilled val)
  | Skip _ a => exists e0, pre G a (log s) (Rejected e0)
  | Fin _ _ => True
  end ->
  pl v G (emit e s).
Proof.
  intros [Hmp Hmq H1 H2 H3 H4 H5 H6 H7 H8 H9 H10] He.
  assert (forall name y ty ny, e <> Enq name y ty ny) as Hne.
  { intros name y ty ny ->. done. }
  assert (log s `prefix_of` log s ++ [e]) as Hpre by by apply prefix_app_r.
  split; simpl; try done.
  - intros p o Hs. eapply Hmp; [done|]. by apply H1.
  - intros p r Hr tr o Hp. apply (H2 p r Hr). by etrans.
  - intros r o Hq. eapply rpre_mono; try done. by apply H3.
  - intros act Hact tr Hp. apply (H4 act Hact). by etrans.
  - intros name c Hc tr o Hp Hpost. apply lock_post_snoc; [done|].
    eapply H5; [done| |done]. by etrans.
  - intros name Hn x tx nx Hx%enq_snoc_other; [|done].
    eapply done_mono; [done|]. by eapply H6.
  - intros name a t nx Ha%enq_snoc_other tr o Hpr; [|done].
    apply turn_snoc; [done|]. by eapply H7.
  - intros name a t nx Ha%enq_snoc_other tr o Hpo; [|done].
    apply answer_snoc. by eapply H8.
  - intros l1 l2 name a Heq.
    apply snoc_eq_app_cons in Heq as [(-> & <- & ->)|(l2' & -> & Heq)]; [done|].
    by eapply H9.
  - intros name a [H|H%list_elem_of_singleton]%elem_of_app.
    + destruct (H10 _ _ H) as [e0 He0]. exists e0. by eapply Hmq.
    + subst e. destruct He as [e0 He0]. exists e0. by eapply Hmq.
Qed.

Lemma pl_mark (v : variant) (G : ghost) (name : string) (a : nat) (t : task) (c : nat)
    (s : state) :
  pl v G s ->
  (forall e, e ∈ log s -> event_bound a e) ->
  (forall tr o, post G c tr o -> lock_post v (log s ++ [Enq name a t c]) name tr o) ->
  (forall tr o, pre G a tr o -> turn v (log s ++ [Enq name a t c]) name a tr o) ->
  (forall tr o, post G c tr o -> answer v (log s ++ [Enq name a t c]) name a t tr o) ->
  pl v G (emit (Enq name a t c) (set_lock name c s)).
Proof.
  intros [Hmp Hmq H1 H2 H3 H4 H5 H6 H7 H8 H9 H10] Hfresh Hlock Hturn Hanswer.
  assert (log s `prefix_of` log s ++ [Enq name a t c]) as Hpre by by apply prefix_app_r.
  assert (forall name' ty ny, Enq name' a ty ny ∉ log s) as Hnew.
  { intros name' ty ny Hin. apply Hfresh in Hin. simpl in Hin. lia. }
  split; simpl; try done.
  - intros p o Hs. eapply Hmp; [done|]. by apply H1.
  - intros p r Hr tr o Hp. apply (H2 p r Hr). by etrans.
  - intros r o Hq. eapply rpre_mono; try done. by apply H3.
  - intros act Hact tr Hp. apply (H4 act Hact). by etrans.
  - intros name' c' Hc tr o Hp Hpost. destruct (decide (name' = name)) as [->|Hn].
    + rewrite lookup_insert_eq in Hc. simplify_eq. by apply Hlock.
    + rewrite lookup_insert_ne in Hc by done. apply lock_post_snoc; [congruence|].
      eapply H5; [done| |done]. by etrans.
  - intros name' Hn x tx nx Hx. destruct (decide (name' = name)) as [->|Hne].
    + by rewrite lookup_insert_eq in Hn.
    + rewrite lookup_insert_ne in Hn by done.
      apply enq_snoc_other in Hx; [|congruence].
      eapply done_mono; [done|]. by eapply H6.
  - intros name' a' t' nx' [Ha|Ha%list_elem_of_singleton]%elem_of_app tr o Hpr.
    + apply turn_snoc; [|by eapply H7].
      intros ty ny [= -> ->]. by destruct (Hnew name' t' nx').
    + simplify_eq. by apply Hturn.
  - intros name' a' t' nx' [Ha|Ha%list_elem_of_singleton]%elem_of_app tr o Hpo.
    + apply answer_snoc. by eapply H8.
    + simplify_eq. by apply Hanswer.
  - intros l1 l2 name' a' Heq.
    apply snoc_eq_app_cons in Heq as [(_ & _ & ?)|(l2' & -> & Heq)]; [done|].
    by eapply H9.
  - intros name' a' [H|H%list_elem_of_singleton]%elem_of_app; [|done].
    destruct (H10 _ _ H) as [e0 He0]. exists e0. by eapply Hmq.
Qed.

Lemma pl_alloc (v : variant) (G : ghost) (x : promise) (s : state) :
  pl v G s ->
  match x with
  | Settled o => post G (length (store s)) (log s) o
  | Pending rs => rs = []
  end ->
  pl v G (alloc x s).2.
Proof.
  intros [Hmp Hmq H1 H2 H3 H4 H5 H6 H7 H8 H9 H10] Hx.
  split; try done.
  - intros p o [H|[-> ->]]%settled_alloc; [by apply H1 | done].
  - intros p r Hr. apply (H2 p r). destruct x as [rs|o].
    + subst rs. by apply reg_alloc_empty.
    + by apply (reg_alloc_settled o).
Qed.

Lemma pl_subscribe (v : variant) (G : ghost) (p : nat) (r : reaction) (s : state) :
  pl v G s ->
  (forall tr o, log s `prefix_of` tr -> post G p tr o -> rpre G r tr o) ->
  pl v G (subscribe p r s).
Proof.
  intros [Hmp Hmq H1 H2 H3 H4 H5 H6 H7 H8 H9 H10] Hr.
  destruct (subscribe_frame p r s) as (Hl & Ha & Hg & Hn).
  split; rewrite ?Hl, ?Ha, ?Hg; try done.
  - intros p' o H%settled_subscribe. by apply H1.
  - intros p' r' [H|(_ & -> & ->)]%reg_subscribe; [by apply H2 | done].
  - intros r' o [H|[Hs ->]]%queued_subscribe; [by apply H3|].
    apply Hr; [done | by apply H1].
Qed.

Lemma pl_settle (v : variant) (G : ghost) (p : nat) (o : outcome) (s : state) :
  pl v G s ->
  (pending s p -> post G p (log s) o) ->
  pl v G (settle p o s).
Proof.
  intros [Hmp Hmq H1 H2 H3 H4 H5 H6 H7 H8 H9 H10] Hp.
  destruct (settle_frame p o s) as (Hl & Ha & Hg & Hn).
  split; rewrite ?Hl, ?Ha, ?Hg; try done.
  - intros p' o' [H|(Hpe & -> & ->)]%settled_settle; [by apply H1 | by apply Hp].
  - intros p' r' [H _]%reg_settle. by apply H2.
  - intros r' o' [H|[H ->]]%queued_settle; [by apply H3|].
    apply (H2 p r' H); [done|]. apply Hp. destruct H as (rs & H & _). by exists rs.
Qed.

Lemma pl_cleanup (v : variant) (G : ghost) (name : string) (next : nat) (s : state) :
  pl v G s ->
  (locks s !! name = Some next -> exists o, post G next (log s) o) ->
  pl v G (cleanup name next s).
Proof.
  intros [Hmp Hmq H1 H2 H3 H4 H5 H6 H7 H8 H9 H10] Hnext.
  destruct (cleanup_frame name next s) as (Hs & Hj & Ha & Hg).
  split; unfold settled, reg, queued; rewrite ?Hs, ?Hj, ?Ha, ?Hg; try done.
  - intros name' c. rewrite cleanup_lookup. case_decide; [done|]. apply H5.
  - intros name'. rewrite cleanup_lookup. case_decide as Hd; [|apply H6].
    destruct Hd as [-> Hl]. intros _ x tx nx Hx.
    destruct (Hnext Hl) as [o Ho].
    by eapply (H5 name next Hl (log s) o).
Qed.

Lemma pl_push_job (v : variant) (G : ghost) (r : reaction) (o : outcome) (s : state) :
  pl v G s -> rpre G r (log s) o -> pl v G (push_job (r, o) s).
Proof.
  intros [Hmp Hmq H1 H2 H3 H4 H5 H6 H7 H8 H9 H10] Hr. split; try done.
  intros r' o' [H|[= -> ->]]%queued_push; [by apply H3 | done].
Qed.

Lemma pl_pop_job (v : variant) (G : ghost) (s : state) : pl v G s -> pl v G (pop_job s).
Proof.
  intros [Hmp Hmq H1 H2 H3 H4 H5 H6 H7 H8 H9 H10]. split; try done.
  intros r o H%queued_pop. by apply H3.
Qed.

Lemma pl_set_acts (v : variant) (G : ghost) (l : list activation) (s : state) :
  pl v G s ->
  (forall act, act ∈ l ->
     forall tr, log s `prefix_of` tr -> Fin (act_name act) (act_op act) ∈ tr ->
       post G (act_promise act) tr (act_result act)) ->
  pl v G (set_acts l s).
Proof. intros [Hmp Hmq H1 H2 H3 H4 H5 H6 H7 H8 H9 H10] Hl. by split. Qed.

Lemma rpre_ghost (G G' : ghost) (n : nat) (r : reaction) (tr : list event) (o : outcome) :
  (forall p, p < n -> post G' p = post G p) ->
  (forall a, a < n -> pre G' a = pre G a) ->
  wf_reaction n r -> rpre G r tr o -> rpre G' r tr o.
Proof.
  intros Hpost Hpre [Ht Hn].
  destruct r as [name t a|[|name next] tgt|name next tgt|tgt]; simpl in *;
    rewrite ?Hpost, ?Hpre by done; done.
Qed.

Lemma pl_ghost (v : variant) (G G' : ghost) (s : state) :
  wf s -> pl v G s ->
  (forall p, p < length (store s) -> post G' p = post G p) ->
  (forall a, a < length (store s) -> pre G' a = pre G a) ->
  (forall p tr tr' o, tr `prefix_of` tr' -> post G' p tr o -> post G' p tr' o) ->
  (forall a tr tr' o, tr `prefix_of` tr' -> pre G' a tr o -> pre G' a tr' o) ->
  pl v G' s.
Proof.
  intros [W1 W2 W3 W4 W5] [Hmp Hmq H1 H2 H3 H4 H5 H6 H7 H8 H9 H10] Hpost Hpre Hmp' Hmq'.
  split; try done.
  - intros p o Hs. rewrite Hpost; [by apply H1|]. by eapply lookup_lt_Some.
  - intros p r Hr tr o Hp Hpo. eapply rpre_ghost; [done|done|by eapply W1|].
    apply (H2 p r Hr); [done|]. rewrite <- Hpost; [done|].
    destruct Hr as (rs & Hr & _). by eapply lookup_lt_Some.
  - intros r o Hq. eapply rpre_ghost; [done|done|by eapply W2|]. by apply H3.
  - intros act Hact tr Hp Hf. rewrite Hpost; [by apply H4|]. by apply W4.
  - intros name c Hc tr o Hp Hpo. eapply H5; [done|done|].
    rewrite <- Hpost; [done|]. by eapply W3.
  - intros name a t nx Ha tr o Hpr. eapply H7; [done|].
    rewrite <- Hpre; [done|]. by destruct (W5 _ Ha).
  - intros name a t nx Ha tr o Hpo. eapply H8; [done|].
    rewrite <- Hpost; [done|]. by destruct (W5 _ Ha).
  - intros l1 l2 name a Heq. destruct (H9 _ _ _ _ Heq) as [val Hv]. exists val.
    rewrite Hpre; [done|]. apply (W5 (Start name a)). rewrite Heq.
    apply elem_of_app. right. by left.
  - intros name a Hs. destruct (H10 _ _ Hs) as [e He]. exists e.
    rewrite Hpre; [done|]. apply (W5 _ Hs).
Qed.

(** ** Nothing is left behind: kept by every primitive move *)

Lemma lv_init (G : ghost) : lv G [] None init.
Proof.
  split; simpl.
  - intros p r (rs & H & _). simpl in H. by rewrite lookup_nil in H.
  - intros r o H. by apply elem_of_nil in H.
  - intros p (rs & H). simpl in H. by rewrite lookup_nil in H.
  - intros name c H. by rewrite lookup_empty in H.
  - intros name a t nx H. by apply elem_of_nil in H.
  - intros name t a [[o H]|[p (rs & H & _)]].
    + by apply elem_of_nil in H.
    + simpl in H. by rewrite lookup_nil in H.
  - intros act H. by apply elem_of_nil in H.
  - intros name a H. by apply elem_of_nil in H.
Qed.

Lemma has_resolver_mono (s s' : state) (p : nat) :
  (forall r, armed s r -> armed s' r) ->
  (forall act, act ∈ acts s -> exists act', act' ∈ acts s' /\ act_promise act' = act_promise act) ->
  has_resolver s p -> has_resolver s' p.
Proof.
  intros Ha Hacts [(r & Hr & Ht)|(act & Hact & Hp)].
  - left. exists r. auto.
  - right. destruct (Hacts act Hact) as (act' & Hact' & Heq). exists act'.
    split; [done|congruence].
Qed.

Lemma armed_subscribe_inv (p : nat) (r0 : reaction) (s : state) (r : reaction) :
  armed (subscribe p r0 s) r -> armed s r \/ r = r0.
Proof.
  intros [[o [H|[_ ->]]%queued_subscribe]|[p' [H|(_ & _ & ->)]%reg_subscribe]]; auto.
  - left. left. by exists o.
  - left. right. by exists p'.
Qed.

Lemma armed_settle_inv (p : nat) (o : outcome) (s : state) (r : reaction) :
  armed (settle p o s) r -> armed s r.
Proof.
  intros [[o' [H|[H _]]%queued_settle]|[p' [H _]%reg_settle]].
  - left. by exists o'.
  - right. by exists p.
  - right. by exists p'.
Qed.

Lemma armed_alloc_inv (x : promise) (s : state) (r : reaction) :
  x = Pending [] \/ (exists o, x = Settled o) ->
  armed (alloc x s).2 r -> armed s r.
Proof.
  intros Hx [[o H]|[p H]]; [left; by exists o|]. right. exists p.
  destruct Hx as [->|[o ->]]; [by apply reg_alloc_empty | by apply (reg_alloc_settled o)].
Qed.

Lemma armed_push_inv (j : reaction * outcome) (s : state) (r : reaction) :
  armed (push_job j s) r -> armed s r \/ r = j.1.
Proof.
  intros [[o [H|Heq]%queued_push]|[p H]].
  - left. left. by exists o.
  - right. by subst j.
  - left. right. by exists p.
Qed.

Lemma armed_pop_inv (s : state) (r : reaction) : armed (pop_job s) r -> armed s r.
Proof.
  intros [[o H%queued_pop]|[p H]]; [left; by exists o | right; by exists p].
Qed.

(** Weakening the exceptions. *)
Lemma lv_discharge (G : ghost) (D D' : list nat) (X : option (string * task * nat))
    (s : state) :
  lv G D X s ->
  (forall x, x ∈ D -> x ∈ D' \/ (pending s x -> has_resolver s x)) ->
  lv G D' X s.
Proof.
  intros [H1 H1' H2 H3 H4 H5 H6 H7] HD. split; try done.
  intros p Hp. destruct (H2 p Hp) as [Hin|Hr]; [|by right].
  destruct (HD p Hin) as [?|Hres]; [by left | right; by apply Hres].
Qed.

Lemma lv_expect (G : ghost) (D : list nat) (x : string * task * nat) (s : state) :
  lv G D None s -> lv G D (Some x) s.
Proof.
  intros [H1 H1' H2 H3 H4 H5 H6 H7]. split; try done.
  intros name t a Ha. destruct (H5 name t a Ha) as [Ho [?|He]]; [done|]. by split; [|right].
Qed.

Lemma lv_emit (G : ghost) (D : list nat) (X : option (string * task * nat)) (e : event)
    (s : state) :
  lv G D X s ->
  match e with
  | Enq _ _ _ _ => False
  | Fin name a => Start name a ∈ log s
  | _ => True
  end ->
  lv G D X (emit e s).
Proof.
  intros [H1 H1' H2 H3 H4 H5 H6 H7] He.
  assert (forall name y ty ny, e <> Enq name y ty ny) as Hne.
  { intros name y ty ny ->. done. }
  split; simpl; try done.
  - intros name a t nx Ha%enq_snoc_other; [|done].
    destruct (H4 _ _ _ _ Ha) as [H|[H|H]]; [left|right; left|right; right; done];
      apply elem_of_app; by left.
  - intros name t a Ha. destruct (H5 name t a Ha) as [Ho [?|[nx Hx]]]; split; auto.
    right. exists nx. apply elem_of_app. by left.
  - intros act Hact. destruct (H6 act Hact) as (Hs & Ho & t & nx & Hq).
    split; [apply elem_of_app; by left|]. split; [done|].
    exists t, nx. apply elem_of_app. by left.
  - intros name a [H|H%list_elem_of_singleton]%elem_of_app.
    + apply elem_of_app. left. by apply H7.
    + subst e. apply elem_of_app. by left.
Qed.

Lemma lv_mark (G : ghost) (D : list nat) (name : string) (a : nat) (t : task) (c : nat)
    (s : state) :
  lv G D (Some (name, t, a)) s ->
  armed s (ThenTask name t a) ->
  owner G c = name ->
  (exists tgt, armed s (Finally name c tgt)) ->
  lv G D None (emit (Enq name a t c) (set_lock name c s)).
Proof.
  intros [H1 H1' H2 H3 H4 H5 H6 H7] Harmed Howner Hfin.
  split; simpl; try done.
  - intros name' c' Hc. destruct (decide (name' = name)) as [->|Hn].
    + rewrite lookup_insert_eq in Hc. by simplify_eq.
    + rewrite lookup_insert_ne in Hc by done. by apply H3.
  - intros name' a' t' nx' [Ha|Ha%list_elem_of_singleton]%elem_of_app.
    + destruct (H4 _ _ _ _ Ha) as [H|[H|H]]; [left|right; left|right; right; done];
        apply elem_of_app; by left.
    + simplify_eq. by right; right.
  - intros name' t' a' Ha. destruct (H5 name' t' a' Ha) as [Ho [[= -> -> ->]|[nx Hx]]];
      (split; [done|]); right.
    + exists c. apply elem_of_app. right. by left.
    + exists nx. apply elem_of_app. by left.
  - intros act Hact. destruct (H6 act Hact) as (Hs & Ho & t' & nx & Hq).
    split; [apply elem_of_app; by left|]. split; [done|].
    exists t', nx. apply elem_of_app. by left.
  - intros name' a' [H|H%list_elem_of_singleton]%elem_of_app; [|done].
    apply elem_of_app. left. by apply H7.
Qed.

Lemma lv_alloc (G : ghost) (D : list nat) (X : option (string * task * nat)) (x : promise)
    (s : state) :
  lv G D X s ->
  x = Pending [] \/ (exists o, x = Settled o) ->
  lv G (length (store s) :: D) X (alloc x s).2.
Proof.
  intros [H1 H1' H2 H3 H4 H5 H6 H7] Hx.
  split; try done.
  - intros p r Hr. apply (H1 p r).
    destruct Hx as [->|[o ->]]; [by apply reg_alloc_empty | by apply (reg_alloc_settled o)].
  - intros p [Hp|[-> _]]%pending_alloc; [|left; by left].
    destruct (H2 p Hp) as [Hin|Hres]; [left; by right|]. right.
    eapply has_resolver_mono; [| |done].
    + intros r. apply armed_alloc.
    + intros act Hact. by exists act.
  - intros name c Hc. destruct (H3 name c Hc) as [Ho [tgt Ht]]. split; [done|].
    exists tgt. by apply armed_alloc.
  - intros name a t nx Ha. destruct (H4 _ _ _ _ Ha) as [H|[H|H]]; auto.
    right; right. by apply armed_alloc.
  - intros name t a Ha%armed_alloc_inv; [|done]. by apply H5.
Qed.

Lemma lv_subscribe (G : ghost) (D D' : list nat) (X : option (string * task * nat))
    (p : nat) (r : reaction) (s : state) :
  lv G D X s ->
  p < length (store s) ->
  rank G p < rank G (target r) /\ owner G p = owner G (target r) ->
  (forall x, x ∈ D -> x = target r \/ x ∈ D') ->
  (forall name t a, r = ThenTask name t a ->
     owner G a = name /\ (X = Some (name, t, a) \/ exists nx, Enq name a t nx ∈ log s)) ->
  lv G D' X (subscribe p r s).
Proof.
  intros [H1 H1' H2 H3 H4 H5 H6 H7] Hp Hrank HD Hthen.
  destruct (subscribe_frame p r s) as (Hl & Ha & Hg & Hn).
  split; rewrite ?Hl, ?Ha, ?Hg; try done.
  - intros p' r' [H|(_ & -> & ->)]%reg_subscribe; [by apply H1 | done].
  - intros r' o [H|[_ ->]]%queued_subscribe; [by eapply H1'|lia].
  - intros p' Hp'%pending_subscribe.
    assert (has_resolver s p' -> has_resolver (subscribe p r s) p') as Hmono.
    { apply has_resolver_mono; [intros r'; apply armed_subscribe|].
      intros act Hact. exists act. by rewrite Ha. }
    destruct (H2 p' Hp') as [Hin|Hres]; [|right; by apply Hmono].
    destruct (HD p' Hin) as [->|?]; [|by left].
    right. left. exists r. split; [by apply armed_subscribe_new | done].
  - intros name c Hc. destruct (H3 name c Hc) as [Ho [tgt Ht]]. split; [done|].
    exists tgt. by apply armed_subscribe.
  - intros name a t nx Hq. destruct (H4 _ _ _ _ Hq) as [H|[H|H]]; auto.
    right; right. by apply armed_subscribe.
  - intros name t a [Harm|Heq]%armed_subscribe_inv; [by apply H5 | by eapply Hthen].
Qed.

Lemma lv_settle (G : ghost) (D : list nat) (X : option (string * task * nat)) (p : nat)
    (o : outcome) (s : state) :
  lv G D X s -> lv G D X (settle p o s).
Proof.
  intros [H1 H1' H2 H3 H4 H5 H6 H7].
  destruct (settle_frame p o s) as (Hl & Ha & Hg & Hn).
  split; rewrite ?Hl, ?Ha, ?Hg; try done.
  - intros p' r' [H _]%reg_settle. by apply H1.
  - intros r' o' [H|[H _]]%queued_settle; [by eapply H1'|].
    destruct (H1 p r' H). lia.
  - intros p' [Hp' _]%pending_settle.
    destruct (H2 p' Hp') as [Hin|Hres]; [by left|right].
    eapply has_resolver_mono; [intros r'; apply armed_settle| |done].
    intros act Hact. exists act. by rewrite Ha.
  - intros name c Hc. destruct (H3 name c Hc) as [Ho [tgt Ht]]. split; [done|].
    exists tgt. by apply armed_settle.
  - intros name a t nx Hq. destruct (H4 _ _ _ _ Hq) as [H|[H|H]]; auto.
    right; right. by apply armed_settle.
  - intros name t a Harm%armed_settle_inv. by apply H5.
Qed.

Lemma lv_cleanup (G : ghost) (D : list nat) (X : option (string * task * nat))
    (name : string) (next : nat) (s : state) :
  lv G D X s -> lv G D X (cleanup name next s).
Proof.
  intros [H1 H1' H2 H3 H4 H5 H6 H7]. unfold cleanup. case_decide; [|done].
  split; try done. simpl.
  intros name' c Hc. destruct (decide (name' = name)) as [->|Hne].
  - by rewrite lookup_delete_eq in Hc.
  - rewrite lookup_delete_ne in Hc by done. by apply H3.
Qed.

Lemma lv_push_job (G : ghost) (D D' : list nat) (X : option (string * task * nat))
    (r : reaction) (o : outcome) (s : state) :
  lv G D X s ->
  0 < rank G (target r) ->
  (forall name t a, r <> ThenTask name t a) ->
  (forall x, x ∈ D -> x = target r \/ x ∈ D') ->
  lv G D' X (push_job (r, o) s).
Proof.
  intros [H1 H1' H2 H3 H4 H5 H6 H7] Hrank Hr HD.
  split; try done.
  - intros r' o' [H|[= -> ->]]%queued_push; [by eapply H1' | done].
  - intros p Hp.
    assert (has_resolver s p -> has_resolver (push_job (r, o) s) p) as Hmono.
    { apply has_resolver_mono; [intros r'; apply armed_push|].
      intros act Hact. by exists act. }
    destruct (H2 p Hp) as [Hin|Hres]; [|right; by apply Hmono].
    destruct (HD p Hin) as [->|?]; [|by left].
    right. left. exists r. split; [|done]. left. exists o. apply queued_push. by right.
  - intros name c Hc. destruct (H3 name c Hc) as [Ho [tgt Ht]]. split; [done|].
    exists tgt. by apply armed_push.
  - intros name a t nx Hq. destruct (H4 _ _ _ _ Hq) as [H|[H|H]]; auto.
    right; right. by apply armed_push.
  - intros name t a [Harm|Heq]%armed_push_inv; [by apply H5|].
    simpl in Heq. by destruct (Hr name t a).
Qed.

Lemma armed_pop (s : state) (j : reaction * outcome) (rest : list (reaction * outcome))
    (r : reaction) :
  jobs s = j :: rest -> armed s r -> r = j.1 \/ armed (pop_job s) r.
Proof.
  intros Hj [[o Ho]|[p Hp]].
  - destruct (queued_pop_inv s j rest r o Hj Ho) as [->|H]; [by left|].
    right. left. by exists o.
  - right. right. by exists p.
Qed.

Lemma lv_pop_job (G : ghost) (D : list nat) (X : option (string * task * nat)) (s : state)
    (j : reaction * outcome) (rest : list (reaction * outcome)) :
  lv G D X s ->
  jobs s = j :: rest ->
  (pending s (target j.1) -> has_resolver (pop_job s) (target j.1)) ->
  (forall name c tgt, j.1 = Finally name c tgt -> locks s !! name <> Some c) ->
  (forall name t a, j.1 = ThenTask name t a -> Start name a ∈ log s \/ Skip name a ∈ log s) ->
  lv G D X (pop_job s).
Proof.
  intros [H1 H1' H2 H3 H4 H5 H6 H7] Hj Hres Hfin Hthen.
  split; try done.
  - intros r o H%queued_pop. by eapply H1'.
  - intros p Hp. destruct (H2 p Hp) as [Hin|[(r & Hr & Ht)|Hact]]; [by left| |by right; right].
    destruct (armed_pop s j rest r Hj Hr) as [->|Ha].
    + right. subst p. by apply Hres.
    + right. left. by exists r.
  - intros name c Hc. destruct (H3 name c Hc) as [Ho [tgt Ht]]. split; [done|].
    exists tgt. destruct (armed_pop s j rest _ Hj Ht) as [Heq|Ha]; [|done].
    by destruct (Hfin name c tgt (eq_sym Heq)).
  - intros name a t nx Hq. destruct (H4 _ _ _ _ Hq) as [H|[H|H]]; auto.
    destruct (armed_pop s j rest _ Hj H) as [Heq|Ha]; [|by right; right].
    destruct (Hthen name t a (eq_sym Heq)); auto.
  - intros name t a Harm%armed_pop_inv. by apply H5.
Qed.

Lemma lv_set_acts (G : ghost) (D : list nat) (X : option (string * task * nat))
    (l : list activation) (s : state) :
  lv G D X s ->
  (forall act, act ∈ l ->
     Start (act_name act) (act_op act) ∈ log s /\
     owner G (act_promise act) = act_name act /\
     exists t nx, Enq (act_name act) (act_op act) t nx ∈ log s) ->
  (forall act, act ∈ acts s -> pending s (act_promise act) ->
     exists act', act' ∈ l /\ act_promise act' = act_promise act) ->
  lv G D X (set_acts l s).
Proof.
  intros [H1 H1' H2 H3 H4 H5 H6 H7] Hl Hkeep.
  split; try done.
  intros p Hp. destruct (H2 p Hp) as [Hin|[Hr|(act & Hact & Hq)]]; [by left|by right; left|].
  right. right. subst p. by apply Hkeep.
Qed.

Lemma lv_ghost (G G' : ghost) (D : list nat) (X : option (string * task * nat)) (s : state) :
  wf s -> lv G D X s ->
  (forall p, p < length (store s) -> owner G' p = owner G p /\ rank G' p = rank G p) ->
  lv G' D X s.
Proof.
  intros [W1 W2 W3 W4 W5] [H1 H1' H2 H3 H4 H5 H6 H7] Hagree.
  split; try done.
  - intros p r Hr. destruct (W1 p r Hr) as [Ht _].
    assert (p < length (store s)) as Hp.
    { destruct Hr as (rs & Hr & _). by eapply lookup_lt_Some. }
    destruct (Hagree p Hp) as [-> ->], (Hagree _ Ht) as [-> ->]. by apply H1.
  - intros r o Hq. destruct (W2 r o Hq) as [Ht _].
    destruct (Hagree _ Ht) as [_ ->]. by eapply H1'.
  - intros name c Hc. destruct (Hagree c (W3 _ _ Hc)) as [-> _]. by apply H3.
  - intros name t a Harm. destruct (H5 name t a Harm) as [Ho Hx]. split; [|done].
    assert (a < length (store s)) as Hlt.
    { destruct Harm as [[o Hq]|[p Hr]]; [apply (W2 _ _ Hq) | apply (W1 _ _ Hr)]. }
    by destruct (Hagree a Hlt) as [-> _].
  - intros act Hact. destruct (W4 act Hact) as [Hlt _].
    destruct (Hagree _ Hlt) as [-> _]. by apply H6.
Qed.

(** ** The whole invariant under the primitive moves *)

Lemma inv_init (v : variant) : inv v (Ghost (fun _ _ _ => True) (fun _ _ _ => True)
                                        (fun _ => "") (fun _ => 0) (fun _ => 0)) init.
Proof.
  split; [apply wf_init | apply src_init | by apply pl_init | apply lv_init].
Qed.

Lemma inv_emit_start (v : variant) (G : ghost) (D : list nat)
    (X : option (string * task * nat)) (name : string) (a : nat) (s : state) :
  inv_at v G D X s -> a < length (store s) ->
  (exists val, settled s (src G a) (Fulfilled val)) ->
  (exists val, pre G a (log s) (Fulfilled val)) ->
  inv_at v G D X (emit (Start name a) s).
Proof.
  intros [Hw Hs Hp Hl] Ha Hsrc Hpre. split.
  - by apply wf_emit.
  - by apply src_emit.
  - by apply pl_emit.
  - by apply lv_emit.
Qed.

Lemma inv_emit_skip (v : variant) (G : ghost) (D : list nat)
    (X : option (string * task * nat)) (name : string) (a : nat) (s : state) :
  inv_at v G D X s -> a < length (store s) ->
  (exists e, settled s (src G a) (Rejected e)) ->
  (exists e, pre G a (log s) (Rejected e)) ->
  inv_at v G D X (emit (Skip name a) s).
Proof.
  intros [Hw Hs Hp Hl] Ha Hsrc Hpre. split.
  - by apply wf_emit.
  - by apply src_emit.
  - by apply pl_emit.
  - by apply lv_emit.
Qed.

Lemma inv_emit_fin (v : variant) (G : ghost) (D : list nat)
    (X : option (string * task * nat)) (name : string) (a : nat) (s : state) :
  inv_at v G D X s -> a < length (store s) -> Start name a ∈ log s ->
  inv_at v G D X (emit (Fin name a) s).
Proof.
  intros [Hw Hs Hp Hl] Ha Hstart. split.
  - by apply wf_emit.
  - by apply src_emit.
  - by apply pl_emit.
  - by apply lv_emit.
Qed.

Lemma inv_mark (v : variant) (G : ghost) (D : list nat) (name : string) (a : nat)
    (t : task) (c : nat) (s : state) :
  inv_at v G D (Some (name, t, a)) s ->
  a < length (store s) -> c < length (store s) ->
  (forall e, e ∈ log s -> event_bound a e) ->
  (forall tr o, post G c tr o -> lock_post v (log s ++ [Enq name a t c]) name tr o) ->
  (forall tr o, pre G a tr o -> turn v (log s ++ [Enq name a t c]) name a tr o) ->
  (forall tr o, post G c tr o -> answer v (log s ++ [Enq name a t c]) name a t tr o) ->
  armed s (ThenTask name t a) ->
  owner G c = name ->
  (exists tgt, armed s (Finally name c tgt)) ->
  inv_at v G D None (emit (Enq name a t c) (set_lock name c s)).
Proof.
  intros [Hw Hs Hp Hl] Ha Hc Hfresh Hlock Hturn Hanswer Harmed Howner Hfin. split.
  - apply wf_emit; [by apply wf_set_lock | done].
  - apply src_emit; [by apply src_set_lock | done].
  - by apply pl_mark.
  - by apply lv_mark.
Qed.

Lemma inv_alloc_pending (v : variant) (G : ghost) (D : list nat)
    (X : option (string * task * nat)) (s : state) :
  inv_at v G D X s ->
  inv_at v G (length (store s) :: D) X (alloc (Pending []) s).2.
Proof.
  intros [Hw Hs Hp Hl]. split.
  - apply wf_alloc; auto.
  - apply src_alloc; auto.
  - by apply pl_alloc.
  - apply lv_alloc; auto.
Qed.

Lemma inv_alloc_settled (v : variant) (G : ghost) (D : list nat)
    (X : option (string * task * nat)) (o : outcome) (s : state) :
  inv_at v G D X s ->
  post G (length (store s)) (log s) o ->
  inv_at v G D X (alloc (Settled o) s).2.
Proof.
  intros [Hw Hs Hp Hl] Hpost. split.
  - apply wf_alloc; eauto.
  - apply src_alloc; eauto.
  - by apply pl_alloc.
  - eapply lv_discharge; [apply lv_alloc; eauto|].
    intros x [->|Hx]%elem_of_cons; [right|by left].
    intros [Hpe|[_ [rs Hrs]]]%pending_alloc; [|done].
    destruct Hpe as [rs Hrs]. apply lookup_lt_Some in Hrs. lia.
Qed.

Lemma inv_subscribe (v : variant) (G : ghost) (D D' : list nat)
    (X : option (string * task * nat)) (p : nat) (r : reaction) (s : state) :
  inv_at v G D X s ->
  p < length (store s) ->
  wf_reaction (length (store s)) r ->
  (forall name t a, r = ThenTask name t a ->
     src G a = p /\ owner G a = name /\
     (X = Some (name, t, a) \/ exists nx, Enq name a t nx ∈ log s)) ->
  (forall tr o, log s `prefix_of` tr -> post G p tr o -> rpre G r tr o) ->
  rank G p < rank G (target r) /\ owner G p = owner G (target r) ->
  (forall x, x ∈ D -> x = target r \/ x ∈ D') ->
  inv_at v G D' X (subscribe p r s).
Proof.
  intros [Hw Hs Hp Hl] Hlt Hwf Hthen Hrpre Hrank HD. split.
  - by apply wf_subscribe.
  - apply src_subscribe; [done|]. intros name t a Hr. by destruct (Hthen name t a Hr).
  - by apply pl_subscribe.
  - eapply lv_subscribe; try done.
    intros name t a Hr. by destruct (Hthen name t a Hr) as (_ & ? & ?).
Qed.

Lemma inv_settle (v : variant) (G : ghost) (D : list nat)
    (X : option (string * task * nat)) (p : nat) (o : outcome) (s : state) :
  inv_at v G D X s ->
  (pending s p -> post G p (log s) o) ->
  inv_at v G D X (settle p o s).
Proof.
  intros [Hw Hs Hp Hl] Hpost. split.
  - by apply wf_settle.
  - by apply src_settle.
  - by apply pl_settle.
  - by apply lv_settle.
Qed.

Lemma inv_cleanup (v : variant) (G : ghost) (D : list nat)
    (X : option (string * task * nat)) (name : string) (next : nat) (s : state) :
  inv_at v G D X s ->
  (locks s !! name = Some next -> exists o, post G next (log s) o) ->
  inv_at v G D X (cleanup name next s).
Proof.
  intros [Hw Hs Hp Hl] Hpost. split.
  - by apply wf_cleanup.
  - by apply src_cleanup.
  - by apply pl_cleanup.
  - by apply lv_cleanup.
Qed.

Lemma inv_push_job (v : variant) (G : ghost) (D D' : list nat)
    (X : option (string * task * nat)) (r : reaction) (o : outcome) (s : state) :
  inv_at v G D X s ->
  wf_reaction (length (store s)) r ->
  (forall name t a, r <> ThenTask name t a) ->
  rpre G r (log s) o ->
  0 < rank G (target r) ->
  (forall x, x ∈ D -> x = target r \/ x ∈ D') ->
  inv_at v G D' X (push_job (r, o) s).
Proof.
  intros [Hw Hs Hp Hl] Hwf Hr Hrpre Hrank HD. split.
  - by apply wf_push_job.
  - by apply src_push_job.
  - by apply pl_push_job.
  - by eapply lv_push_job.
Qed.

Lemma inv_pop_job (v : variant) (G : ghost) (D : list nat)
    (X : option (string * task * nat)) (s : state) (j : reaction * outcome)
    (rest : list (reaction * outcome)) :
  inv_at v G D X s ->
  jobs s = j :: rest ->
  (pending s (target j.1) -> has_resolver (pop_job s) (target j.1)) ->
  (forall name c tgt, j.1 = Finally name c tgt -> locks s !! name <> Some c) ->
  (forall name t a, j.1 = ThenTask name t a -> Start name a ∈ log s \/ Skip name a ∈ log s) ->
  inv_at v G D X (pop_job s).
Proof.
  intros [Hw Hs Hp Hl] Hj Hres Hfin Hthen. split.
  - by apply wf_pop_job.
  - by apply src_pop_job.
  - by apply pl_pop_job.
  - by eapply lv_pop_job.
Qed.

Lemma inv_set_acts (v : variant) (G : ghost) (D : list nat)
    (X : option (string * task * nat)) (l : list activation) (s : state) :
  inv_at v G D X s ->
  (forall act, act ∈ l ->
     (act_promise act < length (store s) /\ act_op act < length (store s)) /\
     (forall tr, log s `prefix_of` tr -> Fin (act_name act) (act_op act) ∈ tr ->
        post G (act_promise act) tr (act_result act)) /\
     Start (act_name act) (act_op act) ∈ log s /\
     owner G (act_promise act) = act_name act /\
     exists t nx, Enq (act_name act) (act_op act) t nx ∈ log s) ->
  (forall act, act ∈ acts s -> pending s (act_promise act) ->
     exists act', act' ∈ l /\ act_promise act' = act_promise act) ->
  inv_at v G D X (set_acts l s).
Proof.
  intros [Hw Hs Hp Hl] Hact Hkeep. split.
  - apply wf_set_acts; [done|]. intros act Hin. by destruct (Hact act Hin).
  - by apply src_set_acts.
  - apply pl_set_acts; [done|]. intros act Hin. by destruct (Hact act Hin) as (_ & ? & _).
  - apply lv_set_acts; [done| |done]. intros act Hin. by destruct (Hact act Hin) as (_ & _ & ?).
Qed.

Lemma inv_discharge (v : variant) (G : ghost) (D D' : list nat)
    (X : option (string * task * nat)) (s : state) :
  inv_at v G D X s ->
  (forall x, x ∈ D -> x ∈ D' \/ (pending s x -> has_resolver s x)) ->
  inv_at v G D' X s.
Proof. intros [Hw Hs Hp Hl] HD. split; try done. by eapply lv_discharge. Qed.

(** What an activation entry must satisfy, read off the invariant. *)
Lemma inv_acts (v : variant) (G : ghost) (D : list nat) (X : option (string * task * nat))
    (s : state) (act : activation) :
  inv_at v G D X s -> act ∈ acts s ->
  (act_promise act < length (store s) /\ act_op act < length (store s)) /\
  (forall tr, log s `prefix_of` tr -> Fin (act_name act) (act_op act) ∈ tr ->
     post G (act_promise act) tr (act_result act)) /\
  Start (act_name act) (act_op act) ∈ log s /\
  owner G (act_promise act) = act_name act /\
  exists t nx, Enq (act_name act) (act_op act) t nx ∈ log s.
Proof.
  intros [Hw Hs Hp Hl] Hact.
  split; [by apply (wf_act s Hw)|]. split; [by apply (pl_act v G s Hp)|].
  by apply (lv_act G D X s Hl).
Qed.

Lemma extend_below (n : nat) (G N : ghost) (p : nat) :
  p < n ->
  post (extend n G N) p = post G p /\ pre (extend n G N) p = pre G p /\
  owner (extend n G N) p = owner G p /\ rank (extend n G N) p = rank G p /\
  src (extend n G N) p = src G p.
Proof. intros Hp. simpl. by rewrite !decide_True. Qed.

Lemma extend_above (n : nat) (G N : ghost) (p : nat) :
  n <= p ->
  post (extend n G N) p = post N p /\ pre (extend n G N) p = pre N p /\
  owner (extend n G N) p = owner N p /\ rank (extend n G N) p = rank N p /\
  src (extend n G N) p = src N p.
Proof. intros Hp. simpl. rewrite !decide_False by lia. done. Qed.

Lemma inv_extend (v : variant) (G N : ghost) (D : list nat)
    (X : option (string * task * nat)) (s : state) :
  inv_at v G D X s ->
  monotone (post N) -> monotone (pre N) ->
  inv_at v (extend (length (store s)) G N) D X s.
Proof.
  intros [Hw Hs Hp Hl] Hmp Hmq. split; [done| | |].
  - eapply src_ghost; [done|done|]. intros a Ha. by apply extend_below.
  - eapply pl_ghost; [done|done|..].
    + intros p Hlt. by apply extend_below.
    + intros a Hlt. by apply extend_below.
    + intros p tr tr' o Hpre. simpl. case_decide; [by apply (pl_mono_post v G s Hp) | by apply Hmp].
    + intros p tr tr' o Hpre. simpl. case_decide; [by apply (pl_mono_pre v G s Hp) | by apply Hmq].
  - eapply lv_ghost; [done|done|]. intros p Hlt. split; by apply extend_below.
Qed.

(** ** A microtask keeps the invariant *)

Lemma head_settle (j : reaction * outcome) (rest : list (reaction * outcome)) (p : nat)
    (o : outcome) (s : state) :
  jobs s = j :: rest -> exists rest', jobs (settle p o s) = j :: rest'.
Proof.
  intros Hj. destruct (settle_cases p o s) as [(rs & _ & ->)|[_ ->]]; simpl; [|eauto].
  rewrite Hj. simpl. eauto.
Qed.

Lemma head_subscribe (j : reaction * outcome) (rest : list (reaction * outcome)) (p : nat)
    (r : reaction) (s : state) :
  jobs s = j :: rest -> exists rest', jobs (subscribe p r s) = j :: rest'.
Proof.
  intros Hj.
  destruct (subscribe_cases p r s) as [(rs & _ & ->)|[(o & _ & ->)|[_ ->]]]; simpl; eauto.
  rewrite Hj. simpl. eauto.
Qed.

Lemma head_cleanup (j : reaction * outcome) (rest : list (reaction * outcome))
    (name : string) (next : nat) (s : state) :
  jobs s = j :: rest -> jobs (cleanup name next s) = j :: rest.
Proof. intros Hj. by destruct (cleanup_frame name next s) as (_ & -> & _). Qed.

Lemma head_job_facts (v : variant) (G : ghost) (s : state) (r : reaction) (o : outcome)
    (rest : list (reaction * outcome)) :
  inv v G s -> jobs s = (r, o) :: rest ->
  wf_reaction (length (store s)) r /\ rpre G r (log s) o /\ 0 < rank G (target r).
Proof.
  intros [Hw Hs Hp Hl] Hj.
  assert (queued s r o) as Hq by (unfold queued; rewrite Hj; by left).
  split; [by apply (wf_job s Hw r o)|]. split; [by apply (pl_job v G s Hp)|].
  by apply (lv_jobrank G [] None s Hl r o).
Qed.

(** Settling the target of the job at the head of the queue, and taking
    the job off. *)
Lemma inv_settle_pop (v : variant) (G : ghost) (s : state) (j : reaction * outcome)
    (rest : list (reaction * outcome)) (o : outcome) :
  inv v G s -> jobs s = j :: rest ->
  (forall name c tgt, j.1 = Finally name c tgt -> locks s !! name <> Some c) ->
  (forall name t a, j.1 = ThenTask name t a -> Start name a ∈ log s \/ Skip name a ∈ log s) ->
  (pending s (target j.1) -> post G (target j.1) (log s) o) ->
  inv v G (pop_job (settle (target j.1) o s)).
Proof.
  intros Hinv Hj Hfin Hthen Hpost.
  destruct (head_settle j rest (target j.1) o s Hj) as [rest' Hj'].
  destruct (settle_frame (target j.1) o s) as (Hl & Ha & Hg & Hn).
  eapply inv_pop_job; [by apply inv_settle|done|..].
  - intros [_ Hne]%pending_settle. done.
  - rewrite Hl. done.
  - rewrite Hg. done.
Qed.

Lemma inv_queued_facts (v : variant) (G : ghost) (D : list nat)
    (X : option (string * task * nat)) (s : state) (r : reaction) (o : outcome) :
  inv_at v G D X s -> queued s r o ->
  wf_reaction (length (store s)) r /\ rpre G r (log s) o /\ 0 < rank G (target r).
Proof.
  intros [Hw Hs Hp Hl] Hq.
  split; [by apply (wf_job s Hw r o)|]. split; [by apply (pl_job v G s Hp)|].
  by apply (lv_jobrank G D X s Hl r o).
Qed.

Lemma inv_call_task (v : variant) (G : ghost) (s : state) (name : string) (t : task)
    (a : nat) (val : value) (rest : list (reaction * outcome)) :
  inv v G s -> jobs s = (ThenTask name t a, Fulfilled val) :: rest ->
  exists G', inv v G' (pop_job (call_task name t a s)).
Proof.
  intros Hinv0 Hj.
  set (n := length (store s)).
  set (G' := extend n G (call_ghost G a)).
  assert (inv v G' s) as Hinv.
  { apply inv_extend; [done| |done].
    intros p tr tr' o Hp. simpl. apply (pl_mono_post v G s (inv_pl _ _ _ _ _ Hinv0)). done. }
  assert (queued s (ThenTask name t a) (Fulfilled val)) as Hq.
  { unfold queued. rewrite Hj. by left. }
  destruct (inv_queued_facts v G' [] None s _ _ Hinv Hq) as ([Ha _] & [Hpre Hpost] & Hrank).
  change (a < n) in Ha. change (0 < rank G' a) in Hrank.
  assert (post G' a = post G a /\ owner G' a = owner G a /\ rank G' a = rank G a)
    as (Epost & Eowner & Erank).
  { by destruct (extend_below n G (call_ghost G a) a Ha) as (? & ? & ? & ? & ?). }
  assert (post G' n = post G a /\ owner G' n = owner G a /\ rank G' n = 0)
    as (Qpost & Qowner & Qrank).
  { by destruct (extend_above n G (call_ghost G a) n (le_n n)) as (? & ? & ? & ? & ?). }
  assert (owner G' a = name /\ exists nx, Enq name a t nx ∈ log s) as [Howner [nx Henq]].
  { destruct (lv_then G' [] None s (inv_lv _ _ _ _ _ Hinv) name t a) as [Ho [?|?]]; try done.
    left. by exists (Fulfilled val). }
  exists G'. rewrite call_task_cases. fold n.
  (* emit Start *)
  assert (inv_at v G' [] None (emit (Start name a) s)) as H1.
  { apply inv_emit_start; [done|done| |by exists val].
    exists val. by apply (src_job G' s (inv_src _ _ _ _ _ Hinv) name t a). }
  (* the promise of the call *)
  pose proof (inv_alloc_pending v G' [] None _ H1) as H2.
  change (length (store (emit (Start name a) s))) with n in H2.
  remember ((alloc (Pending []) (emit (Start name a) s)).2) as s2 eqn:Es2.
  assert (length (store s2) = S n) as Hn2.
  { subst s2. simpl. rewrite length_app. simpl. lia. }
  assert (log s2 = log s ++ [Start name a]) as Hlog2 by by subst s2.
  assert (jobs s2 = jobs s) as Hjobs2 by by subst s2.
  (* the body runs to its first await, or to its end *)
  remember (match task_awaits t with
            | O => settle n (task_result t) (emit (Fin name a) s2)
            | S k => set_acts (acts s2 ++ [Activation n name a k (task_result t)]) s2
            end) as s3 eqn:Es3.
  assert (inv_at v G' [n] None s3 /\ length (store s3) = S n /\
          (exists rest', jobs s3 = (ThenTask name t a, Fulfilled val) :: rest') /\
          Start name a ∈ log s3 /\
          (pending s3 n -> has_resolver s3 n) /\
          (forall act, act ∈ acts s3 -> pending s3 (act_promise act) ->
             exists act', act' ∈ acts s3 /\ act_promise act' = act_promise act))
    as (H3 & Hn3 & [rest3 Hj3] & Hstart3 & Hres3 & _).
  { subst s3. destruct (task_awaits t) as [|k].
    - assert (inv_at v G' [n] None (emit (Fin name a) s2)) as Hf.
      { apply inv_emit_fin; [done|lia|]. rewrite Hlog2. apply elem_of_app. right. by left. }
      destruct (settle_frame n (task_result t) (emit (Fin name a) s2)) as (Hl & Hac & Hg & Hn).
      split; [|split; [|split; [|split; [|split]]]].
      + apply inv_settle; [done|]. intros _. rewrite Qpost, <- Epost.
        apply Hpost.
        * simpl. rewrite Hlog2, <- app_assoc. by apply prefix_app_r.
        * simpl. apply elem_of_app. right. by left.
      + rewrite Hn. done.
      + apply (head_settle _ rest). simpl. by rewrite Hjobs2.
      + rewrite Hg. simpl. rewrite Hlog2. apply elem_of_app. left. apply elem_of_app.
        right. by left.
      + intros [_ Hne]%pending_settle. done.
      + intros act Hact _. by exists act.
    - split; [|split; [|split; [|split; [|split]]]]; try done.
      + apply inv_set_acts; [done| |].
        * intros act [Hact|Hact%list_elem_of_singleton]%elem_of_app.
          { by apply (inv_acts v G' [n] None s2). }
          subst act. cbn [act_promise act_name act_op act_result]. rewrite Hn2, Hlog2.
          split; [lia|]. split; [|split; [|split]].
          -- intros tr Hp Hf. rewrite Qpost, <- Epost. apply Hpost; [|done].
             etrans; [|done]. by apply prefix_app_r.
          -- apply elem_of_app. right. by left.
          -- by rewrite Qowner, <- Eowner.
          -- exists t, nx. apply elem_of_app. by left.
        * intros act Hact _. exists act. split; [|done]. apply elem_of_app. by left.
      + simpl. rewrite Hjobs2. eauto.
      + simpl. rewrite Hlog2. apply elem_of_app. right. by left.
      + intros _. right. exists (Activation n name a k (task_result t)).
        split; [|done]. simpl. apply elem_of_app. right. by left.
      + intros act Hact _. by exists act. }
  (* the promise of the call is adopted *)
  destruct (subscribe_frame n (Adopt a) s3) as (Hl4 & Hac4 & Hg4 & Hn4).
  assert (inv_at v G' [] None (subscribe n (Adopt a) s3)) as H4.
  { eapply inv_discharge.
    - eapply (inv_subscribe v G' [n] [n]); [done|lia| | | | |].
      + split; simpl; [lia|done].
      + intros name' t' a' [=].
      + intros tr o _. change (post G' n tr o -> post G' a tr o). by rewrite Qpost, Epost.
      + change (target (Adopt a)) with a. rewrite Qrank, Qowner, Eowner. split; [lia|done].
      + intros x Hx. by right.
    - intros x Hx%list_elem_of_singleton. subst x. right.
      intros Hp%pending_subscribe.
      eapply has_resolver_mono; [intros r; apply armed_subscribe| |by apply Hres3].
      intros act Hact. exists act. by rewrite Hac4. }
  destruct (head_subscribe _ rest3 n (Adopt a) s3 Hj3) as [rest4 Hj4].
  eapply inv_pop_job; [done|done|..].
  - intros _. simpl.
    destruct (armed_pop _ _ rest4 (Adopt a) Hj4) as [Heq|Harm].
    + apply armed_subscribe_new. lia.
    + done.
    + left. by exists (Adopt a).
  - intros name' c tgt [=].
  - intros name' t' a' [= <- <- <-]. left. by rewrite Hg4.
Qed.

Lemma inv_tick (v : variant) (G : ghost) (s : state) :
  inv v G s -> exists G', inv v G' (tick s).
Proof.
  intros Hinv. destruct (jobs s) as [|[r o] rest] eqn:Hj.
  { exists G. by rewrite tick_idle. }
  rewrite (tick_run_pop s _ _ Hj).
  assert (queued s r o) as Hq by (unfold queued; rewrite Hj; by left).
  destruct (inv_queued_facts v G [] None s r o Hinv Hq) as (Hwf & Hrpre & Hrank).
  destruct r as [name t a|h tgt|name next tgt|tgt].
  - (* last.then(task) *)
    destruct o as [val|e]; [by eapply inv_call_task|].
    exists G. destruct Hrpre as [Hpre Hpost], Hwf as [Ha _].
    apply (inv_settle_pop v G (emit (Skip name a) s) (ThenTask name t a, Rejected e) rest
             (Rejected e)).
    + apply inv_emit_skip; [done|done| |by exists e].
      exists e. by apply (src_job G s (inv_src _ _ _ _ _ Hinv) name t a).
    + done.
    + intros name' c tgt [=].
    + intros name' t' a' [= <- <- <-]. right. simpl. apply elem_of_app. right. by left.
    + intros _. apply Hpost; [by apply prefix_app_r|].
      simpl. apply elem_of_app. right. by left.
  - (* .catch(handler) *)
    exists G. destruct h as [|name next], o as [val|e]; simpl.
    + apply (inv_settle_pop v G s (Catch Recover tgt, Fulfilled val) rest (Fulfilled val));
        try done.
    + apply (inv_settle_pop v G s (Catch Recover tgt, Rejected e) rest
               (Fulfilled (VResponse previous_task_failed))); try done.
    + apply (inv_settle_pop v G s (Catch (Rethrow name next) tgt, Fulfilled val) rest
               (Fulfilled val)); try done.
      intros _. apply Hrpre.
    + destruct Hrpre as [Htgt Hnext].
      destruct (cleanup_frame name next s) as (Hs & Hjc & Ha & Hg).
      apply (inv_settle_pop v G (cleanup name next s) (Catch (Rethrow name next) tgt, Rejected e)
               rest (Rejected e)); try done.
      * apply inv_cleanup; [done|]. intros _. by exists (Rejected e).
      * by rewrite Hjc.
      * intros _. by rewrite Hg.
  - (* .finally(cleanup) *)
    exists G. destruct Hrpre as [Htgt [o' Hnext]], Hwf as [Ht Hn]. simpl in Ht, Hn, Hrank.
    destruct (cleanup_frame name next s) as (Hs & Hjc & Ha & Hg).
    simpl.
    eapply (inv_pop_job v G [] None _ (Finally name next tgt, o) (rest ++ [(Adopt tgt, o)])).
    + eapply (inv_push_job v G [] []).
      * apply inv_cleanup; [done|]. intros _. by exists o'.
      * rewrite Hs. by split.
      * intros name' t' a' [=].
      * simpl. by rewrite Hg.
      * done.
      * intros x Hx. by apply elem_of_nil in Hx.
    + simpl. by rewrite Hjc, Hj.
    + intros _. left. exists (Adopt tgt). split; [|done]. left. exists o.
      unfold queued, pop_job. simpl. rewrite Hjc, Hj. simpl.
      apply elem_of_app. right. by left.
    + intros name' c tgt' [= <- <- <-]. simpl. rewrite cleanup_lookup.
      case_decide as Hd; [done|]. intros Hl. apply Hd. done.
    + intros name' t' a' [=].
  - (* adoption *)
    exists G. simpl.
    apply (inv_settle_pop v G s (Adopt tgt, o) rest o); try done.
Qed.

(** ** The completion of an awaited I/O keeps the invariant *)

Lemma elem_of_delete_other {A} (l : list A) (i : nat) (x y : A) :
  l !! i = Some x -> y ∈ l -> y <> x -> y ∈ delete i l.
Proof.
  intros Hi [j Hj]%list_elem_of_lookup Hne.
  assert (j <> i) by (intros ->; congruence).
  destruct (decide (j < i)).
  - apply (list_elem_of_lookup_2 _ j). by rewrite list_lookup_delete_lt.
  - apply (list_elem_of_lookup_2 _ (pred j)).
    rewrite list_lookup_delete_ge by lia. by replace (S (pred j)) with j by lia.
Qed.

Lemma elem_of_insert_cases {A} (l : list A) (i : nat) (x y : A) :
  y ∈ <[i := x]> l -> y = x \/ y ∈ l.
Proof.
  intros [j Hj]%list_elem_of_lookup. destruct (decide (i = j)) as [->|Hne].
  - destruct (decide (j < length l)).
    + rewrite list_lookup_insert_eq in Hj by done. left. congruence.
    + rewrite list_insert_ge in Hj by lia. right. by eapply list_elem_of_lookup_2.
  - rewrite list_lookup_insert_ne in Hj by done. right. by eapply list_elem_of_lookup_2.
Qed.

Lemma inv_io_done (v : variant) (G : ghost) (i : nat) (s : state) :
  inv v G s -> inv v G (io_done i s).
Proof.
  intros Hinv. pose proof (io_done_cases i s) as Hc.
  destruct (acts s !! i) as [act|] eqn:Hi; [|by rewrite Hc].
  assert (act ∈ acts s) as Hact by by eapply list_elem_of_lookup_2.
  destruct (inv_acts v G [] None s act Hinv Hact) as ([Hq Ha] & Hpost & Hstart & Howner & Henq).
  destruct (act_left act) as [|k]; rewrite Hc; clear Hc.
  - (* the call returns *)
    set (s1 := emit (Fin (act_name act) (act_op act)) s).
    assert (inv v G s1) as H1 by by apply inv_emit_fin.
    destruct (settle_frame (act_promise act) (act_result act) s1) as (Hl & Hac & Hg & Hn).
    assert (inv v G (settle (act_promise act) (act_result act) s1)) as H2.
    { apply inv_settle; [done|]. intros _. apply Hpost; [by apply prefix_app_r|].
      apply elem_of_app. right. by left. }
    apply inv_set_acts; [done| |].
    + intros act' Hact'%list_elem_of_delete_inv.
      apply (inv_acts v G [] None _ act' H2). by rewrite Hac.
    + rewrite Hac. intros act' Hact' [_ Hne]%pending_settle.
      exists act'. split; [|done].
      apply (elem_of_delete_other _ _ act); [done|done|]. by intros ->.
  - (* the call goes on to its next await *)
    apply inv_set_acts; [done| |].
    + intros act' [->|Hact']%elem_of_insert_cases; [|by apply (inv_acts v G [] None s)].
      simpl. repeat split; done.
    + intros act' [j Hj]%list_elem_of_lookup _. destruct (decide (i = j)) as [->|Hne].
      * assert (act' = act) as -> by congruence.
        eexists. split; [apply list_elem_of_insert; by eapply lookup_lt_Some|done].
      * exists act'. split; [|done].
        apply (list_elem_of_lookup_2 _ j). by rewrite list_lookup_insert_ne.
Qed.

(** ** A call of [queue] keeps the invariant *)

Lemma lock_post_mono (v : variant) (L0 : list event) (name : string)
    (tr tr' : list event) (o : outcome) :
  tr `prefix_of` tr' -> lock_post v L0 name tr o -> lock_post v L0 name tr' o.
Proof.
  intros Hp [H1 H2]. split; [|done]. intros x tx nx Hx. eapply done_mono; [done|]. by eapply H1.
Qed.

Lemma link_post_mono (v : variant) (L0 : list event) (name : string) (a : nat)
    (res : outcome) (tr tr' : list event) (o : outcome) :
  tr `prefix_of` tr' -> link_post v L0 name a res tr o -> link_post v L0 name a res tr' o.
Proof.
  intros Hp (H1 & H2 & H3). split; [|split].
  - intros x tx nx Hx. eapply done_mono; [done|]. by eapply H1.
  - by eapply done_mono.
  - destruct H3 as [[Hf ->]|Hs].
    + left. split; [by eapply elem_of_prefix|done].
    + right. destruct v; try done.
      * destruct Hs as (e & -> & Hsk & Hx). exists e. split; [done|].
        split; [by eapply elem_of_prefix|done].
      * destruct Hs as (e & -> & Hsk & Hx). exists e. split; [done|].
        split; [by eapply elem_of_prefix|done].
Qed.

Lemma queue_ghost_monotone (v : variant) (L0 : list event) (name : string) (t : task)
    (m last last_rank : nat) :
  monotone (post (queue_ghost v L0 name t m last last_rank)) /\
  monotone (pre (queue_ghost v L0 name t m last last_rank)).
Proof.
  unfold monotone. split; intros p tr0 tr1 o Hp; simpl.
  - repeat case_decide; try by apply lock_post_mono.
    + by apply link_post_mono.
    + by apply link_post_mono.
    + destruct v; try done. by apply link_post_mono.
  - by apply lock_post_mono.
Qed.

(** The promise a new link is attached to: the stored one, or a promise
    that is resolved from the start. *)
Lemma get_last_inv (v : variant) (G : ghost) (name : string) (t : task) (s : state) :
  inv v G s ->
  exists (last_rank : nat),
    let last := (get_last name s).1 in
    let s0 := (get_last name s).2 in
    let m := length (store s0) in
    let G' := extend (length (store s)) G (queue_ghost v (log s) name t m last last_rank) in
    inv v G' s0 /\
    last < m /\ length (store s) <= m /\
    log s0 = log s /\
    (forall tr o, log s `prefix_of` tr -> post G' last tr o -> lock_post v (log s) name tr o) /\
    owner G' last = name /\ rank G' last = last_rank.
Proof.
  intros Hinv. unfold get_last. destruct (locks s !! name) as [last|] eqn:Hl.
  - exists (rank G last). cbv zeta. cbn [fst snd].
    set (N := queue_ghost v (log s) name t (length (store s)) last (rank G last)).
    assert (last < length (store s)) as Hlt by by eapply wf_lock; [apply Hinv|].
    destruct (extend_below (length (store s)) G N last Hlt) as (Ep & _ & Eo & Er & _).
    destruct (queue_ghost_monotone v (log s) name t (length (store s)) last (rank G last))
      as [Hm1 Hm2].
    split; [by apply inv_extend|]. split_and!; try done.
    + intros tr o Hp Hpost. rewrite Ep in Hpost.
      by eapply (pl_lock v G s (inv_pl _ _ _ _ _ Hinv)).
    + rewrite Eo. by destruct (lv_lock G [] None s (inv_lv _ _ _ _ _ Hinv) name last Hl).
  - exists 0. cbv zeta. cbn [fst snd alloc store log length]. rewrite length_app.
    cbn [length]. set (n := length (store s)).
    set (N := queue_ghost v (log s) name t (n + 1) n 0).
    destruct (extend_above n G N n (le_n n)) as (Ep & _ & Eo & Er & _).
    destruct (queue_ghost_monotone v (log s) name t (n + 1) n 0) as [Hm1 Hm2].
    assert (post N n = lock_post v (log s) name) as Hpn.
    { simpl. rewrite decide_True by lia. done. }
    assert (inv v (extend n G N) s) as Hext by by apply inv_extend.
    split; [|split_and!; try done; try lia].
    + apply (inv_alloc_settled v (extend n G N) [] None (Fulfilled VNull) s Hext).
      fold n. rewrite Ep, Hpn. split; [|done].
      by apply (pl_nolock v G s (inv_pl _ _ _ _ _ Hinv)).
    + intros tr o _. by rewrite Ep, Hpn.
    + rewrite Er. simpl. by rewrite decide_True by lia.
Qed.

Lemma queue_ghost_chain (v : variant) (G : ghost) (L0 : list event) (name : string)
    (t : task) (n m last last_rank : nat) :
  n <= m ->
  chain_ghost v (extend n G (queue_ghost v L0 name t m last last_rank)) L0 name t m
    last last_rank.
Proof.
  intros Hle. unfold chain_ghost, extend, queue_ghost. simpl.
  rewrite !(decide_False (P := m < n)), !(decide_False (P := S m < n)),
    !(decide_False (P := S (S m) < n)) by lia.
  rewrite !(decide_False (P := m < m)), !(decide_False (P := S m < m)),
    !(decide_False (P := S (S m) < m)) by lia.
  rewrite !(decide_True (P := m = m)) by done.
  rewrite !(decide_False (P := S m = m)), !(decide_False (P := S (S m) = m)) by lia.
  rewrite !(decide_True (P := S m = S m)) by done.
  rewrite !(decide_False (P := S (S m) = S m)) by lia.
  split_and!; try done; lia.
Qed.

Lemma then_outcome_link (v : variant) (L0 : list event) (name : string) (t : task)
    (a : nat) (tr tr' : list event) (o : outcome) :
  lock_post v L0 name tr o -> tr `prefix_of` tr' -> op_done name a o tr' ->
  link_post v L0 name a (task_result t) tr' (then_outcome t o).
Proof.
  intros [Hd Hc] Hp Hop. split; [|split].
  - intros x tx nx Hx. eapply done_mono; [done|]. by eapply Hd.
  - by eapply op_done_done.
  - destruct o as [val|e]; simpl in *; [by left|]. right.
    destruct v; try done.
    + destruct Hc as (x & tx & [nx Hx] & Hr). exists e. split_and!; try done. by exists x, tx, nx.
    + destruct Hc as (x & tx & [nx Hx] & Hr). exists e. split_and!; try done. by exists x, tx, nx.
Qed.

Lemma link_post_catch (v : variant) (L0 : list event) (name : string) (t : task)
    (a : nat) (tr : list event) (o : outcome) :
  link_post v L0 name a (task_result t) tr o ->
  link_post v L0 name a (delivered v (task_result t)) tr
    (match v with Part001 => recover o | _ => o end).
Proof.
  intros (H1 & H2 & H3). split; [done|]. split; [done|].
  destruct v; try done.
  destruct H3 as [[Hf ->]|[]]. left. done.
Qed.

(** [last.then(task)] and [.catch(handler)]. *)
Lemma inv_then_catch (v : variant) (G : ghost) (name : string) (t : task) (last : nat)
    (last_rank : nat) (s0 : state) :
  let m := length (store s0) in
  let h := match v with Part001 => Recover | _ => Rethrow name (S m) end in
  let s2 := subscribe m (Catch h (S m))
              (alloc (Pending [])
                 (subscribe last (ThenTask name t m) (alloc (Pending []) s0).2)).2 in
  inv v G s0 -> last < m ->
  chain_ghost v G (log s0) name t m last last_rank ->
  (forall tr o, log s0 `prefix_of` tr -> post G last tr o -> lock_post v (log s0) name tr o) ->
  owner G last = name -> rank G last = last_rank ->
  inv_at v G [] (Some (name, t, m)) s2 /\
  length (store s2) = S (S m) /\ log s2 = log s0 /\ locks s2 = locks s0 /\
  armed s2 (ThenTask name t m).
Proof.
  intros m h s2 Hinv Hlast (Pa & Pb & Pc & Qa & (Oa & Ob & Oc) & (Ra & Rb & Rc) & Sa)
    Hlock Hol Hrl.
  subst s2.
  (* the promise of then *)
  pose proof (inv_alloc_pending v G [] (Some (name, t, m)) s0
                (Inv _ _ _ _ _ (inv_wf _ _ _ _ _ Hinv) (inv_src _ _ _ _ _ Hinv)
                   (inv_pl _ _ _ _ _ Hinv)
                   (lv_expect _ _ (name, t, m) _ (inv_lv _ _ _ _ _ Hinv)))) as H1.
  fold m in H1.
  remember ((alloc (Pending []) s0).2) as sa eqn:Esa.
  assert (length (store sa) = S m /\ log sa = log s0 /\ locks sa = locks s0) as (Hna & Hga & Hla).
  { subst sa. destruct (alloc_frame (Pending []) s0) as (? & ? & ? & ? & ?). done. }
  assert (inv_at v G [] (Some (name, t, m)) (subscribe last (ThenTask name t m) sa)) as H2.
  { eapply (inv_subscribe v G [m] []); [done|lia| | | | |].
    - split; simpl; [lia|done].
    - intros name' t' a' [= <- <- <-]. split_and!; try done. by left.
    - intros tr o Hp Hpo. rewrite Hga in Hp. split.
      + rewrite Qa. by apply Hlock.
      + intros tr' Hp' Hop. rewrite Pa. eapply then_outcome_link; [by apply Hlock|done|done].
    - change (target (ThenTask name t m)) with m. rewrite Ra, Oa, Hol, Hrl. split; [lia|done].
    - intros x Hx%list_elem_of_singleton. by left. }
  destruct (subscribe_frame last (ThenTask name t m) sa) as (Hl1 & _ & Hg1 & Hn1).
  remember (subscribe last (ThenTask name t m) sa) as s1 eqn:Es1.
  assert (armed s1 (ThenTask name t m)) as Harm1.
  { subst s1. apply armed_subscribe_new. lia. }
  (* the promise of catch *)
  pose proof (inv_alloc_pending v G [] _ s1 H2) as H3. rewrite Hn1, Hna in H3.
  remember ((alloc (Pending []) s1).2) as sb eqn:Esb.
  assert (length (store sb) = S (S m) /\ log sb = log s1 /\ locks sb = locks s1)
    as (Hnb & Hgb & Hlb).
  { subst sb. destruct (alloc_frame (Pending []) s1) as (? & ? & ? & ? & ?).
    split_and!; try done. lia. }
  destruct (subscribe_frame m (Catch h (S m)) sb) as (Hl2 & _ & Hg2 & Hn2).
  split_and!.
  - eapply (inv_subscribe v G [S m] []); [done|lia| | | | |].
    + split; [simpl; lia|]. subst h. destruct v; simpl; try done; lia.
    + intros name' t' a' [=].
    + intros tr o Hp Hpo. rewrite Pa in Hpo. apply (link_post_catch v) in Hpo.
      subst h. destruct v; simpl; rewrite ?Pb; done.
    + change (target (Catch h (S m))) with (S m). rewrite Ra, Rb, Oa, Ob. split; [lia|done].
    + intros x Hx%list_elem_of_singleton. by left.
  - lia.
  - congruence.
  - congruence.
  - apply armed_subscribe. subst sb. by apply armed_alloc.
Qed.

Lemma link_lock (v : variant) (L0 : list event) (name : string) (a : nat) (t : task)
    (c : nat) (tr : list event) (o : outcome) :
  link_post v L0 name a (delivered v (task_result t)) tr o ->
  lock_post v (L0 ++ [Enq name a t c]) name tr o.
Proof.
  intros (H1 & H2 & H3). split.
  - intros x tx nx [Hx|Hx%list_elem_of_singleton]%elem_of_app; [by eapply H1|].
    by simplify_eq.
  - destruct o as [val|e]; [done|]. simpl.
    destruct v; simpl in *.
    + destruct H3 as [[Hf Ho]|(e' & [= <-] & _ & x & tx & nx & Hx & Hr)].
      * exists a, t. split; [|done]. exists c. apply elem_of_app. right. by left.
      * exists x, tx. split; [|done]. exists nx. apply elem_of_app. by left.
    + destruct H3 as [[Hf Ho]|(e' & [= <-] & _ & x & tx & nx & Hx & Hr)].
      * exists a, t. split; [|done]. exists c. apply elem_of_app. right. by left.
      * exists x, tx. split; [|done]. exists nx. apply elem_of_app. by left.
    + destruct H3 as [[Hf Ho]|[]]. by destruct (task_result t).
Qed.

Lemma lock_turn (v : variant) (L0 : list event) (name : string) (a : nat) (t : task)
    (c : nat) (tr : list event) (o : outcome) :
  lock_post v L0 name tr o ->
  turn v (L0 ++ [Enq name a t c]) name a tr o.
Proof.
  intros [H1 H2]. split.
  - intros x tx [Hb|(ty & ny & nx & _ & Hx)]%enq_before_snoc.
    + destruct (enq_before_elem _ _ _ _ _ Hb) as [[nx Hx] _]. by eapply H1.
    + by eapply H1.
  - eapply cause_mono; [|done]. intros x tx [nx Hx].
    apply enq_before_snoc. right. by exists t, c, nx.
Qed.

Lemma link_answer (v : variant) (L0 : list event) (name : string) (a : nat) (t : task)
    (c : nat) (tr : list event) (o : outcome) :
  link_post v L0 name a (delivered v (task_result t)) tr o ->
  answer v (L0 ++ [Enq name a t c]) name a t tr o.
Proof.
  intros (H1 & H2 & [H3|H3]); [by left|]. right.
  assert (skipped L0 name a tr o) as (e & -> & Hs & x & tx & nx & Hx & Hr) by by destruct v.
  exists e. split_and!; try done. exists x, tx. split; [|done].
  apply enq_before_snoc. right. by exists t, c, nx.
Qed.

Lemma set_lock_alloc (x : promise) (name : string) (c : nat) (s : state) :
  alloc x (set_lock name c s) = ((alloc x s).1, set_lock name c (alloc x s).2).
Proof. done. Qed.

Lemma set_lock_subscribe (p : nat) (r : reaction) (name : string) (c : nat) (s : state) :
  subscribe p r (set_lock name c s) = set_lock name c (subscribe p r s).
Proof. unfold subscribe, set_lock. simpl. by destruct (store s !! p) as [[]|]. Qed.

Lemma inv_queue_part001 (G : ghost) (name : string) (t : task) (s : state) :
  inv Part001 G s -> exists G', inv Part001 G' (queue_part001 name t s).2.
Proof.
  intros Hinv. destruct (get_last_inv Part001 G name t s Hinv) as [last_rank Hget].
  cbv zeta in Hget. unfold queue_part001. cbn [snd].
  remember (get_last name s).1 as last eqn:El.
  remember (get_last name s).2 as s0 eqn:Es0.
  set (m := length (store s0)) in *.
  remember (extend (length (store s)) G
              (queue_ghost Part001 (log s) name t m last last_rank)) as G' eqn:EG.
  destruct Hget as (H0 & Hlast & Hnm & Hlog & Hlock & Hol & Hrl).
  assert (chain_ghost Part001 G' (log s0) name t m last last_rank) as Hchain.
  { subst G'. rewrite Hlog. by apply queue_ghost_chain. }
  rewrite <- Hlog in Hlock.
  destruct (inv_then_catch Part001 G' name t last last_rank s0 H0 Hlast Hchain Hlock Hol Hrl)
    as (H2 & Hn2 & Hg2 & Hl2 & Harm2).
  destruct Hchain as (Pa & Pb & Pc & Qa & (Oa & Ob & Oc) & (Ra & Rb & Rc) & Sa).
  fold m in H2, Hn2, Hg2, Hl2, Harm2. cbv zeta in H2, Hn2, Hg2, Hl2, Harm2.
  assert (length (store (subscribe last (ThenTask name t m) (alloc (Pending []) s0).2)) = S m)
    as Hb.
  { destruct (subscribe_frame last (ThenTask name t m) (alloc (Pending []) s0).2)
      as (_ & _ & _ & ->). simpl. rewrite length_app. simpl. lia. }
  rewrite (alloc_fst _ s0). fold m. rewrite (alloc_fst _ (subscribe last _ _)), Hb.
  remember (subscribe m (Catch Recover (S m))
              (alloc (Pending [])
                 (subscribe last (ThenTask name t m) (alloc (Pending []) s0).2)).2)
    as s2 eqn:Es2.
  rewrite alloc_fst, Hn2.
  exists G'.
  (* the promise of finally *)
  pose proof (inv_alloc_pending Part001 G' [] _ s2 H2) as H3. rewrite Hn2 in H3.
  remember ((alloc (Pending []) s2).2) as sc eqn:Esc.
  assert (length (store sc) = S (S (S m)) /\ log sc = log s2 /\ armed sc (ThenTask name t m))
    as (Hnc & Hgc & Harmc).
  { subst sc. destruct (alloc_frame (Pending []) s2) as (? & ? & ? & ? & ?).
    split_and!; [lia|done|by apply armed_alloc]. }
  destruct (subscribe_frame (S m) (Finally name (S (S m)) (S (S m))) sc)
    as (Hl3 & _ & Hg3 & Hn3).
  apply inv_mark.
  - eapply (inv_subscribe Part001 G' [S (S m)] []); [done|lia| | | | |].
    + split; simpl; lia.
    + intros name' t' a' [=].
    + intros tr o Hp Hpo. simpl. rewrite Pc. rewrite Pb in Hpo. split; [done|by exists o].
    + change (target (Finally name (S (S m)) (S (S m)))) with (S (S m)).
      rewrite Rb, Rc, Ob, Oc. split; [lia|done].
    + intros x Hx%list_elem_of_singleton. by left.
  - lia.
  - lia.
  - rewrite Hg3, Hgc, Hg2. apply (wf_log s0 (inv_wf _ _ _ _ _ H0)).
  - intros tr o Hpo. rewrite Pc in Hpo. rewrite Hg3, Hgc, Hg2. by apply link_lock.
  - intros tr o Hpr. rewrite Qa in Hpr. rewrite Hg3, Hgc, Hg2. by apply lock_turn.
  - intros tr o Hpo. rewrite Pc in Hpo. rewrite Hg3, Hgc, Hg2. by apply link_answer.
  - by apply armed_subscribe.
  - done.
  - exists (S (S m)). apply armed_subscribe_new. lia.
Qed.

Lemma inv_queue_server (G : ghost) (name : string) (t : task) (s : state) :
  inv ServerTs G s -> exists G', inv ServerTs G' (queue_server name t s).2.
Proof.
  intros Hinv. destruct (get_last_inv ServerTs G name t s Hinv) as [last_rank Hget].
  cbv zeta in Hget. unfold queue_server. cbn [snd].
  remember (get_last name s).1 as last eqn:El.
  remember (get_last name s).2 as s0 eqn:Es0.
  set (m := length (store s0)) in *.
  remember (extend (length (store s)) G
              (queue_ghost ServerTs (log s) name t m last last_rank)) as G' eqn:EG.
  destruct Hget as (H0 & Hlast & Hnm & Hlog & Hlock & Hol & Hrl).
  assert (chain_ghost ServerTs G' (log s0) name t m last last_rank) as Hchain.
  { subst G'. rewrite Hlog. by apply queue_ghost_chain. }
  rewrite <- Hlog in Hlock.
  destruct (inv_then_catch ServerTs G' name t last last_rank s0 H0 Hlast Hchain Hlock Hol Hrl)
    as (H2 & Hn2 & Hg2 & Hl2 & Harm2).
  destruct Hchain as (Pa & Pb & Pc & Qa & (Oa & Ob & Oc) & (Ra & Rb & Rc) & Sa).
  fold m in H2, Hn2, Hg2, Hl2, Harm2. cbv zeta in H2, Hn2, Hg2, Hl2, Harm2.
  assert (length (store (subscribe last (ThenTask name t m) (alloc (Pending []) s0).2)) = S m)
    as Hb.
  { destruct (subscribe_frame last (ThenTask name t m) (alloc (Pending []) s0).2)
      as (_ & _ & _ & ->). simpl. rewrite length_app. simpl. lia. }
  rewrite (alloc_fst _ s0). fold m. rewrite (alloc_fst _ (subscribe last _ _)), Hb.
  remember (subscribe m (Catch (Rethrow name (S m)) (S m))
              (alloc (Pending [])
                 (subscribe last (ThenTask name t m) (alloc (Pending []) s0).2)).2)
    as s2 eqn:Es2.
  rewrite set_lock_alloc. cbn [fst snd]. rewrite alloc_fst, Hn2, set_lock_subscribe.
  exists G'.
  (* the promise of finally, which is dropped *)
  pose proof (inv_alloc_pending ServerTs G' [] _ s2 H2) as H3. rewrite Hn2 in H3.
  remember ((alloc (Pending []) s2).2) as sc eqn:Esc.
  assert (length (store sc) = S (S (S m)) /\ log sc = log s2 /\ armed sc (ThenTask name t m))
    as (Hnc & Hgc & Harmc).
  { subst sc. destruct (alloc_frame (Pending []) s2) as (? & ? & ? & ? & ?).
    split_and!; [lia|done|by apply armed_alloc]. }
  destruct (subscribe_frame (S m) (Finally name (S m) (S (S m))) sc)
    as (Hl3 & _ & Hg3 & Hn3).
  apply inv_mark.
  - eapply (inv_subscribe ServerTs G' [S (S m)] []); [done|lia| | | | |].
    + split; simpl; lia.
    + intros name' t' a' [=].
    + intros tr o Hp Hpo. simpl. rewrite Pc. split; [done|by exists o].
    + change (target (Finally name (S m) (S (S m)))) with (S (S m)).
      rewrite Rb, Rc, Ob, Oc. split; [lia|done].
    + intros x Hx%list_elem_of_singleton. by left.
  - lia.
  - lia.
  - rewrite Hg3, Hgc, Hg2. apply (wf_log s0 (inv_wf _ _ _ _ _ H0)).
  - intros tr o Hpo. rewrite Pb in Hpo. rewrite Hg3, Hgc, Hg2. by apply link_lock.
  - intros tr o Hpr. rewrite Qa in Hpr. rewrite Hg3, Hgc, Hg2. by apply lock_turn.
  - intros tr o Hpo. rewrite Pb in Hpo. rewrite Hg3, Hgc, Hg2. by apply link_answer.
  - by apply armed_subscribe.
  - done.
  - exists (S (S m)). apply armed_subscribe_new. lia.
Qed.

(** ** The invariant holds in every reachable state of the queue *)

Lemma inv_step (v : variant) (G : ghost) (s : state) (i : input) :
  has_queue v = true -> inv v G s -> exists G', inv v G' (step v s i).
Proof.
  intros Hv Hinv. destruct i as [name t| |i]; simpl.
  - destruct v; [by apply (inv_queue_server G) | done | by apply (inv_queue_part001 G)].
  - by apply (inv_tick v G).
  - exists G. by apply inv_io_done.
Qed.

Lemma inv_run (v : variant) (inputs : list input) (G : ghost) (s : state) :
  has_queue v = true -> inv v G s -> exists G', inv v G' (run v inputs s).
Proof.
  intros Hv. revert G s. induction inputs as [|i inputs IH]; intros G s Hinv; simpl.
  - by exists G.
  - destruct (inv_step v G s i Hv Hinv) as [G1 H1]. by eapply IH.
Qed.

Lemma inv_reachable (v : variant) (inputs : list input) :
  has_queue v = true -> exists G, inv v G (run v inputs init).
Proof. intros Hv. eapply inv_run; [done|]. apply inv_init. Qed.

(** ** What the invariant gives *)

(** An operation is not both started and passed over. *)
Lemma start_skip_apart (v : variant) (G : ghost) (s : state) (name name' : string) (a : nat) :
  inv v G s -> Start name a ∈ log s -> Skip name' a ∈ log s -> False.
Proof.
  intros Hinv Hst Hsk.
  destruct (src_start G s (inv_src _ _ _ _ _ Hinv) name a Hst) as [val Hv].
  destruct (src_skip G s (inv_src _ _ _ _ _ Hinv) name' a Hsk) as [e He].
  unfold settled in *. congruence.
Qed.

(** When an operation starts, the operations enqueued before it under its
    name are done. *)
Lemma start_after_done (v : variant) (G : ghost) (s : state) (name : string)
    (x : nat) (tx : task) (y : nat) (l1 l2 : list event) :
  inv v G s -> enq_before (log s) name x tx y -> log s = l1 ++ Start name y :: l2 ->
  done l1 name x.
Proof.
  intros Hinv Hb Hl.
  destruct (pl_start v G s (inv_pl _ _ _ _ _ Hinv) l1 l2 name y Hl) as [val Hpre].
  destruct (enq_before_elem _ _ _ _ _ Hb) as [_ (ty & ny & Hy)].
  destruct (pl_pre v G s (inv_pl _ _ _ _ _ Hinv) name y ty ny Hy l1 _ Hpre) as [Hd _].
  by eapply Hd.
Qed.

(** In a quiescent state every promise is settled. *)
Lemma quiescent_settled (v : variant) (G : ghost) (s : state) (p : nat) :
  inv v G s -> quiescent s -> p < length (store s) -> exists o, settled s p o.
Proof.
  intros Hinv [Hj Ha]. revert p.
  assert (forall k p, rank G p < k -> ~ pending s p) as Hnp.
  { induction k as [|k IH]; intros p Hk Hp; [lia|].
    destruct (lv_resolver G [] None s (inv_lv _ _ _ _ _ Hinv) p Hp)
      as [Hin|[(r & [[o Hq]|[p' Hr]] & Ht)|(act & Hact & _)]].
    - by apply elem_of_nil in Hin.
    - unfold queued in Hq. rewrite Hj in Hq. by apply elem_of_nil in Hq.
    - destruct (lv_rank G [] None s (inv_lv _ _ _ _ _ Hinv) p' r Hr) as [Hlt _].
      rewrite Ht in Hlt.
      apply (IH p'); [lia|]. destruct Hr as (rs & Hrs & _). by exists rs.
    - rewrite Ha in Hact. by apply elem_of_nil in Hact. }
  intros p Hp. apply lookup_lt_is_Some_2 in Hp as [[rs|o] Hx]; [|by exists o].
  exfalso. apply (Hnp (S (rank G p)) p); [lia|]. by exists rs.
Qed.

(** With the microtask queue empty, a pending promise waits for a
    suspended call of its own name. *)
Lemma pending_waits (v : variant) (G : ghost) (s : state) (p : nat) :
  inv v G s -> jobs s = [] -> pending s p ->
  exists act, act ∈ acts s /\ act_name act = owner G p.
Proof.
  intros Hinv Hj. remember (rank G p) as k eqn:Hk. revert p Hk.
  induction k as [k IH] using lt_wf_ind. intros p Hk Hp.
  destruct (lv_resolver G [] None s (inv_lv _ _ _ _ _ Hinv) p Hp)
    as [Hin|[(r & [[o Hq]|[p' Hr]] & Ht)|(act & Hact & Hpa)]].
  - by apply elem_of_nil in Hin.
  - unfold queued in Hq. rewrite Hj in Hq. by apply elem_of_nil in Hq.
  - destruct (lv_rank G [] None s (inv_lv _ _ _ _ _ Hinv) p' r Hr) as [Hlt Ho].
    rewrite Ht in Hlt, Ho. rewrite <- Ho. apply (IH (rank G p')); [lia|done|].
    destruct Hr as (rs & Hrs & _). by exists rs.
  - exists act. split; [done|].
    destruct (lv_act G [] None s (inv_lv _ _ _ _ _ Hinv) act Hact) as (_ & Ho & _).
    by rewrite <- Ho, Hpa.
Qed.

Lemma enq_trichotomy (L : list event) (name : string) (x y : nat) (tx ty : task)
    (nx ny : nat) :
  Enq name x tx nx ∈ L -> Enq name y ty ny ∈ L -> x <> y ->
  enq_before L name x tx y \/ enq_before L name y ty x.
Proof.
  intros Hx Hy Hne. apply list_elem_of_split in Hx as (l1 & l2 & ->).
  apply elem_of_app in Hy as [Hy|[Hy|Hy]%elem_of_cons].
  - right. apply list_elem_of_split in Hy as (k1 & k2 & ->).
    exists k1, (k2 ++ Enq name x tx nx :: l2), ny, tx, nx.
    split; [by rewrite <- app_assoc|]. apply elem_of_app. right. by left.
  - simplify_eq.
  - left. by exists l1, l2, nx, ty, ny.
Qed.
(** ** The event loop comes to rest *)

Lemma sum_insert {A} (f : A -> nat) (l : list A) (i : nat) (x y : A) :
  l !! i = Some x ->
  sum_list_with f (<[i := y]> l) + f x = sum_list_with f l + f y.
Proof.
  revert i. induction l as [|z l IH]; intros [|i] Hi; simpl in *; try done.
  - injection Hi as ->. lia.
  - specialize (IH i Hi). lia.
Qed.

Lemma sum_delete {A} (f : A -> nat) (l : list A) (i : nat) (x : A) :
  l !! i = Some x -> sum_list_with f (delete i l) + f x = sum_list_with f l.
Proof.
  revert i. induction l as [|z l IH]; intros [|i] Hi; simpl in *; try done.
  - injection Hi as ->. lia.
  - specialize (IH i Hi). lia.
Qed.

Lemma sum_jobs_of (o : outcome) (rs : list reaction) :
  sum_list_with job_potential (map (fun r => (r, o)) rs) + length rs =
  sum_list_with (fun r => S (weight r)) rs.
Proof. induction rs as [|r rs IH]; simpl; [done|]. unfold job_potential at 1. simpl. lia. Qed.

Lemma potential_settle (p : nat) (o : outcome) (s : state) :
  potential (settle p o s) <= potential s.
Proof.
  destruct (settle_cases p o s) as [(rs & Hrs & ->)|[_ ->]]; [|done].
  unfold potential. cbn [store jobs acts].
  pose proof (sum_insert cell_potential (store s) p (Pending rs) (Settled o) Hrs) as H.
  pose proof (sum_jobs_of o rs) as H'.
  rewrite sum_list_with_app. simpl in H. lia.
Qed.

Lemma potential_subscribe (p : nat) (r : reaction) (s : state) :
  potential (subscribe p r s) <= potential s + S (weight r).
Proof.
  destruct (subscribe_cases p r s) as [(rs & Hrs & ->)|[(o & _ & ->)|[_ ->]]]; [| |lia].
  - unfold potential. cbn [store jobs acts].
    pose proof (sum_insert cell_potential (store s) p (Pending rs) (Pending (rs ++ [r])) Hrs)
      as H.
    simpl in H. rewrite sum_list_with_app in H. simpl in H. lia.
  - unfold potential. cbn [store jobs acts]. rewrite sum_list_with_app. simpl.
    unfold job_potential at 2. simpl. lia.
Qed.

Lemma potential_alloc (x : promise) (s : state) :
  potential (alloc x s).2 = potential s + cell_potential x.
Proof. unfold potential. simpl. rewrite sum_list_with_app. simpl. lia. Qed.

Lemma potential_cleanup (name : string) (next : nat) (s : state) :
  potential (cleanup name next s) = potential s.
Proof. unfold cleanup. by case_decide. Qed.

Lemma potential_with_head (j : reaction * outcome) (s : state) :
  potential (with_head j s) = potential s + job_potential j.
Proof. unfold potential. simpl. lia. Qed.

Lemma potential_call_task (name : string) (t : task) (a : nat) (s : state) :
  potential (call_task name t a s) < potential s + weight (ThenTask name t a).
Proof.
  rewrite call_task_cases. cbv zeta.
  eapply Nat.le_lt_trans; [apply potential_subscribe|].
  destruct (task_awaits t) as [|k] eqn:Hk.
  - eapply Nat.le_lt_trans.
    { apply Nat.add_le_mono_r. apply potential_settle. }
    unfold potential. simpl. rewrite sum_list_with_app, Hk. simpl. lia.
  - unfold potential. simpl. rewrite !sum_list_with_app, Hk. simpl.
    unfold act_potential at 2. simpl. lia.
Qed.

Lemma potential_run_job (j : reaction * outcome) (s : state) :
  potential (run_job j s) < potential s + job_potential j.
Proof.
  destruct j as [[name t a|h tgt|name next tgt|tgt] o]; unfold job_potential; simpl.
  - destruct o as [val|e].
    + apply potential_call_task.
    + eapply Nat.le_lt_trans; [apply potential_settle|]. unfold potential. simpl. lia.
  - destruct h, o as [val|e].
    + eapply Nat.le_lt_trans; [apply potential_settle|]. lia.
    + eapply Nat.le_lt_trans; [apply potential_settle|]. lia.
    + eapply Nat.le_lt_trans; [apply potential_settle|]. lia.
    + eapply Nat.le_lt_trans; [apply potential_settle|]. rewrite potential_cleanup. lia.
  - unfold push_job, potential. cbn [store jobs acts].
    destruct (cleanup_frame name next s) as (-> & -> & -> & _).
    rewrite sum_list_with_app. unfold job_potential. simpl. lia.
  - eapply Nat.le_lt_trans; [apply potential_settle|]. lia.
Qed.

Lemma potential_tick (s : state) : jobs s <> [] -> potential (tick s) < potential s.
Proof.
  intros Hj. unfold tick. destruct (jobs s) as [|j rest] eqn:Hjs; [done|].
  eapply Nat.lt_le_trans; [apply potential_run_job|].
  unfold potential. rewrite Hjs. simpl. lia.
Qed.

Lemma potential_io_done (s : state) : acts s <> [] -> potential (io_done 0 s) < potential s.
Proof.
  intros Ha. destruct (acts s) as [|act rest] eqn:Has; [done|].
  pose proof (io_done_cases 0 s) as H. rewrite Has in H. simpl in H.
  destruct (act_left act) as [|k] eqn:Hk; rewrite H.
  - unfold set_acts. 
    pose proof (potential_settle (act_promise act) (act_result act)
                  (emit (Fin (act_name act) (act_op act)) s)) as Hs.
    destruct (settle_frame (act_promise act) (act_result act)
                (emit (Fin (act_name act) (act_op act)) s)) as (_ & Hacts & _).
    unfold potential in *. cbn [store jobs acts] in *. rewrite Hacts in Hs.
    simpl in Hs. rewrite Has in Hs. rewrite Has. simpl in *.
    assert (0 < act_potential act) by (unfold act_potential; lia). lia.
  - unfold set_acts, potential. simpl. rewrite Has. simpl.
    unfold act_potential at 1 3. simpl. rewrite Hk. lia.
Qed.

(** The fair schedule brings every state to rest. *)
Lemma drain_quiescent (n : nat) (s : state) : potential s <= n -> quiescent (drain n s).
Proof.
  revert s. induction n as [|n IH]; intros s Hn; simpl.
  - unfold potential in Hn. destruct s as [st lk [|j jb] [|a ac] lg]; simpl in *;
      unfold quiescent; simpl; try done;
      unfold job_potential, act_potential in Hn; try lia.
    destruct j as [[] ?]; simpl in Hn; lia.
  - destruct (jobs s) as [|j jb] eqn:Hj.
    + destruct (acts s) as [|a ac] eqn:Ha; [done|].
      apply IH. pose proof (potential_io_done s). rewrite Ha in H.
      assert (potential (io_done 0 s) < potential s) by by apply H. lia.
    + apply IH. pose proof (potential_tick s). rewrite Hj in H.
      assert (potential (tick s) < potential s) by by apply H. lia.
Qed.

Lemma run_drain (v : variant) (n : nat) (s : state) :
  run v (drain_inputs n s) s = drain n s.
Proof.
  revert s. induction n as [|n IH]; intros s; simpl; [done|].
  destruct (jobs s) as [|j jb]; [destruct (acts s) as [|a ac]|]; simpl; by rewrite ?IH.
Qed.

Lemma run_app (v : variant) (l1 l2 : list input) (s : state) :
  run v (l1 ++ l2) s = run v l2 (run v l1 s).
Proof. apply fold_left_app. Qed.
(** ** What the caller of [queue] receives *)

(** From every reachable state the event loop can be brought to rest. *)
Lemma comes_to_rest (v : variant) (inputs : list input) :
  exists more, quiescent (run v (inputs ++ more) init).
Proof.
  set (s := run v inputs init).
  exists (drain_inputs (potential s) s).
  rewrite run_app. fold s. rewrite run_drain. by apply drain_quiescent.
Qed.


(** ** The claims about the queue *)

Ltac in_list := repeat first [apply list_elem_of_here | apply list_elem_of_further].

(** C2 (as amended): in the two programs that have the queue (server.ts
    and part_001), operations enqueued under one name run one after the
    other in enqueue order: when the later one starts, the earlier one,
    if it runs at all, has ended. *)
Theorem C2_queue_sequential (v : variant) : has_queue v = true -> sequential v.
Proof.
  intros Hv inputs name x tx y l1 l2 s Hb Hl Hx.
  destruct (inv_reachable v inputs Hv) as [G Hinv]. fold s in Hinv.
  destruct (start_after_done v G s name x tx y l1 l2 Hinv Hb Hl) as [Hf|Hs]; [done|].
  exfalso. apply (start_skip_apart v G s name name x Hinv Hx).
  rewrite Hl. apply elem_of_app. by left.
Qed.

Lemma C2_queue_sequential_witness :
  Fin "acme" 1 ∈ take 4 (log (run Part001 two_requests init)).
Proof.
  apply (C2_queue_sequential Part001 eq_refl two_requests "acme" 1 (Task 1 boom) 5
           (take 4 (log (run Part001 two_requests init))) [Fin "acme" 5]).
  - exists [], (tail (log (run Part001 two_requests init))), 3, (Task 0 ok200), 7.
    split; [by vm_compute|]. vm_compute. in_list.
  - by vm_compute.
  - vm_compute. in_list.
Defined.

(** C2 does not hold of part_000: it has no queue, so a second request
    for a name starts while the first is still waiting for its build. *)
Lemma C2_counterexample : ~ sequential Part000.
Proof.
  intros H.
  specialize (H together "acme" 0 (Task 1 ok200) 2
                (take 3 (log (run Part000 together init))) []).
  cbv zeta in H.
  assert (Fin "acme" 0 ∈ take 3 (log (run Part000 together init))) as Hf.
  { apply H.
    - exists [], (tail (log (run Part000 together init))), 0, (Task 1 ok200), 2.
      split; [by vm_compute|]. vm_compute. in_list.
    - by vm_compute.
    - vm_compute. in_list. }
  vm_compute in Hf.
  repeat (apply elem_of_cons in Hf as [Hf|Hf]; [discriminate Hf|]).
  by apply elem_of_nil in Hf.
Qed.

(** C8: operations of different names do not hold one another back. In
    server.ts and part_001, whenever the microtask queue is empty, an
    operation that was enqueued and has neither started nor been passed
    over waits for a running operation that was enqueued before it under
    its own name; an operation of another name never delays it. *)
Theorem C8_names_independent (v : variant) (inputs : list input) (name : string)
    (y : nat) (t : task) (ny : nat) :
  has_queue v = true ->
  let s := run v inputs init in
  jobs s = [] ->
  Enq name y t ny ∈ log s ->
  Start name y ∉ log s ->
  Skip name y ∉ log s ->
  exists act tx,
    act ∈ acts s /\ act_name act = name /\ enq_before (log s) name (act_op act) tx y.
Proof.
  intros Hv s Hj He Hns Hnk.
  destruct (inv_reachable v inputs Hv) as [G Hinv]. fold s in Hinv.
  pose proof (inv_lv _ _ _ _ _ Hinv) as Hlv.
  destruct (lv_enq G [] None s Hlv name y t ny He) as [?|[?|Harm]]; [done|done|].
  destruct (lv_then G [] None s Hlv name t y Harm) as [Hown _].
  destruct Harm as [[o Hq]|[p Hr]].
  { unfold queued in Hq. rewrite Hj in Hq. by apply elem_of_nil in Hq. }
  destruct (lv_rank G [] None s Hlv p _ Hr) as [_ Hop]. simpl in Hop.
  assert (pending s p) as Hp by (destruct Hr as (rs & Hrs & _); by exists rs).
  destruct (pending_waits v G s p Hinv Hj Hp) as (act & Hact & Hname).
  rewrite Hop, Hown in Hname.
  destruct (lv_act G [] None s Hlv act Hact) as (Hst & _ & tx & nx & Hex).
  rewrite Hname in Hst, Hex.
  exists act, tx. split_and!; [done|done|].
  assert (act_op act <> y) as Hne by (intros Heq; by rewrite Heq in Hst).
  destruct (enq_trichotomy (log s) name (act_op act) y tx t nx ny Hex He Hne)
    as [Hb|Hb]; [done|exfalso].
  apply list_elem_of_split in Hst as (l1 & l2 & Hl).
  destruct (start_after_done v G s name y t (act_op act) l1 l2 Hinv Hb Hl) as [Hf|Hs].
  - apply Hns, (lv_fin G [] None s Hlv). rewrite Hl. apply elem_of_app. by left.
  - apply Hnk. rewrite Hl. apply elem_of_app. by left.
Qed.

Lemma C8_names_independent_witness :
  exists act tx,
    act ∈ acts (run ServerTs waiting init) /\ act_name act = "acme" /\
    enq_before (log (run ServerTs waiting init)) "acme" (act_op act) tx 10.
Proof.
  apply (C8_names_independent ServerTs waiting "acme" 10 (Task 0 ok200) 11 eq_refl).
  - by vm_compute.
  - vm_compute. in_list.
  - vm_compute. intros H.
    repeat (apply elem_of_cons in H as [H|H]; [discriminate H|]).
    by apply elem_of_nil in H.
  - vm_compute. intros H.
    repeat (apply elem_of_cons in H as [H|H]; [discriminate H|]).
    by apply elem_of_nil in H.
Defined.

(** C3: in server.ts and part_001, in every reachable state, (1) each
    entry of the name-to-chain map has its cleanup scheduled, so the
    cleanup runs once the link has finished; (2) when the cleanup of the
    link [next] runs, the entry of its name is removed if it still is
    [next], an entry holding a newer link is kept, and the entries of the
    other names are kept; (3) in a quiescent state the map is empty, so an
    enqueue for any name then starts from the resolved promise of an
    absent chain. *)
Theorem C3_cleanup (v : variant) (inputs : list input) :
  has_queue v = true ->
  let s := run v inputs init in
  (forall name c, locks s !! name = Some c -> exists tgt, armed s (Finally name c tgt)) /\
  (forall name next tgt o rest,
     jobs s = (Finally name next tgt, o) :: rest ->
     let s' := tick s in
     (locks s !! name = Some next -> locks s' !! name = None) /\
     (forall c, locks s !! name = Some c -> c <> next -> locks s' !! name = Some c) /\
     (forall name', name' <> name -> locks s' !! name' = locks s !! name')) /\
  (quiescent s ->
     locks s = ∅ /\
     forall name, get_last name s = alloc (Settled (Fulfilled VNull)) s).
Proof.
  intros Hv s. destruct (inv_reachable v inputs Hv) as [G Hinv]. fold s in Hinv.
  pose proof (inv_lv _ _ _ _ _ Hinv) as Hlv.
  assert (quiescent s -> locks s = ∅) as Hq.
  { intros Hq. apply map_empty. intros name.
    destruct (locks s !! name) as [c|] eqn:Hc; [exfalso|done].
    destruct (lv_lock G [] None s Hlv name c Hc) as (_ & tgt & [[o Ho]|[p Hr]]).
    - unfold queued in Ho. rewrite (proj1 Hq) in Ho. by apply elem_of_nil in Ho.
    - pose proof Hr as (rs & Hrs & _).
      destruct (quiescent_settled v G s p Hinv Hq) as [o Ho].
      { by eapply lookup_lt_Some. }
      unfold settled in Ho. congruence. }
  split_and!.
  - intros name c Hc. by destruct (lv_lock G [] None s Hlv name c Hc).
  - intros name next tgt o rest Hj s'.
    assert (forall name', locks s' !! name' =
              if decide (name' = name /\ locks s !! name = Some next)
              then None else locks s !! name') as Hl.
    { intros name'. unfold s', tick. rewrite Hj. cbn [run_job push_job locks].
      by rewrite cleanup_lookup. }
    split_and!.
    + intros Hn. rewrite Hl, decide_True; done.
    + intros c Hc Hne. rewrite Hl, decide_False; [done|]. intros [_ ?]. congruence.
    + intros name' Hne. rewrite Hl, decide_False; [done|]. by intros [? _].
  - intros Hqs. split; [by apply Hq|]. intros name.
    unfold get_last. by rewrite (Hq Hqs), lookup_empty.
Qed.

Lemma C3_cleanup_witness :
  locks (run Part001 two_requests init) = ∅ /\
  get_last "acme" (run Part001 two_requests init) =
  alloc (Settled (Fulfilled VNull)) (run Part001 two_requests init).
Proof.
  destruct (C3_cleanup Part001 two_requests eq_refl) as (_ & _ & H).
  destruct H as [H1 H2]; [split; by vm_compute|].
  split; [exact H1 | exact (H2 "acme")].
Defined.
(* ===================================================================== *)
(** * Part III: further properties of the code                            *)
(* ===================================================================== *)

(** ** Names without a separator are one path segment *)

Lemma split_slash_segment (cur s : string) :
  has_separator s = false ->
  split_slash_aux cur s = [String.rev cur +:+ s].
Proof.
  revert cur. induction s as [|c s IH]; intros cur Hs; simpl.
  - by rewrite append_nil_r.
  - simpl in Hs. apply orb_false_elim in Hs as [Hc Hs].
    apply orb_false_elim in Hc as [Hc _]. rewrite Hc, IH by done.
    unfold String.rev. simpl. rewrite (rev_app_rev cur), append_assoc. done.
Qed.

Lemma path_join_segment (base : path) (name : string) :
  name <> "" -> has_separator name = false -> name <> "." -> name <> ".." ->
  path_join base [name] = base ++ [name].
Proof.
  intros H0 Hs H1 H2. unfold path_join. simpl. rewrite app_nil_r.
  unfold split_slash. rewrite split_slash_segment by done.
  change (String.rev "" +:+ name) with name. simpl.
  apply String.eqb_neq in H0, H1, H2. rewrite H0, H1, H2. simpl.
  by rewrite rev_involutive.
Qed.
(** ** Where the operations of a name work *)

(** X1: for a name that passes the validation and is neither "." nor
    "..", the scaffold target is the child of the output root called like
    the name, and the files and the directory that the update works on
    lie inside it. *)
Theorem project_dir_child (E : env) (name : string) :
  name <> "" -> has_separator name = false -> name <> "." -> name <> ".." ->
  create_target_dir E name = OUTPUT_DIR E ++ [name] /\
  view_path E name = OUTPUT_DIR E ++ [name; "src"; "App.vue"] /\
  (forall v, v <> Part000 -> server_path E v name = OUTPUT_DIR E ++ [name; "src"; "server.ts"]) /\
  server_path E Part000 name = OUTPUT_DIR E ++ [name; "server.ts"] /\
  package_dir E name = OUTPUT_DIR E ++ [name; "_package"].
Proof.
  intros H0 Hs H1 H2.
  assert (project_dir E name = OUTPUT_DIR E ++ [name]) as Hp
    by by apply path_join_segment.
  split_and!.
  - exact Hp.
  - by rewrite view_path_project, Hp, <- app_assoc.
  - intros v Hv. rewrite server_path_project, Hp, <- app_assoc. by destruct v.
  - by rewrite server_path_project, Hp, <- app_assoc.
  - by rewrite package_dir_project, Hp, <- app_assoc.
Qed.

Lemma project_dir_child_witness :
  create_target_dir env_plain "acme" = ["srv"; "components"; "acme"].
Proof.
  apply (project_dir_child env_plain "acme"); [discriminate | reflexivity | discriminate..].
Defined.

(** X2: two different names of that kind work in directories that have
    no path in common: nothing below the project directory of one lies
    below that of the other. *)
Theorem project_dirs_disjoint (E : env) (n1 n2 : string) (p : path) :
  n1 <> "" -> has_separator n1 = false -> n1 <> "." -> n1 <> ".." ->
  n2 <> "" -> has_separator n2 = false -> n2 <> "." -> n2 <> ".." ->
  n1 <> n2 ->
  project_dir E n1 `prefix_of` p -> ~ project_dir E n2 `prefix_of` p.
Proof.
  intros A1 A2 A3 A4 B1 B2 B3 B4 Hne [k1 ->] [k2 Hk].
  unfold project_dir in Hk. rewrite !path_join_segment in Hk by done.
  rewrite <- !app_assoc in Hk. apply app_inv_head in Hk.
  simpl in Hk. congruence.
Qed.

Lemma project_dirs_disjoint_witness :
  ~ project_dir env_plain "zenith" `prefix_of` view_path env_plain "acme".
Proof.
  apply (project_dirs_disjoint env_plain "acme" "zenith");
    try discriminate; try reflexivity.
  by exists ["src"; "App.vue"].
Defined.

(** X3: the name "." passes the validation of both routes, and its
    scaffold target is the output root itself, which holds the project
    directory of every other accepted name but "..". *)
Theorem dot_is_output_root (E : env) (view server : option string) :
  fetch_route (Request "POST" "/create/template" (Some ".") view server)
    = Enqueue "." (Create ".") /\
  fetch_route (Request "POST" "/update/template" (Some ".") view server)
    = Enqueue "." (Update "." view server) /\
  create_target_dir E "." = OUTPUT_DIR E /\
  view_path E "." = OUTPUT_DIR E ++ ["src"; "App.vue"] /\
  package_dir E "." = OUTPUT_DIR E ++ ["_package"] /\
  (forall name, name <> "" -> has_separator name = false -> name <> ".." ->
     create_target_dir E "." `prefix_of` create_target_dir E name).
Proof.
  assert (project_dir E "." = OUTPUT_DIR E) as Hp.
  { unfold project_dir, path_join. simpl. by rewrite rev_involutive. }
  split_and!; try done.
  - by rewrite view_path_project, Hp.
  - by rewrite package_dir_project, Hp.
  - intros name H0 Hs H2. change (project_dir E "." `prefix_of` project_dir E name).
    rewrite Hp. destruct (decide (name = ".")) as [->|H1]; [by rewrite Hp|].
    unfold project_dir. rewrite path_join_segment by done. by exists [name].
Qed.

Lemma dot_is_output_root_witness :
  create_target_dir env_plain "." `prefix_of` create_target_dir env_plain "acme".
Proof.
  apply (dot_is_output_root env_plain None None); [discriminate | reflexivity | discriminate].
Defined.
(** ** The validation of names *)

(** X4: whatever the request, an operation is handed on only for a POST
    to one of the two routes, under the trimmed name of the payload,
    which is the payload's name without a run of white space at each
    end; that name is not empty, has no slash or backslash and no white
    space character, of Unicode's as of ASCII's, at its ends, and the
    operation carries the same name and, for an update, the view and
    server fields as sent. *)
Theorem enqueued_name_clean (req : request) (name : string) (op : operation) :
  fetch_route req = Enqueue name op ->
  req_method req = "POST" /\
  (exists raw pre post,
     payload_name req = Some raw /\ name = trim raw /\
     blank pre /\ blank post /\ raw = pre +:+ name +:+ post) /\
  name <> "" /\ has_separator name = false /\ trim name = name /\
  ~ space_at_start name /\ ~ space_at_end name /\
  ((req_pathname req = "/create/template" /\ op = Create name) \/
   (req_pathname req = "/update/template" /\
    op = Update name (payload_view req) (payload_server req))).
Proof.
  unfold fetch_route. intros H.
  assert (forall o : option string,
            invalid_name (option_map trim o) = false ->
            (exists raw pre post,
               o = Some raw /\ default "" (option_map trim o) = trim raw /\
               blank pre /\ blank post /\
               raw = pre +:+ default "" (option_map trim o) +:+ post) /\
            default "" (option_map trim o) <> "" /\
            has_separator (default "" (option_map trim o)) = false /\
            trim (default "" (option_map trim o)) = default "" (option_map trim o) /\
            ~ space_at_start (default "" (option_map trim o)) /\
            ~ space_at_end (default "" (option_map trim o))) as Hname.
  { intros [raw|]; simpl; [|done]. intros Hv.
    apply orb_false_elim in Hv as [Hn Hs]. apply String.eqb_neq in Hn.
    destruct (trim_split raw) as (pre & post & Hpre & Hpost & Hraw).
    destruct (trim_clean raw) as [Hc1 Hc2].
    split_and!; [by exists raw, pre, post|done|done|apply trim_idempotent|done|done]. }
  destruct (String.eqb (req_pathname req) "/create/template") eqn:Hc;
    [destruct (String.eqb (req_method req) "POST") eqn:Hm|]; simpl in H.
  - destruct (invalid_name _) eqn:Hv; [done|]. injection H as <- <-.
    apply String.eqb_eq in Hc, Hm. destruct (Hname _ Hv) as (? & ? & ? & ? & ? & ?).
    split_and!; try done. by left.
  - destruct (String.eqb (req_pathname req) "/update/template"); done.
  - destruct (String.eqb (req_pathname req) "/update/template") eqn:Hu; [|done].
    destruct (String.eqb (req_method req) "POST") eqn:Hm; [|done]. simpl in H.
    destruct (invalid_name _) eqn:Hv; [done|]. injection H as <- <-.
    apply String.eqb_eq in Hu, Hm. destruct (Hname _ Hv) as (? & ? & ? & ? & ? & ?).
    split_and!; try done. by right.
Qed.

Lemma enqueued_name_clean_witness :
  trim "acme" = "acme" /\ has_separator "acme" = false /\ ~ space_at_end "acme".
Proof.
  destruct (enqueued_name_clean
              (Request "POST" "/update/template" (Some (utf8 65279 +:+ "acme "))
                 (Some "<v/>") None)
              "acme" (Update "acme" (Some "<v/>") None) eq_refl)
    as (_ & _ & _ & Hs & Ht & _ & He & _).
  by split_and!.
Defined.

(** X5: what is turned away. A request that is not a POST to one of the
    two routes is answered 404 "not found" whatever its payload; a POST to
    one of them whose name is missing, consists of white space only (the
    empty name, and any run of the white space characters that trim
    strips, U+00A0 and U+FEFF among them), or has a slash or a backslash
    anywhere is answered 400 "Invalid template name", and no operation
    is handed on. *)
Theorem requests_turned_away (req : request) :
  ((req_method req <> "POST" \/
    (req_pathname req <> "/create/template" /\ req_pathname req <> "/update/template")) ->
   fetch_route req = Respond (Response (TextBody "not found") 404 None)) /\
  (req_method req = "POST" ->
   req_pathname req = "/create/template" \/ req_pathname req = "/update/template" ->
   payload_name req = None \/
   (exists raw, payload_name req = Some raw /\
      (blank raw \/ has_separator raw = true)) ->
   fetch_route req = Respond (Response (TextBody "Invalid template name") 400 None)).
Proof.
  unfold fetch_route. split.
  - intros [Hm|[Hc Hu]].
    + apply String.eqb_neq in Hm. rewrite Hm, !andb_false_r. done.
    + apply String.eqb_neq in Hc, Hu. by rewrite Hc, Hu.
  - intros Hm Hp Hbad.
    assert (invalid_name (option_map trim (payload_name req)) = true) as Hv.
    { destruct Hbad as [->|(raw & -> & [Hsp|Hsep])]; simpl; [done| |].
      - by rewrite (trim_blank raw Hsp).
      - by rewrite has_separator_trim, Hsep, orb_true_r. }
    rewrite Hm, Hv. simpl.
    destruct Hp as [->| ->]; done.
Qed.

Lemma requests_turned_away_witness :
  fetch_route (Request "POST" "/create/template" (Some (utf8 160 +:+ " ")) None None)
  = Respond (Response (TextBody "Invalid template name") 400 None).
Proof.
  apply (requests_turned_away
           (Request "POST" "/create/template" (Some (utf8 160 +:+ " ")) None None));
    [reflexivity | by left |].
  right. exists (utf8 160 +:+ " "). split; [reflexivity | left].
  exists [utf8 160; " "]. split; [|reflexivity].
  constructor; [by apply (list_elem_of_lookup_2 _ 6)|].
  constructor; [by apply (list_elem_of_lookup_2 _ 5) | constructor].
Defined.
(** ** The replacement in the scripts of the manifest *)

Lemma strip_prefix_Some (p s r : string) : strip_prefix p s = Some r -> s = p +:+ r.
Proof.
  revert s. induction p as [|a p IH]; intros s; simpl.
  - by intros [= ->].
  - destruct s as [|b s]; [done|]. destruct (Ascii.eqb_spec a b) as [->|]; [|done].
    intros H. apply IH in H. rewrite H. done.
Qed.

Lemma match_template_Some (prev_word : bool) (s after : string) :
  match_template prev_word s = Some after -> s = "template" +:+ after.
Proof.
  unfold match_template. destruct prev_word; [done|].
  destruct (strip_prefix "template" s) as [[|c rest]|] eqn:Hs; [| |done].
  - intros [= <-]. by apply strip_prefix_Some.
  - destruct (is_word_char c); [done|]. intros [= <-]. by apply strip_prefix_Some.
Qed.

Lemma replace_template_aux_absent (name : string) (prev_word : bool) (before s : string) :
  (forall a b, s <> a +:+ "template" +:+ b) ->
  replace_template_aux name 0 prev_word before s = s.
Proof.
  revert prev_word before. induction s as [|c s IH]; intros prev_word before Hs; [done|].
  cbn [replace_template_aux].
  destruct (match_template prev_word (String c s)) as [after|] eqn:Hm.
  - apply match_template_Some in Hm. exfalso. by apply (Hs "" after).
  - f_equal. apply IH. intros a b Hab. apply (Hs (String c a) b). by rewrite Hab.
Qed.

(** X6: a manifest none of whose scripts contains the text "template" is
    changed in its name only, whatever the name is (the patterns a name
    may hold are read only where the word is found). *)
Theorem rewrite_manifest_absent (name : string) (pkg : manifest) :
  (forall scripts key value a b,
     pkg_scripts pkg = Some scripts -> (key, value) ∈ scripts ->
     value <> a +:+ "template" +:+ b) ->
  rewrite_manifest name pkg = Manifest (Some name) (pkg_scripts pkg) (pkg_other pkg).
Proof.
  intros H. unfold rewrite_manifest. f_equal.
  destruct (pkg_scripts pkg) as [scripts|]; [|done]. simpl. f_equal.
  specialize (H scripts).
  induction scripts as [|[key value] scripts IH]; [done|]. simpl. f_equal.
  - f_equal. apply replace_template_aux_absent. intros a b.
    apply (H key value a b eq_refl). by left.
  - apply IH. intros k v a b _ Hin. apply (H k v a b eq_refl). by right.
Qed.

Lemma rewrite_manifest_absent_witness :
  rewrite_manifest "a$$b" (Manifest None (Some [("dev", "vite")]) [("version", "1.0.0")])
  = Manifest (Some "a$$b") (Some [("dev", "vite")]) [("version", "1.0.0")].
Proof.
  apply (rewrite_manifest_absent "a$$b"
           (Manifest None (Some [("dev", "vite")]) [("version", "1.0.0")])).
  intros scripts key value a b [= <-] Hin.
  apply list_elem_of_singleton in Hin as [= _ ->].
  intros H. destruct a as [|c1 [|c2 [|c3 [|c4 [|c5 a]]]]]; cbv in H; discriminate H.
Defined.

Lemma string_length_append (a b : string) :
  String.length (a +:+ b) = String.length a + String.length b.
Proof.
  induction a as [|c a IH]; [done|].
  change (S (String.length (a +:+ b)) = S (String.length a + String.length b)).
  by rewrite IH.
Qed.

Lemma replace_template_aux_before (name : string) (skip : nat) (prev_word : bool)
    (b1 b2 s : string) :
  (forall c, c ∈ list_ascii_of_string name -> c <> "$"%char) ->
  replace_template_aux name skip prev_word b1 s = replace_template_aux name skip prev_word b2 s.
Proof.
  intros Hn. revert skip prev_word b1 b2.
  induction s as [|c s IH]; intros skip prev_word b1 b2; [done|].
  cbn [replace_template_aux]. destruct skip as [|k]; [|apply IH].
  destruct (match_template prev_word (String c s)) as [after|].
  - rewrite !get_substitution_no_dollar by done. f_equal. apply IH.
  - f_equal. apply IH.
Qed.

Lemma strip_prefix_append (p s1 s2 : string) (c : ascii) :
  (forall a, a ∈ list_ascii_of_string p -> a <> c) ->
  strip_prefix p (s1 +:+ String c s2) =
  option_map (fun r => r +:+ String c s2) (strip_prefix p s1).
Proof.
  revert s1. induction p as [|a p IH]; intros s1 Hp; [done|].
  destruct s1 as [|b s1].
  - simpl. change ("" +:+ String c s2) with (String c s2). simpl.
    destruct (Ascii.eqb_spec a c) as [->|]; [|done].
    exfalso. apply (Hp c); [by left|done].
  - change (String b s1 +:+ String c s2) with (String b (s1 +:+ String c s2)). simpl.
    destruct (Ascii.eqb a b); [|done]. apply IH. intros d Hd. apply Hp. by right.
Qed.

Lemma match_template_append (prev_word : bool) (s1 s2 : string) (c : ascii) :
  is_word_char c = false ->
  match_template prev_word (s1 +:+ String c s2) =
  option_map (fun r => r +:+ String c s2) (match_template prev_word s1).
Proof.
  intros Hc. unfold match_template. destruct prev_word; [done|].
  rewrite strip_prefix_append.
  - destruct (strip_prefix "template" s1) as [[|d r]|]; simpl; [| |done].
    + change ("" +:+ String c s2) with (String c s2). by rewrite Hc.
    + change (String d r +:+ String c s2) with (String d (r +:+ String c s2)).
      by destruct (is_word_char d).
  - intros a Ha Heq. subst a.
    simpl in Ha. repeat (apply elem_of_cons in Ha as [->|Ha]; [by vm_compute in Hc|]).
    by apply elem_of_nil in Ha.
Qed.

Lemma replace_template_aux_append (name : string) (s1 s2 : string) (c : ascii)
    (skip : nat) (prev_word : bool) (before : string) :
  (forall d, d ∈ list_ascii_of_string name -> d <> "$"%char) ->
  is_word_char c = false ->
  skip <= String.length s1 ->
  replace_template_aux name skip prev_word before (s1 +:+ String c s2) =
  replace_template_aux name skip prev_word before s1 +:+ String c (replace_template name s2).
Proof.
  intros Hn Hc. revert skip prev_word before.
  induction s1 as [|d r IH]; intros skip prev_word before Hk.
  - simpl in Hk. assert (skip = 0) as -> by lia.
    change ("" +:+ String c s2) with (String c s2).
    pose proof (match_template_append prev_word "" s2 c Hc) as Hm.
    change ("" +:+ String c s2) with (String c s2) in Hm.
    cbn [replace_template_aux]. rewrite Hm.
    assert (match_template prev_word "" = None) as -> by by destruct prev_word.
    simpl. rewrite Hc.
    change ("" +:+ String c (replace_template name s2))
      with (String c (replace_template name s2)).
    f_equal. by apply replace_template_aux_before.
  - change (String d r +:+ String c s2) with (String d (r +:+ String c s2)).
    cbn [replace_template_aux]. destruct skip as [|k].
    + change (String d (r +:+ String c s2)) with (String d r +:+ String c s2).
      rewrite match_template_append by done.
      destruct (match_template prev_word (String d r)) as [after|] eqn:Hm; simpl.
      * rewrite !get_substitution_no_dollar by done.
        apply match_template_Some in Hm. injection Hm as _ Hr.
        rewrite IH, append_assoc; [done|].
        rewrite Hr, string_length_append. simpl. lia.
      * rewrite IH by lia. done.
    + simpl in Hk. rewrite IH by lia. done.
Qed.

(** X7: for a name without a dollar sign the replacement works word by
    word: the text "template" alone becomes the name, and a text is
    rewritten piece by piece on both sides of any character that is not a
    letter, a digit or an underscore. *)
Theorem replace_template_words (name : string) :
  (forall d, d ∈ list_ascii_of_string name -> d <> "$"%char) ->
  replace_template name "template" = name /\
  forall s1 c s2, is_word_char c = false ->
    replace_template name (s1 +:+ String c s2) =
    replace_template name s1 +:+ String c (replace_template name s2).
Proof.
  intros Hn. split.
  - unfold replace_template. cbn [replace_template_aux]. simpl.
    rewrite get_substitution_no_dollar by done. apply append_nil_r.
  - intros s1 c s2 Hc. unfold replace_template.
    apply replace_template_aux_append; [done|done|lia].
Qed.

Lemma replace_template_words_witness :
  replace_template "acme" ("vite build" +:+ String " "%char "template") =
  replace_template "acme" "vite build" +:+ String " "%char (replace_template "acme" "template").
Proof.
  apply (replace_template_words "acme"); [|reflexivity].
  intros d Hd Heq. subst d. simpl in Hd.
  repeat (apply elem_of_cons in Hd as [Hd|Hd]; [discriminate Hd|]).
  by apply elem_of_nil in Hd.
Defined.
(** ** The mutations and the update operation *)

(** X8: update_view and update_server change nothing but the content of
    their target file: they start no process, leave every other path as
    it is, succeed exactly when the target is a file, which then holds
    the new content, leave the disk as it is when they fail, and always
    settle. *)
Theorem mutation_frame (E : env) (v : variant) (name content : string) (w : world) :
  let rv := update_view E name content w in
  let rs := update_server E v name content w in
  (spawned rv.1 = spawned w /\
   (forall p, p <> view_path E name -> fs rv.1 !! p = fs w !! p) /\
   (rv.2 = Returned tt <-> is_file w (view_path E name)) /\
   (rv.2 = Returned tt -> fs rv.1 !! view_path E name = Some (File content)) /\
   (rv.2 <> Returned tt -> rv.1 = w) /\
   rv.2 <> Hung) /\
  (spawned rs.1 = spawned w /\
   (forall p, p <> server_path E v name -> fs rs.1 !! p = fs w !! p) /\
   (rs.2 = Returned tt <-> is_file w (server_path E v name)) /\
   (rs.2 = Returned tt -> fs rs.1 !! server_path E v name = Some (File content)) /\
   (rs.2 <> Returned tt -> rs.1 = w) /\
   rs.2 <> Hung).
Proof.
  cbv zeta. split.
  - destruct (blocked (fs w) (view_path E name)) eqn:Hb.
    { rewrite (update_view_blocked E name content w Hb). simpl.
      split_and!; try done. split; [done|]. intros [Hc _]. congruence. }
    destruct (fs w !! view_path E name) as [[old|]|] eqn:Hl.
    + rewrite (update_view_file E name content old w Hb Hl). simpl.
      split_and!; try done.
      * intros p Hp. by rewrite lookup_insert_ne.
      * split; [intros _; split; [done | by exists old] | done].
      * intros _. by rewrite lookup_insert_eq.
    + rewrite (update_view_dir E name content w Hb Hl). simpl.
      split_and!; try done. split; [done|]. intros [_ [c Hc]]. congruence.
    + rewrite (update_view_missing E name content w Hb Hl). simpl.
      split_and!; try done. split; [done|]. intros [_ [c Hc]]. congruence.
  - destruct (blocked (fs w) (server_path E v name)) eqn:Hb.
    { rewrite (update_server_blocked E v name content w Hb). simpl.
      split_and!; try done. split; [done|]. intros [Hc _]. congruence. }
    destruct (fs w !! server_path E v name) as [[old|]|] eqn:Hl.
    + rewrite (update_server_file E v name content old w Hb Hl). simpl.
      split_and!; try done.
      * intros p Hp. by rewrite lookup_insert_ne.
      * split; [intros _; split; [done | by exists old] | done].
      * intros _. by rewrite lookup_insert_eq.
    + rewrite (update_server_dir E v name content w Hb Hl). simpl.
      split_and!; try done. split; [done|]. intros [_ [c Hc]]. congruence.
    + rewrite (update_server_missing E v name content w Hb Hl). simpl.
      split_and!; try done. split; [done|]. intros [_ [c Hc]]. congruence.
Qed.

Lemma mutation_frame_witness :
  fs (update_view env_plain "acme" "<new/>" world_acme).1
    !! ["srv"; "components"; "acme"; "_package"; "server.js"] = Some (File "built").
Proof.
  destruct (mutation_frame env_plain ServerTs "acme" "<new/>" world_acme)
    as [(_ & H & _) _].
  rewrite H; [reflexivity | discriminate].
Defined.

(** X9: a supplied view whose target is not a file that can be reached
    stops the update: nothing is written, the server file is not touched
    even when a server content was supplied, and no process is started.
    In part_001 the rm of _package comes first, and when a file lies on
    its way the update ends there with the 500 of its ENOTDIR error.
    Otherwise the failure is that of update_view (500 in server.ts and
    part_001, an exception in part_000): it says "not found" when the way
    to App.vue is open and nothing is there, and "File system error" when
    a file lies on the way or a directory is at the path. *)
Theorem update_view_failure (E : env) (v : variant) (name : string)
    (view server : option string) (w : world) :
  truthy view = true -> ~ is_file w (view_path E name) ->
  let r := update_operation E v name view server w in
  r.1 = after_rm E v name w /\
  spawned r.1 = spawned w /\
  (forall p, ~ package_dir E name `prefix_of` p -> fs r.1 !! p = fs w !! p) /\
  (v = Part001 -> blocked (fs w) (package_dir E name) = true ->
     r = (w, Returned (error_response (rm_blocked E name)))) /\
  ((v = Part001 -> blocked (fs w) (package_dir E name) = false) ->
     exists message,
       r.2 = update_answer v name (Threw (new_Error message)) /\
       (blocked (fs w) (view_path E name) = false -> fs w !! view_path E name = None ->
          message = not_found_message "App.vue" (view_path E name)) /\
       (blocked (fs w) (view_path E name) = true \/ fs w !! view_path E name = Some Dir ->
          message = fs_error_message name)).
Proof.
  intros Hv Hnf r. subst r. rewrite update_operation_steps.
  assert ((v = Part001 -> blocked (fs w) (package_dir E name) = false) ->
          exists message,
            update_steps E v name view server w
              = (after_rm E v name w, Threw (new_Error message)) /\
            (blocked (fs w) (view_path E name) = false -> fs w !! view_path E name = None ->
               message = not_found_message "App.vue" (view_path E name)) /\
            (blocked (fs w) (view_path E name) = true \/ fs w !! view_path E name = Some Dir ->
               message = fs_error_message name)) as Hopen.
  { intros Hb. rewrite update_steps_after_rm by done. unfold update_tail. rewrite Hv. io_next.
    pose proof (after_rm_view E v name w) as Hl.
    pose proof (after_rm_view_blocked E v name w) as Hbl.
    destruct (blocked (fs w) (view_path E name)) eqn:Hway.
    { rewrite (bind_threw _ _ _ _ _ (update_view_blocked E name _ _ Hbl)).
      eexists. split; [reflexivity|]. split; [done|done]. }
    destruct (fs w !! view_path E name) as [[old|]|] eqn:Hw.
    - exfalso. apply Hnf. split; [done | by exists old].
    - rewrite (bind_threw _ _ _ _ _ (update_view_dir E name _ _ Hbl Hl)).
      eexists. split; [reflexivity|]. split; [done|done].
    - rewrite (bind_threw _ _ _ _ _ (update_view_missing E name _ _ Hbl Hl)).
      eexists. split; [reflexivity|]. split; [done|]. intros [?|?]; done. }
  assert (v = Part001 -> blocked (fs w) (package_dir E name) = true ->
          update_steps E v name view server w = (w, Threw (rm_blocked E name)) /\
          after_rm E v name w = w) as Hshut.
  { intros -> Hb. split; [by apply update_steps_blocked|].
    unfold after_rm. by rewrite rm_rf_blocked. }
  assert ((update_steps E v name view server w).1 = after_rm E v name w) as Hworld.
  { destruct (rm_cases E v name w) as [[Hp Hb]|Hno].
    - destruct (Hshut Hp Hb) as [-> ->]. done.
    - destruct (Hopen Hno) as (message & -> & _). done. }
  cbn [fst snd]. rewrite Hworld. split_and!.
  - done.
  - apply after_rm_spawned.
  - intros p Hp. by apply after_rm_lookup.
  - intros Hp Hb. destruct (Hshut Hp Hb) as [Hs Ha]. rewrite Ha, Hs. by subst v.
  - intros Hb. destruct (Hopen Hb) as (message & -> & H1 & H2). by exists message.
Qed.

Lemma update_view_failure_witness :
  (update_operation env_plain ServerTs "acme" (Some "<new/>") (Some "serve()") world_empty).1
  = world_empty.
Proof.
  apply (update_view_failure env_plain ServerTs "acme" (Some "<new/>") (Some "serve()")
           world_empty eq_refl).
  intros [_ [c Hc]]. discriminate Hc.
Defined.

(** X10: an update is not undone when it fails half way: with both
    contents supplied, the view file present and the server file missing,
    the view file keeps its new content, no process is started, and the
    answer is the not-found failure of the server file. *)
Theorem update_not_rolled_back (E : env) (v : variant) (name : string)
    (view server : option string) (w : world) :
  truthy view = true -> is_file w (view_path E name) ->
  truthy server = true -> fs w !! server_path E v name = None ->
  let r := update_operation E v name view server w in
  fs r.1 = <[view_path E name := File (content_of view)]> (fs (after_rm E v name w)) /\
  spawned r.1 = spawned w /\
  r.2 = update_answer v name
          (Threw (new_Error (not_found_message
                               (match v with Part000 => "App.vue" | _ => "server.ts" end)
                               (server_path E v name)))).
Proof.
  intros Hv Hf Hs Hnone r. subst r.
  rewrite update_operation_steps.
  rewrite update_steps_after_rm by (intros _; apply (package_open E v); by left).
  unfold update_tail. rewrite Hv, Hs. io_next.
  destruct (proj1 (is_file_after_rm E v name w) Hf) as [Hopen [old Hold]].
  rewrite (bind_returned _ _ _ _ tt (update_view_file _ _ _ old _ Hopen Hold)). io_next.
  destruct (view_written_server E v name (content_of view) (after_rm E v name w)) as [H0 H1].
  rewrite after_rm_server, Hnone in H1.
  assert (blocked (fs w) (server_path E v name) = false) as Hway.
  { destruct Hf as [Hb _]. rewrite view_path_snoc in Hb. rewrite server_path_snoc.
    eapply blocked_prefix; [|exact Hb].
    apply prefix_app. destruct v; [by exists [] | by exists ["src"] | by exists []]. }
  rewrite after_rm_server_blocked, Hway in H0.
  rewrite (bind_threw _ _ _ _ _ (update_server_missing E v name _ _ H0 H1)). simpl.
  by rewrite after_rm_spawned.
Qed.

Lemma update_not_rolled_back_witness :
  fs (update_operation env_plain ServerTs "acme" (Some "<new/>") (Some "serve()") world_acme).1
    !! view_path env_plain "acme" = Some (File "<new/>").
Proof.
  destruct (update_not_rolled_back env_plain ServerTs "acme" (Some "<new/>") (Some "serve()")
              world_acme eq_refl) as (H & _).
  - split; [reflexivity | by exists "<old/>"].
  - reflexivity.
  - reflexivity.
  - rewrite H. apply lookup_insert_eq.
Defined.

(** X11: an empty content counts as not supplied. In server.ts and
    part_000 an update whose view and server are each missing or the
    empty string leaves the world exactly as it is and answers with
    success: a file cannot be emptied through an update. *)
Theorem update_empty_content (E : env) (v : variant) (name : string)
    (view server : option string) (w : world) :
  v <> Part001 ->
  (view = None \/ view = Some "") -> (server = None \/ server = Some "") ->
  update_operation E v name view server w = (w, Returned (update_ok v name)).
Proof.
  intros Hv Hview Hserver.
  assert (truthy view = false) as Ht1 by (by destruct Hview as [-> | ->]).
  assert (truthy server = false) as Ht2 by (by destruct Hserver as [-> | ->]).
  rewrite update_operation_steps, update_steps_after_rm by done.
  unfold update_tail. rewrite Ht1, Ht2, !when_false_bind, when_false. simpl. by destruct v.
Qed.

Lemma update_empty_content_witness :
  update_operation env_plain ServerTs "acme" (Some "") None world_acme
  = (world_acme, Returned (update_ok ServerTs "acme")).
Proof.
  apply (update_empty_content env_plain ServerTs "acme" (Some "") None world_acme);
    [discriminate | by right | by left].
Defined.

Lemma pipeline_completion (E : env) (v : variant) (name : string) (w : world) :
  ((run_command E v "pnpm" ["install"] (project_dir E name) ;;
    run_command E v "pnpm" ["build"] (project_dir E name)) w).2 =
  match install_result E v name w with
  | Returned _ => build_result E v name w
  | Threw e => Threw e
  | Hung => Hung
  end.
Proof.
  rewrite bind_unfold. unfold install_result, build_result, install_step, build_step,
    run_command at 1.
  destruct (settle_command v "pnpm" ["install"] _) as [[]|e|]; simpl; try done.
  rewrite length_app. simpl. by rewrite Nat.add_1_r.
Qed.

(** X12: the answer of an update of server.ts and part_001 whose
    mutations go through is decided by the two commands: success when
    install and build both exit with zero, the 500 answer with the error
    of the first command that fails otherwise (for a non-zero exit its
    text names the command and the exit code), and no answer at all while
    a command does not end. *)
Theorem update_pipeline_answer (E : env) (v : variant) (name : string)
    (view server : option string) (w : world) :
  v <> Part000 -> truthy view || truthy server = true ->
  (truthy view = true -> is_file w (view_path E name)) ->
  (truthy server = true -> is_file w (server_path E v name)) ->
  let r := update_operation E v name view server w in
  r.2 = pipeline_answer (update_ok v name) (install_result E v name w) (build_result E v name w) /\
  (forall code rest,
     env_child E (length (spawned w)) (install_step E name) = OnClose code :: rest ->
     code <> Some 0%Z ->
     r.2 = Returned (error_response (new_Error (exit_message v "pnpm" ["install"] code)))) /\
  (forall code rest rest',
     env_child E (length (spawned w)) (install_step E name) = OnClose (Some 0%Z) :: rest ->
     env_child E (S (length (spawned w))) (build_step E name) = OnClose code :: rest' ->
     code <> Some 0%Z ->
     r.2 = Returned (error_response (new_Error (exit_message v "pnpm" ["build"] code)))).
Proof.
  intros Hv Hany Hview Hserver r.
  assert (r.2 = pipeline_answer (update_ok v name) (install_result E v name w)
                  (build_result E v name w)) as Hr.
  { subst r. rewrite update_operation_steps.
    rewrite update_steps_after_rm
      by (intros _; by apply (supplied_open E v name view server)).
    unfold update_tail. simpl.
    destruct (mutations_succeed E v name view server
                (when (truthy view || truthy server)
                   (match v with
                    | Part000 => run_command E v "pnpm" ["build"] (project_dir E name)
                    | _ => (run_command E v "pnpm" ["install"] (project_dir E name) ;;
                            run_command E v "pnpm" ["build"] (project_dir E name))
                    end))
                (after_rm E v name w)) as (w' & Hsp & ->).
    { intros H. by apply is_file_after_rm, Hview. }
    { intros H. by apply is_file_after_rm, Hserver. }
    rewrite Hany. simpl. rewrite after_rm_spawned in Hsp.
    assert (install_result E v name w' = install_result E v name w) as Hi
      by (unfold install_result; by rewrite Hsp).
    assert (build_result E v name w' = build_result E v name w) as Hb
      by (unfold build_result; by rewrite Hsp).
    destruct v; [|done|]; rewrite pipeline_completion, Hi, Hb; unfold pipeline_answer;
      destruct (install_result _ _ name w) as [[]|e|]; simpl; try done;
      by destruct (build_result _ _ name w) as [[]|e|]. }
  split_and!; [done| |].
  - intros code rest Hev Hcode. rewrite Hr. unfold pipeline_answer, install_result.
    rewrite Hev. simpl. unfold on_close. destruct code as [[]|]; done.
  - intros code rest rest' Hi Hb Hcode. rewrite Hr.
    unfold pipeline_answer, install_result, build_result. rewrite Hi, Hb. simpl.
    unfold on_close. destruct code as [[]|]; done.
Qed.

Lemma update_pipeline_answer_witness :
  (update_operation env_plain ServerTs "acme" (Some "<new/>") None world_acme).2
  = Returned (update_ok ServerTs "acme").
Proof.
  destruct (update_pipeline_answer env_plain ServerTs "acme" (Some "<new/>") None world_acme)
    as (H & _).
  - discriminate.
  - reflexivity.
  - intros _. split; [reflexivity | by exists "<old/>"].
  - discriminate.
  - rewrite H. reflexivity.
Defined.
(** ** Further properties of the queue *)

(** X13: no caller is answered before its operation has ended. In
    server.ts and part_001, in every reachable state, when the promise
    that [queue] returned for an operation is settled, the operation has
    run to its end and the promise holds the result of its own task (in
    part_001 a rejection turned into the 500 response), or, in server.ts
    only, the operation was passed over and the promise holds the
    rejection of an operation enqueued before it under its name. *)
Theorem answered_after_end (v : variant) (inputs : list input) (name : string)
    (a : nat) (t : task) (next : nat) (o : outcome) :
  has_queue v = true ->
  let s := run v inputs init in
  Enq name a t next ∈ log s ->
  settled s next o ->
  (Start name a ∈ log s /\ Fin name a ∈ log s /\ o = delivered v (task_result t)) \/
  (v = ServerTs /\ exists e x tx,
     o = Rejected e /\ Skip name a ∈ log s /\ (Start name a ∉ log s) /\
     enq_before (log s) name x tx a /\ task_result tx = Rejected e).
Proof.
  intros Hv s He Ho.
  destruct (inv_reachable v inputs Hv) as [G Hinv]. fold s in Hinv.
  pose proof (inv_pl _ _ _ _ _ Hinv) as Hpl.
  pose proof (pl_post v G s Hpl name a t next He _ _ (pl_settled v G s Hpl _ _ Ho)) as Ha.
  destruct Ha as [[Hf ->]|(e & -> & Hs & x & tx & Hb & Hx)].
  - left. split_and!; [|done|done].
    by apply (lv_fin G [] None s (inv_lv _ _ _ _ _ Hinv)).
  - destruct v; [|done|].
    + right. split; [done|]. exists e, x, tx. split_and!; try done.
      intros Hst. by apply (start_skip_apart ServerTs G s name name a Hinv).
    + exfalso. destruct (pl_skip _ G s Hpl name a Hs) as [e' Hpre].
      by destruct (pl_pre _ G s Hpl name a t next He _ _ Hpre) as [_ Hc].
Qed.

Lemma answered_after_end_witness :
  Start "acme" 1 ∈ log (run Part001 two_requests init) /\
  Fin "acme" 1 ∈ log (run Part001 two_requests init) /\
  Fulfilled (VResponse previous_task_failed) = delivered Part001 boom.
Proof.
  destruct (answered_after_end Part001 two_requests "acme" 1 (Task 1 boom) 3
              (Fulfilled (VResponse previous_task_failed)) eq_refl) as [H|[Hv _]].
  - vm_compute. in_list.
  - by vm_compute.
  - exact H.
  - discriminate Hv.
Defined.
(** ** Every operation runs once *)

Lemma count_app {A} (P : A -> bool) (l k : list A) : count P (l ++ k) = count P l + count P k.
Proof. apply sum_list_with_app. Qed.

Lemma count_snoc {A} (P : A -> bool) (l : list A) (x : A) :
  count P (l ++ [x]) = count P l + (if P x then 1 else 0).
Proof. rewrite count_app. unfold count. simpl. lia. Qed.

Lemma count_zero {A} (P : A -> bool) (l : list A) :
  (forall x, x ∈ l -> P x = false) -> count P l = 0.
Proof.
  induction l as [|x l IH]; intros H; [done|]. unfold count in *. simpl.
  rewrite (H x) by by left. rewrite IH; [done|]. intros y Hy. apply H. by right.
Qed.

Lemma count_pos {A} (P : A -> bool) (l : list A) :
  0 < count P l -> exists x, x ∈ l /\ P x = true.
Proof.
  induction l as [|x l IH]; unfold count in *; simpl; [lia|].
  destruct (P x) eqn:Hx.
  - intros _. exists x. split; [by left|done].
  - intros H. destruct IH as (y & Hy & HP); [lia|]. exists y. split; [by right|done].
Qed.

Lemma count_elem {A} (P : A -> bool) (l : list A) (x : A) :
  x ∈ l -> P x = true -> 0 < count P l.
Proof.
  intros Hx HP. apply list_elem_of_split in Hx as (l1 & l2 & ->).
  rewrite count_app. unfold count at 2. simpl. rewrite HP. lia.
Qed.

Lemma count_map_jobs (name : string) (a : nat) (o : outcome) (rs : list reaction) :
  count (fun j : reaction * outcome => is_then name a j.1) (map (fun r => (r, o)) rs)
  = count (is_then name a) rs.
Proof. induction rs as [|r rs IH]; [done|]. unfold count in *. simpl. by rewrite IH. Qed.

Lemma thens_left_settle (name : string) (a p : nat) (o : outcome) (s : state) :
  thens_left name a (settle p o s) = thens_left name a s.
Proof.
  destruct (settle_cases p o s) as [(rs & Hrs & ->)|[_ ->]]; [|done].
  unfold thens_left. cbn [store jobs].
  pose proof (sum_insert (cell_thens name a) (store s) p (Pending rs) (Settled o) Hrs) as H.
  rewrite count_app, count_map_jobs. simpl in H. lia.
Qed.

Lemma thens_left_subscribe (name : string) (a p : nat) (r : reaction) (s : state) :
  p < length (store s) ->
  thens_left name a (subscribe p r s) = thens_left name a s + (if is_then name a r then 1 else 0).
Proof.
  intros Hp.
  destruct (subscribe_cases p r s) as [(rs & Hrs & ->)|[(o & _ & ->)|[Hn _]]].
  - unfold thens_left. cbn [store jobs].
    pose proof (sum_insert (cell_thens name a) (store s) p (Pending rs) (Pending (rs ++ [r])) Hrs)
      as H.
    simpl in H. rewrite count_snoc in H. lia.
  - unfold thens_left. cbn [store jobs]. rewrite count_snoc. simpl. lia.
  - apply lookup_ge_None in Hn. lia.
Qed.

Lemma thens_left_alloc (name : string) (a : nat) (x : promise) (s : state) :
  thens_left name a (alloc x s).2 = thens_left name a s + cell_thens name a x.
Proof. unfold thens_left. simpl. rewrite sum_list_with_app. simpl. lia. Qed.

Lemma thens_left_cleanup (name : string) (a : nat) (n : string) (next : nat) (s : state) :
  thens_left name a (cleanup n next s) = thens_left name a s.
Proof. unfold cleanup. by case_decide. Qed.

Lemma running_settle (name : string) (a p : nat) (o : outcome) (s : state) :
  running name a (settle p o s) = running name a s.
Proof. unfold running. by destruct (settle_frame p o s) as (_ & -> & _). Qed.

Lemma running_subscribe (name : string) (a p : nat) (r : reaction) (s : state) :
  running name a (subscribe p r s) = running name a s.
Proof. unfold running. by destruct (subscribe_frame p r s) as (_ & -> & _). Qed.

Lemma running_cleanup (name : string) (a : nat) (n : string) (next : nat) (s : state) :
  running name a (cleanup n next s) = running name a s.
Proof. unfold cleanup. by case_decide. Qed.

Lemma store_length_alloc (x : promise) (s : state) :
  length (store (alloc x s).2) = S (length (store s)).
Proof. apply alloc_frame. Qed.

Lemma store_length_subscribe (p : nat) (r : reaction) (s : state) :
  length (store (subscribe p r s)) = length (store s).
Proof. apply subscribe_frame. Qed.

Lemma store_length_settle (p : nat) (o : outcome) (s : state) :
  length (store (settle p o s)) = length (store s).
Proof. apply settle_frame. Qed.

Lemma log_subscribe (p : nat) (r : reaction) (s : state) : log (subscribe p r s) = log s.
Proof. apply subscribe_frame. Qed.

Lemma log_settle (p : nat) (o : outcome) (s : state) : log (settle p o s) = log s.
Proof. apply settle_frame. Qed.

Lemma log_cleanup (n : string) (next : nat) (s : state) : log (cleanup n next s) = log s.
Proof. apply cleanup_frame. Qed.

Lemma acts_subscribe (p : nat) (r : reaction) (s : state) : acts (subscribe p r s) = acts s.
Proof. apply subscribe_frame. Qed.

Lemma acts_settle (p : nat) (o : outcome) (s : state) : acts (settle p o s) = acts s.
Proof. apply settle_frame. Qed.

Lemma thens_left_emit (name : string) (a : nat) (e : event) (s : state) :
  thens_left name a (emit e s) = thens_left name a s.
Proof. done. Qed.

Lemma running_emit (name : string) (a : nat) (e : event) (s : state) :
  running name a (emit e s) = running name a s.
Proof. done. Qed.

Lemma thens_left_push (name : string) (a : nat) (j : reaction * outcome) (s : state) :
  thens_left name a (push_job j s) =
  thens_left name a s + (if is_then name a j.1 then 1 else 0).
Proof. unfold thens_left, push_job. cbn [store jobs]. rewrite count_snoc. lia. Qed.

Lemma running_push (name : string) (a : nat) (j : reaction * outcome) (s : state) :
  running name a (push_job j s) = running name a s.
Proof. done. Qed.

Lemma log_push (j : reaction * outcome) (s : state) : log (push_job j s) = log s.
Proof. done. Qed.

Lemma log_alloc (x : promise) (s : state) : log (alloc x s).2 = log s.
Proof. done. Qed.

Lemma acts_alloc (x : promise) (s : state) : acts (alloc x s).2 = acts s.
Proof. done. Qed.

Lemma locks_alloc (x : promise) (s : state) : locks (alloc x s).2 = locks s.
Proof. done. Qed.

Lemma log_set_lock (n : string) (c : nat) (s : state) : log (set_lock n c s) = log s.
Proof. done. Qed.

Lemma acts_set_lock (n : string) (c : nat) (s : state) : acts (set_lock n c s) = acts s.
Proof. done. Qed.

Lemma store_set_lock (n : string) (c : nat) (s : state) : store (set_lock n c s) = store s.
Proof. done. Qed.

Lemma thens_left_set_lock (name : string) (a : nat) (n : string) (c : nat) (s : state) :
  thens_left name a (set_lock n c s) = thens_left name a s.
Proof. done. Qed.

Lemma log_emit (e : event) (s : state) : log (emit e s) = log s ++ [e].
Proof. done. Qed.

Lemma acts_emit (e : event) (s : state) : acts (emit e s) = acts s.
Proof. done. Qed.

Ltac frames :=
  repeat first [rewrite log_emit | rewrite acts_emit | rewrite log_subscribe
               | rewrite acts_subscribe | rewrite log_alloc | rewrite acts_alloc
               | rewrite log_set_lock | rewrite acts_set_lock].

Lemma tally_init : tally init.
Proof. split; intros; cbv; lia. Qed.

(** What a call of a task does to the books. *)
Lemma call_task_books (n : string) (t : task) (b : nat) (s : state) (name : string) (a : nat) :
  thens_left name a (call_task n t b s) = thens_left name a s /\
  log (call_task n t b s) =
    log s ++ Start n b :: (match task_awaits t with O => [Fin n b] | S _ => [] end) /\
  running name a (call_task n t b s) =
    running name a s +
    (match task_awaits t with
     | O => 0
     | S _ => if bool_decide (n = name /\ b = a) then 1 else 0
     end).
Proof.
  rewrite call_task_cases. cbv zeta.
  destruct (task_awaits t) as [|k].
  - rewrite thens_left_subscribe, thens_left_settle, running_subscribe, running_settle,
      log_subscribe, log_settle.
    + unfold thens_left, running. simpl. rewrite sum_list_with_app, <- app_assoc. simpl.
      split_and!; [lia|done|lia].
    + rewrite store_length_settle. simpl. rewrite length_app. simpl. lia.
  - rewrite thens_left_subscribe, running_subscribe, log_subscribe.
    + unfold thens_left, running, set_acts. simpl.
      rewrite sum_list_with_app, count_snoc. simpl. split_and!; [lia|done|done].
    + simpl. rewrite length_app. simpl. lia.
Qed.

Lemma count_event_snoc (P : event -> bool) (l : list event) (e : event) (b : bool) :
  P e = b -> count P (l ++ [e]) = count P l + (if b then 1 else 0).
Proof. intros <-. apply count_snoc. Qed.

Lemma tally_tick (s : state) : tally s -> tally (tick s).
Proof.
  intros [Hrun Hfin Honce]. unfold tick.
  destruct (jobs s) as [|[r o] rest] eqn:Hj; [by split|].
  set (s0 := State (store s) (locks s) rest (acts s) (log s)).
  assert (forall name a, thens_left name a s =
            thens_left name a s0 + (if is_then name a r then 1 else 0)) as Hw.
  { intros name a. unfold thens_left, s0. rewrite Hj. unfold count. simpl. lia. }
  destruct r as [n t b|h tgt|n next tgt|tgt]; cbn [run_job].
  - destruct o as [val|e].
    + split.
      * intros name a. destruct (call_task_books n t b s0 name a) as (-> & -> & _).
        specialize (Hrun name a). rewrite Hw in Hrun. simpl in Hrun.
        change (log s0) with (log s).
        rewrite !count_app. unfold count at 2 4 6. simpl.
        destruct (task_awaits t); simpl; case_bool_decide; simpl; lia.
      * intros name a. destruct (call_task_books n t b s0 name a) as (_ & -> & ->).
        specialize (Hfin name a). change (running name a s) with (running name a s0) in Hfin.
        change (log s0) with (log s).
        rewrite !count_app. unfold count at 2 4. simpl.
        destruct (task_awaits t); simpl; case_bool_decide; simpl; lia.
      * intros a. destruct (call_task_books n t b s0 n a) as (_ & -> & _).
        specialize (Honce a). 
        change (log s0) with (log s).
        rewrite count_app. unfold count at 2. simpl.
        destruct (task_awaits t); simpl; lia.
    + split.
      * intros name a. rewrite thens_left_settle, log_settle, thens_left_emit.
        specialize (Hrun name a). rewrite Hw in Hrun. simpl in Hrun.
        cbn [emit log]. change (log s0) with (log s).
        rewrite !count_snoc. simpl. case_bool_decide; simpl; lia.
      * intros name a. rewrite running_settle, log_settle, running_emit.
        specialize (Hfin name a). change (running name a s) with (running name a s0) in Hfin.
        cbn [emit log]. change (log s0) with (log s).
        rewrite !count_snoc. simpl. lia.
      * intros a. rewrite log_settle. cbn [emit log]. change (log s0) with (log s).
        rewrite count_snoc. simpl. specialize (Honce a). lia.
  - assert (tally s0) as [H1 H2 H3].
    { split; [|done|done]. intros name a. specialize (Hrun name a).
      rewrite Hw in Hrun. simpl in Hrun. change (log s0) with (log s). lia. }
    destruct h, o; split; intros;
      rewrite ?thens_left_settle, ?running_settle, ?log_settle,
        ?thens_left_cleanup, ?running_cleanup, ?log_cleanup; auto.
  - assert (tally s0) as [H1 H2 H3].
    { split; [|done|done]. intros name a. specialize (Hrun name a).
      rewrite Hw in Hrun. simpl in Hrun. change (log s0) with (log s). lia. }
    split; intros;
      rewrite ?thens_left_push, ?running_push, ?log_push,
        ?thens_left_cleanup, ?running_cleanup, ?log_cleanup;
      cbn [is_then fst]; rewrite ?Nat.add_0_r; auto.
  - assert (tally s0) as [H1 H2 H3].
    { split; [|done|done]. intros name a. specialize (Hrun name a).
      rewrite Hw in Hrun. simpl in Hrun. change (log s0) with (log s). lia. }
    split; intros; rewrite ?thens_left_settle, ?running_settle, ?log_settle; auto.
Qed.

Lemma tally_io_done (i : nat) (s : state) : tally s -> tally (io_done i s).
Proof.
  intros [Hrun Hfin Honce]. pose proof (io_done_cases i s) as H.
  destruct (acts s !! i) as [act|] eqn:Hact; [|by rewrite H].
  destruct (act_left act) as [|k]; rewrite H.
  - assert (forall name a,
              running name a (set_acts (delete i (acts s))
                 (settle (act_promise act) (act_result act)
                    (emit (Fin (act_name act) (act_op act)) s))) +
              (if bool_decide (act_name act = name /\ act_op act = a) then 1 else 0)
              = running name a s) as Hr.
    { intros name a. unfold running, set_acts, count. cbn [acts].
      apply (sum_delete
               (fun x => if bool_decide (act_name x = name /\ act_op x = a) then 1 else 0)
               (acts s) i act Hact). }
    split.
    + intros name a. specialize (Hrun name a).
      change (thens_left name a (set_acts ?l ?x)) with (thens_left name a x).
      rewrite thens_left_settle, thens_left_emit.
      change (log (set_acts ?l ?x)) with (log x). rewrite log_settle. cbn [emit log].
      rewrite !count_snoc. simpl. lia.
    + intros name a. specialize (Hfin name a). specialize (Hr name a).
      change (log (set_acts ?l ?x)) with (log x). rewrite log_settle. cbn [emit log].
      rewrite !count_snoc. simpl. lia.
    + intros a. specialize (Honce a).
      change (log (set_acts ?l ?x)) with (log x). rewrite log_settle. cbn [emit log].
      rewrite count_snoc. simpl. lia.
  - split; [done| |done]. intros name a. specialize (Hfin name a).
    unfold running, set_acts in *. cbn [acts log].
    pose proof (sum_insert
                  (fun act => if bool_decide (act_name act = name /\ act_op act = a)
                              then 1 else 0)
                  (acts s) i act
                  (Activation (act_promise act) (act_name act) (act_op act) k (act_result act))
                  Hact) as Hs.
    unfold count in *. simpl in Hs. lia.
Qed.

Lemma get_last_books (name : string) (s : state) :
  wf s ->
  (get_last name s).1 < length (store (get_last name s).2) /\
  length (store s) <= length (store (get_last name s).2) /\
  (forall n a, thens_left n a (get_last name s).2 = thens_left n a s) /\
  acts (get_last name s).2 = acts s /\
  log (get_last name s).2 = log s.
Proof.
  intros Hwf. unfold get_last. destruct (locks s !! name) as [c|] eqn:Hc.
  - split_and!; try done. by eapply wf_lock.
  - rewrite alloc_fst, store_length_alloc. split_and!; try done; try lia.
    intros n a. rewrite thens_left_alloc. simpl. lia.
Qed.

Ltac books_len :=
  repeat first [rewrite alloc_fst | rewrite store_length_subscribe
               | rewrite store_length_alloc | rewrite store_set_lock].

Ltac books_side := books_len; lia.

(** What [queue] does to the books: one more [then] reaction, for a new
    operation, and its [Enq] in the log. *)
Lemma queue_books (v : variant) (name : string) (t : task) (s : state) :
  has_queue v = true -> wf s ->
  exists a nx,
    length (store s) <= a /\
    log (submit v name t s).2 = log s ++ [Enq name a t nx] /\
    acts (submit v name t s).2 = acts s /\
    forall n b, thens_left n b (submit v name t s).2 =
                thens_left n b s + (if bool_decide (name = n /\ a = b) then 1 else 0).
Proof.
  intros Hv Hwf.
  destruct (get_last_books name s Hwf) as (Hlast & Hlen & Hth & Hacts & Hlog).
  destruct v; [|done|]; unfold submit.
  - unfold queue_server. cbv zeta. cbn [snd].
    set (last := (get_last name s).1) in *. set (s0 := (get_last name s).2) in *.
    exists (length (store s0)), (S (length (store s0))). split_and!.
    + exact Hlen.
    + frames. rewrite Hlog. books_len. done.
    + frames. done.
    + intros n b. rewrite thens_left_emit.
      rewrite thens_left_subscribe, thens_left_alloc by books_side.
      rewrite thens_left_set_lock.
      rewrite thens_left_subscribe, thens_left_alloc by books_side.
      rewrite thens_left_subscribe, thens_left_alloc by books_side.
      rewrite Hth, !alloc_fst. cbn [is_then cell_thens]. unfold count at 1 2 3. simpl.
      repeat case_bool_decide; try lia; naive_solver.
  - unfold queue_part001. cbv zeta. cbn [snd].
    set (last := (get_last name s).1) in *. set (s0 := (get_last name s).2) in *.
    exists (length (store s0)), (S (S (length (store s0)))). split_and!.
    + exact Hlen.
    + frames. rewrite Hlog. books_len. done.
    + frames. done.
    + intros n b. rewrite thens_left_emit, thens_left_set_lock.
      rewrite thens_left_subscribe, thens_left_alloc by books_side.
      rewrite thens_left_subscribe, thens_left_alloc by books_side.
      rewrite thens_left_subscribe, thens_left_alloc by books_side.
      rewrite Hth, !alloc_fst. cbn [is_then cell_thens]. unfold count at 1 2 3. simpl.
      repeat case_bool_decide; try lia; naive_solver.
Qed.

Lemma count_le {A} (P Q : A -> bool) (l : list A) :
  (forall x, P x = true -> Q x = true) -> count P l <= count Q l.
Proof.
  intros H. induction l as [|x l IH]; unfold count in *; simpl; [done|].
  destruct (P x) eqn:HP; [rewrite (H x HP)|destruct (Q x)]; lia.
Qed.

Lemma tally_submit (v : variant) (name : string) (t : task) (s : state) :
  has_queue v = true -> wf s -> tally s -> tally (submit v name t s).2.
Proof.
  intros Hv Hwf [Hrun Hfin Honce].
  destruct (queue_books v name t s Hv Hwf) as (a & nx & Ha & Hlog & Hacts & Hth).
  split.
  - intros n b. rewrite Hth, Hlog, !count_snoc. simpl.
    specialize (Hrun n b). lia.
  - intros n b. unfold running. rewrite Hacts, Hlog, !count_snoc. simpl.
    specialize (Hfin n b). unfold running in Hfin. lia.
  - intros b. rewrite Hlog, count_snoc. simpl. specialize (Honce b).
    case_bool_decide as Hb; [|lia]. subst b.
    rewrite count_zero; [lia|]. intros e He.
    pose proof (wf_log s Hwf e He) as Hbound.
    destruct e as [n b t' nx'| | |]; try done. simpl in *.
    apply bool_decide_eq_false. lia.
Qed.

Lemma tally_step (v : variant) (s : state) (i : input) :
  has_queue v = true -> wf s -> tally s -> tally (step v s i).
Proof.
  intros Hv Hwf Ht. destruct i as [name t| |i]; simpl.
  - by apply tally_submit.
  - by apply tally_tick.
  - by apply tally_io_done.
Qed.

Lemma tally_run_from (v : variant) (inputs : list input) (G : ghost) (s : state) :
  has_queue v = true -> inv v G s -> tally s -> tally (run v inputs s).
Proof.
  intros Hv. revert G s. induction inputs as [|i inputs IH]; intros G s Hinv Ht; [done|].
  simpl. destruct (inv_step v G s i Hv Hinv) as [G' Hinv'].
  apply (IH G'); [done|]. apply tally_step; [done| |done]. apply Hinv.
Qed.

Lemma tally_reachable (v : variant) (inputs : list input) :
  has_queue v = true -> tally (run v inputs init).
Proof. intros Hv. eapply tally_run_from; [done|apply inv_init|apply tally_init]. Qed.

Lemma sum_list_zero {A} (f : A -> nat) (l : list A) :
  (forall x, x ∈ l -> f x = 0) -> sum_list_with f l = 0.
Proof.
  induction l as [|x l IH]; intros H; simpl; [done|].
  rewrite (H x) by by left. rewrite IH; [done|]. intros y Hy. apply H. by right.
Qed.

(** X14: every operation runs once. In server.ts and part_001, in every
    reachable state and for every operation: it was enqueued at most
    once; it was started or passed over at most once, and only if it was
    enqueued; it has ended at most once, and only if it was started. At
    rest, each enqueued operation has been started or passed over, and
    each started operation has ended. *)
Theorem runs_once (v : variant) (inputs : list input) (name : string) (a : nat) :
  has_queue v = true ->
  let s := run v inputs init in
  count (is_enq name a) (log s) <= 1 /\
  count (is_start name a) (log s) + count (is_skip name a) (log s)
    <= count (is_enq name a) (log s) /\
  count (is_fin name a) (log s) <= count (is_start name a) (log s) /\
  (quiescent s ->
     count (is_start name a) (log s) + count (is_skip name a) (log s)
       = count (is_enq name a) (log s) /\
     count (is_fin name a) (log s) = count (is_start name a) (log s)).
Proof.
  intros Hv s. destruct (tally_reachable v inputs Hv) as [Hrun Hfin Honce]. fold s in Hrun, Hfin, Honce.
  specialize (Hrun name a). specialize (Hfin name a). specialize (Honce a).
  split_and!; try lia.
  - etrans; [|exact Honce]. apply count_le.
    intros [n b t nx| | |]; simpl; try done.
    intros H. apply bool_decide_eq_true in H as [_ ->]. by apply bool_decide_eq_true.
  - intros Hq. destruct (inv_reachable v inputs Hv) as [G Hinv]. fold s in Hinv.
    assert (thens_left name a s = 0) as Hth.
    { unfold thens_left. rewrite (proj1 Hq). unfold count at 1. simpl.
      rewrite sum_list_zero; [done|]. intros x Hx.
      apply list_elem_of_lookup in Hx as [p Hp].
      destruct (quiescent_settled v G s p Hinv Hq) as [o Ho].
      { by eapply lookup_lt_Some. }
      unfold settled in Ho. rewrite Hp in Ho. by injection Ho as ->. }
    assert (running name a s = 0) as Hr.
    { unfold running. by rewrite (proj2 Hq). }
    lia.
Qed.

Lemma runs_once_witness :
  count (is_start "acme" 5) (log (run ServerTs two_requests init)) +
  count (is_skip "acme" 5) (log (run ServerTs two_requests init)) <= 1.
Proof.
  destruct (runs_once ServerTs two_requests "acme" 5 eq_refl) as (H1 & H2 & _).
  etrans; [exact H2 | exact H1].
Defined.

(** X15: part_001 never passes an operation over, and what is started
    was enqueued: in every reachable state the log has no [Skip], and for
    every [Start] it has the [Enq] of that operation. *)
Theorem part001_never_skips (inputs : list input) (name : string) (a : nat) :
  let s := run Part001 inputs init in
  (Skip name a ∉ log s) /\
  (Start name a ∈ log s -> exists t nx, Enq name a t nx ∈ log s).
Proof.
  intros s.
  destruct (tally_reachable Part001 inputs eq_refl) as [Hrun _ _]. fold s in Hrun.
  specialize (Hrun name a).
  assert (forall e, e ∈ log s -> (is_start name a e || is_skip name a e) = true ->
            exists t nx, Enq name a t nx ∈ log s) as Henq.
  { intros e He Hse.
    assert (0 < count (is_enq name a) (log s)) as Hpos.
    { pose proof (count_elem (is_start name a) (log s) e He) as H1.
      pose proof (count_elem (is_skip name a) (log s) e He) as H2.
      apply orb_true_iff in Hse as [Hs|Hs]; [specialize (H1 Hs)|specialize (H2 Hs)]; lia. }
    apply count_pos in Hpos as ([n b t nx| | |] & Hin & HP); try done.
    simpl in HP. apply bool_decide_eq_true in HP as [-> ->]. by exists t, nx. }
  split.
  - intros Hs. destruct (Henq _ Hs) as (t & nx & He).
    { simpl. rewrite bool_decide_eq_true_2; done. }
    destruct (inv_reachable Part001 inputs eq_refl) as [G Hinv]. fold s in Hinv.
    pose proof (inv_pl _ _ _ _ _ Hinv) as Hpl.
    destruct (pl_skip _ G s Hpl name a Hs) as [e' Hpre].
    by destruct (pl_pre _ G s Hpl name a t nx He _ _ Hpre) as [_ Hc].
  - intros Hs. apply (Henq _ Hs). simpl. rewrite bool_decide_eq_true_2; done.
Qed.

Lemma part001_never_skips_witness :
  exists t nx, Enq "acme" 5 t nx ∈ log (run Part001 two_requests init).
Proof.
  apply (part001_never_skips two_requests "acme" 5).
  vm_compute. in_list.
Defined.
(** ** The map holds the newest link *)

Lemma locks_subscribe (p : nat) (r : reaction) (s : state) : locks (subscribe p r s) = locks s.
Proof. apply subscribe_frame. Qed.

Lemma locks_settle (p : nat) (o : outcome) (s : state) : locks (settle p o s) = locks s.
Proof. apply settle_frame. Qed.

Lemma locks_emit (e : event) (s : state) : locks (emit e s) = locks s.
Proof. done. Qed.

Lemma locks_set_lock (n : string) (c : nat) (s : state) :
  locks (set_lock n c s) = <[n := c]> (locks s).
Proof. done. Qed.

Lemma locks_call_task (n : string) (t : task) (b : nat) (s : state) :
  locks (call_task n t b s) = locks s.
Proof.
  rewrite call_task_cases. cbv zeta. rewrite locks_subscribe.
  destruct (task_awaits t); [by rewrite locks_settle|done].
Qed.

Lemma cleanup_lookup_Some (n : string) (next : nat) (s : state) (name : string) (c : nat) :
  locks (cleanup n next s) !! name = Some c -> locks s !! name = Some c.
Proof. rewrite cleanup_lookup. by case_decide. Qed.

(** A microtask or an I/O completion enqueues nothing and adds no entry
    to the map. *)
Lemma tick_quiet (s : state) :
  exists evs, log (tick s) = log s ++ evs /\
    (forall e, e ∈ evs -> forall n a t c, e <> Enq n a t c) /\
    (forall name c, locks (tick s) !! name = Some c -> locks s !! name = Some c).
Proof.
  unfold tick. destruct (jobs s) as [|[r o] rest].
  { exists []. rewrite app_nil_r. split_and!; try done.
    intros ? He. by apply elem_of_nil in He. }
  set (s0 := State (store s) (locks s) rest (acts s) (log s)).
  change (log s) with (log s0). change (locks s) with (locks s0).
  destruct r as [n t b|h tgt|n next tgt|tgt]; cbn [run_job].
  - destruct o as [val|e].
    + destruct (call_task_books n t b s0 n b) as (_ & -> & _). rewrite locks_call_task.
      eexists. split; [done|]. split; [|done].
      intros e He. destruct (task_awaits t);
        repeat (apply elem_of_cons in He as [->|He]; [done|]); by apply elem_of_nil in He.
    + rewrite log_settle, locks_settle. exists [Skip n b]. split; [done|]. split; [|done].
      intros e' ->%list_elem_of_singleton. done.
  - exists []. rewrite app_nil_r. destruct h, o;
      rewrite ?log_settle, ?locks_settle, ?log_cleanup; split_and!; try done;
      try (intros ? He; by apply elem_of_nil in He).
    intros ? ?. apply cleanup_lookup_Some.
  - exists []. rewrite app_nil_r, log_push, log_cleanup. split_and!; [done| |].
    + intros ? He. by apply elem_of_nil in He.
    + intros name c. apply cleanup_lookup_Some.
  - exists []. rewrite app_nil_r, log_settle, locks_settle. split_and!; try done.
    intros ? He. by apply elem_of_nil in He.
Qed.

Lemma io_done_quiet (i : nat) (s : state) :
  exists evs, log (io_done i s) = log s ++ evs /\
    (forall e, e ∈ evs -> forall n a t c, e <> Enq n a t c) /\
    (forall name c, locks (io_done i s) !! name = Some c -> locks s !! name = Some c).
Proof.
  pose proof (io_done_cases i s) as H.
  destruct (acts s !! i) as [act|].
  - destruct (act_left act); rewrite H.
    + exists [Fin (act_name act) (act_op act)].
      change (log (set_acts ?l ?x)) with (log x). change (locks (set_acts ?l ?x)) with (locks x).
      rewrite log_settle, locks_settle. split_and!; try done.
      intros e' ->%list_elem_of_singleton. done.
    + exists []. rewrite app_nil_r. split_and!; try done.
      intros ? He. by apply elem_of_nil in He.
  - rewrite H. exists []. rewrite app_nil_r. split_and!; try done.
    intros ? He. by apply elem_of_nil in He.
Qed.

Lemma queue_locks (v : variant) (name : string) (t : task) (s : state) :
  has_queue v = true ->
  exists a nx,
    log (submit v name t s).2 = log s ++ [Enq name a t nx] /\
    locks (submit v name t s).2 = <[name := nx]> (locks s).
Proof.
  intros Hv.
  assert (log (get_last name s).2 = log s /\ locks (get_last name s).2 = locks s) as [Hlog Hlocks].
  { unfold get_last. by destruct (locks s !! name). }
  destruct v; [|done|]; unfold submit.
  - unfold queue_server. cbv zeta. cbn [snd].
    exists (length (store (get_last name s).2)), (S (length (store (get_last name s).2))).
    split.
    + frames. rewrite Hlog. books_len. done.
    + rewrite locks_emit, locks_subscribe, locks_alloc, locks_set_lock,
        locks_subscribe, locks_alloc, locks_subscribe, locks_alloc, Hlocks.
      books_len. done.
  - unfold queue_part001. cbv zeta. cbn [snd].
    exists (length (store (get_last name s).2)), (S (S (length (store (get_last name s).2)))).
    split.
    + frames. rewrite Hlog. books_len. done.
    + rewrite locks_emit, locks_set_lock, locks_subscribe, locks_alloc,
        locks_subscribe, locks_alloc, locks_subscribe, locks_alloc, Hlocks.
      books_len. done.
Qed.

Lemma latest_link_quiet (s s' : state) (evs : list event) :
  log s' = log s ++ evs ->
  (forall e, e ∈ evs -> forall n a t c, e <> Enq n a t c) ->
  (forall name c, locks s' !! name = Some c -> locks s !! name = Some c) ->
  latest_link s -> latest_link s'.
Proof.
  intros Hlog Hev Hlocks Hl name c Hc.
  destruct (Hl name c (Hlocks name c Hc)) as (l1 & a & t & l2 & Hs & Hnew).
  exists l1, a, t, (l2 ++ evs). split.
  - by rewrite Hlog, Hs, <- app_assoc.
  - intros a' t' c' [Hin|Hin]%elem_of_app; [by eapply Hnew|]. by eapply Hev.
Qed.

Lemma latest_link_step (v : variant) (s : state) (i : input) :
  has_queue v = true -> latest_link s -> latest_link (step v s i).
Proof.
  intros Hv Hl. destruct i as [name t| |i]; simpl.
  - destruct (queue_locks v name t s Hv) as (a & nx & Hlog & Hlocks).
    intros n c Hc. rewrite Hlocks in Hc. rewrite Hlog.
    destruct (decide (n = name)) as [->|Hne].
    + rewrite lookup_insert_eq in Hc. injection Hc as <-.
      exists (log s), a, t, []. split; [done|]. intros a' t' c' Hin. by apply elem_of_nil in Hin.
    + rewrite lookup_insert_ne in Hc by done.
      destruct (Hl n c Hc) as (l1 & a0 & t0 & l2 & Hs & Hnew).
      exists l1, a0, t0, (l2 ++ [Enq name a t nx]). split.
      * by rewrite Hs, <- app_assoc.
      * intros a' t' c' [Hin|Hin]%elem_of_app; [by eapply Hnew|].
        apply list_elem_of_singleton in Hin. congruence.
  - destruct (tick_quiet s) as (evs & H1 & H2 & H3). by eapply latest_link_quiet.
  - destruct (io_done_quiet i s) as (evs & H1 & H2 & H3). by eapply latest_link_quiet.
Qed.

(** X16: in server.ts and part_001, in every reachable state, the entry
    of a name in the map is the promise returned for the operation that
    was enqueued last under that name: no operation of the name was
    enqueued after it. *)
Theorem lock_is_latest (v : variant) (inputs : list input) :
  has_queue v = true -> latest_link (run v inputs init).
Proof.
  intros Hv. unfold run.
  assert (latest_link init) as Hi.
  { intros name c Hc. simpl in Hc. by rewrite lookup_empty in Hc. }
  revert Hi. generalize init. induction inputs as [|i inputs IH]; intros s Hs; [done|].
  simpl. apply IH. by apply latest_link_step.
Qed.

Lemma lock_is_latest_witness :
  exists l1 a t l2,
    log (run ServerTs waiting init) = l1 ++ Enq "acme" a t 11 :: l2 /\
    forall a' t' c', Enq "acme" a' t' c' ∉ l2.
Proof.
  apply (lock_is_latest ServerTs waiting eq_refl "acme" 11).
  by vm_compute.
Defined.
(** ** Scaffolding a project *)

Lemma mkdir_lookup (files : gmap (list string) node) (l : list path) (q : path) :
  foldr (fun q files => <[q := Dir]> files) files l !! q =
  if decide (q ∈ l) then Some Dir else files !! q.
Proof.
  induction l as [|x l IH]; simpl.
  - done.
  - destruct (decide (x = q)) as [->|Hne].
    + rewrite lookup_insert_eq, decide_True; [done|]. by left.
    + rewrite lookup_insert_ne, IH by done.
      destruct (decide (q ∈ l)) as [Hin|Hin].
      * rewrite decide_True; [done|]. by right.
      * rewrite decide_False; [done|]. intros [?|?]%elem_of_cons; congruence.
Qed.

Lemma find_none_iff {A} (f : A -> bool) (l : list A) :
  find f l = None <-> forall x, x ∈ l -> f x = false.
Proof.
  induction l as [|y l IH]; simpl.
  - split; [|done]. intros _ x Hx. by apply elem_of_nil in Hx.
  - destruct (f y) eqn:Hy.
    + split; [done|]. intros H. specialize (H y (list_elem_of_here _ _)). congruence.
    + rewrite IH. split.
      * intros H x [->|Hx]%elem_of_cons; auto.
      * intros H x Hx. apply H. by right.
Qed.

(** mkdir with [recursive] goes through when no file is in the way. *)
Lemma mkdir_p_ok (E : env) (p : path) (w : world) :
  (forall q, q <> [] -> q `prefix_of` p -> holds_file (fs w) q = false) ->
  exists w1, mkdir_p E p w = (w1, Returned tt) /\ spawned w1 = spawned w /\
    forall q, fs w1 !! q =
      if decide (q <> [] /\ q `prefix_of` p) then Some Dir else fs w !! q.
Proof.
  intros Hfree. unfold mkdir_p.
  assert (find (holds_file (fs w)) (ancestors p) = None) as ->.
  { apply find_none_iff. intros q [Hq1 Hq2]%ancestors_spec. by apply Hfree. }
  eexists. split; [done|]. split; [done|]. intros q. simpl. rewrite mkdir_lookup.
  destruct (decide (q ∈ ancestors p)) as [Hin|Hin].
  - rewrite decide_True; [done|]. by apply ancestors_spec.
  - rewrite decide_False; [done|]. by rewrite <- ancestors_spec.
Qed.

(** The copy loop, when every entry fits. *)
Lemma copy_entries_ok (E : env) (src dst : path) (entries : list (path * node))
    (files : gmap (list string) node) :
  NoDup (map (fun kv : path * node => dst ++ drop (length src) kv.1) entries) ->
  (forall q n, (q, n) ∈ entries -> compatible (files !! (dst ++ drop (length src) q)) n = true) ->
  exists files',
    copy_entries E src dst entries files = (files', None) /\
    (forall q n, (q, n) ∈ entries -> files' !! (dst ++ drop (length src) q) = Some n) /\
    (forall p, (forall q n, (q, n) ∈ entries -> p <> dst ++ drop (length src) q) ->
       files' !! p = files !! p).
Proof.
  revert files. induction entries as [|[q n] rest IH]; intros files Hnd Hfit.
  - exists files. split_and!; [done| |done]. intros q n Hin. by apply elem_of_nil in Hin.
  - simpl in Hnd. apply NoDup_cons in Hnd as [Hq Hnd].
    cbn [copy_entries]. cbv zeta. rewrite (Hfit q n) by by left.
    destruct (IH (<[dst ++ drop (length src) q := n]> files) Hnd) as (files' & -> & Hin & Hout).
    { intros q' n' Hin'. rewrite lookup_insert_ne.
      - apply Hfit. by right.
      - intros Heq. apply Hq. rewrite Heq.
        apply (list_elem_of_fmap_2 (fun kv : path * node => dst ++ drop (length src) kv.1)
                 rest (q', n') Hin'). }
    exists files'. split_and!; [done| |].
    + intros q' n' [[= -> ->]|Hin']%elem_of_cons; [|by apply Hin].
      rewrite Hout; [apply lookup_insert_eq|].
      intros q' n' Hin' Heq. apply Hq. rewrite Heq.
      apply (list_elem_of_fmap_2 (fun kv : path * node => dst ++ drop (length src) kv.1)
               rest (q', n') Hin').
    + intros p Hp. rewrite Hout.
      * rewrite lookup_insert_ne; [done|]. intros Heq. by apply (Hp q n); [left|].
      * intros q' n' Hin'. apply (Hp q' n'). by right.
Qed.

Lemma under_entries (src : path) (files : gmap (list string) node) (q : path) (n : node) :
  (q, n) ∈ map_to_list (filter (fun kv : path * node => src `prefix_of` kv.1) files) <->
  exists rel, q = src ++ rel /\ files !! (src ++ rel) = Some n.
Proof.
  rewrite elem_of_map_to_list, map_lookup_filter_Some. simpl. split.
  - intros [Hq [rel ->]]. by exists rel.
  - intros (rel & -> & Hq). split; [done|]. by exists rel.
Qed.

(** The recursive copy of a directory, when every entry fits. *)
Lemma cp_r_ok (E : env) (src dst : path) (w : world) :
  fs w !! src = Some Dir ->
  ~ src `prefix_of` dst ->
  (forall rel n, fs w !! (src ++ rel) = Some n -> compatible (fs w !! (dst ++ rel)) n = true) ->
  exists w2, cp_r E src dst w = (w2, Returned tt) /\ spawned w2 = spawned w /\
    (forall rel n, fs w !! (src ++ rel) = Some n -> fs w2 !! (dst ++ rel) = Some n) /\
    (forall p, (forall rel, p = dst ++ rel -> fs w !! (src ++ rel) = None) ->
       fs w2 !! p = fs w !! p).
Proof.
  intros Hsrc Hnp Hfit. unfold cp_r. rewrite Hsrc, decide_False by done.
  assert (holds_file (fs w) dst = false) as ->.
  { specialize (Hfit [] Dir). rewrite !app_nil_r in Hfit. specialize (Hfit Hsrc).
    unfold holds_file. by destruct (fs w !! dst) as [[|]|]. }
  set (entries := map_to_list (filter (fun kv : path * node => src `prefix_of` kv.1) (fs w))).
  destruct (copy_entries_ok E src dst entries (fs w)) as (files' & -> & Hin & Hout).
  - apply (NoDup_fmap_2_strong (fun kv : path * node => dst ++ drop (length src) kv.1)).
    + intros [q n] [q' n'] (rel & -> & Hq)%under_entries (rel' & -> & Hq')%under_entries Heq.
      simpl in Heq. rewrite !drop_app_length in Heq. apply app_inv_head in Heq. subst rel'.
      congruence.
    + apply NoDup_map_to_list.
  - intros q n (rel & -> & Hq)%under_entries. rewrite drop_app_length. by apply Hfit.
  - eexists. split; [done|]. split; [done|]. simpl. split.
    + intros rel n Hq. specialize (Hin (src ++ rel) n). rewrite drop_app_length in Hin.
      apply Hin. apply under_entries. by exists rel.
    + intros p Hp. apply Hout. intros q n (rel & -> & Hq)%under_entries Heq.
      rewrite drop_app_length in Heq. specialize (Hp rel Heq). congruence.
Qed.

Lemma cp_r_missing (E : env) (src dst : path) (w : world) :
  fs w !! src = None -> cp_r E src dst w = (w, Threw (sys_error E "ENOENT" "cp" src)).
Proof. intros H. unfold cp_r. by rewrite H. Qed.

Lemma package_json_path (target : path) :
  path_join target ["package.json"] = target ++ ["package.json"].
Proof. by apply path_join_segment. Qed.

(** X18: update_package_json touches nothing but package.json in the
    target directory and starts no process. Without that file it does
    nothing; when the file is a directory or its text cannot be read as a
    manifest it throws and writes nothing; otherwise the file then holds
    the manifest with the new name and the rewritten scripts. *)
Theorem update_package_json_spec (E : env) (J : json) (target : path) (name : string)
    (w : world) :
  let r := update_package_json E J target name w in
  let pkg_path := target ++ ["package.json"] in
  spawned r.1 = spawned w /\
  (forall p, p <> pkg_path -> fs r.1 !! p = fs w !! p) /\
  (fs w !! pkg_path = None -> r = (w, Returned tt)) /\
  (fs w !! pkg_path = Some Dir -> r.1 = w /\ exists e, r.2 = Threw e) /\
  (forall text e, fs w !! pkg_path = Some (File text) -> json_parse J text = inl e ->
     r = (w, Threw e)) /\
  (forall text pkg, fs w !! pkg_path = Some (File text) -> json_parse J text = inr pkg ->
     r.2 = Returned tt /\
     fs r.1 !! pkg_path = Some (File (json_stringify J (rewrite_manifest name pkg)))).
Proof.
  cbv zeta. unfold update_package_json. rewrite package_json_path.
  destruct (fs w !! (target ++ ["package.json"])) as [[text|]|] eqn:Hp.
  - destruct (json_parse J text) as [e|pkg] eqn:Hj; simpl.
    + split_and!; try done.
      * intros text' e' [= <-]. rewrite Hj. by intros [= <-].
      * intros text' pkg' [= <-]. by rewrite Hj.
    + split_and!; try done.
      * intros p Hne. by rewrite lookup_insert_ne.
      * intros text' e' [= <-]. by rewrite Hj.
      * intros text' pkg' [= <-]. rewrite Hj. intros [= <-].
        split; [done|]. apply lookup_insert_eq.
  - simpl. split_and!; try done. intros _. split; [done|]. by eexists.
  - simpl. split_and!; done.
Qed.

Lemma update_package_json_spec_witness :
  fs (update_package_json env_plain json_plain ["srv"; "components"; "acme"] "acme"
        (World {[ ["srv"; "components"; "acme"; "package.json"] := File "{template}" ]} [])).1
    !! ["srv"; "components"; "acme"; "package.json"] = Some (File "{acme}").
Proof.
  destruct (update_package_json_spec env_plain json_plain ["srv"; "components"; "acme"] "acme"
              (World {[ ["srv"; "components"; "acme"; "package.json"] := File "{template}" ]} []))
    as (_ & _ & _ & _ & _ & H).
  destruct (H "{template}" manifest_template) as [_ Hf]; [reflexivity..|].
  exact Hf.
Defined.

Lemma copy_entries_frame (E : env) (src dst : path) (entries : list (path * node))
    (files : gmap (list string) node) (p : path) :
  ~ dst `prefix_of` p -> (copy_entries E src dst entries files).1 !! p = files !! p.
Proof.
  intros Hp. revert files. induction entries as [|[q n] rest IH]; intros files; [done|].
  cbn [copy_entries]. cbv zeta. destruct (compatible _ n); [|done].
  rewrite IH, lookup_insert_ne; [done|]. intros <-. apply Hp. by eexists.
Qed.

Lemma mkdir_p_frame (E : env) (target : path) (w : world) (p : path) :
  ~ p `prefix_of` target ->
  fs (mkdir_p E target w).1 !! p = fs w !! p /\ spawned (mkdir_p E target w).1 = spawned w.
Proof.
  intros Hp. unfold mkdir_p. destruct (find _ _); [done|]. simpl.
  rewrite mkdir_lookup, decide_False; [done|]. by intros [_ ?]%ancestors_spec.
Qed.

Lemma cp_r_frame (E : env) (src dst : path) (w : world) (p : path) :
  ~ dst `prefix_of` p ->
  fs (cp_r E src dst w).1 !! p = fs w !! p /\ spawned (cp_r E src dst w).1 = spawned w.
Proof.
  intros Hp. unfold cp_r. destruct (fs w !! src) as [[content|]|]; [| |done].
  - destruct (fs w !! dst) as [[|]|]; try done; simpl;
      (rewrite lookup_insert_ne; [done|]); intros <-; by apply Hp.
  - case_decide as Hd; [done|]. destruct (holds_file (fs w) dst); [done|].
    pose proof (copy_entries_frame E src dst
                  (map_to_list (filter (fun kv : path * node => src `prefix_of` kv.1) (fs w)))
                  (fs w) p Hp) as Hfr.
    by destruct (copy_entries _ _ _ _ _) as [files [e|]].
Qed.

Lemma update_package_json_frame (E : env) (J : json) (target : path) (name : string)
    (w : world) (p : path) :
  p <> target ++ ["package.json"] ->
  fs (update_package_json E J target name w).1 !! p = fs w !! p /\
  spawned (update_package_json E J target name w).1 = spawned w.
Proof.
  intros Hp. unfold update_package_json. rewrite package_json_path.
  destruct (fs w !! (target ++ ["package.json"])) as [[text|]|]; [|done|done].
  destruct (json_parse J text); [done|]. simpl. by rewrite lookup_insert_ne.
Qed.

(** X19: before its commands run, create_template changes the disk only
    in the target directory and on the way to it, whether it succeeds or
    fails: a path that is neither above nor below the target keeps what it
    has, and no process is started. *)
Theorem create_files_frame (E : env) (J : json) (name : string) (w : world) (p : path) :
  ~ p `prefix_of` create_target_dir E name ->
  ~ create_target_dir E name `prefix_of` p ->
  fs (create_files E J name w).1 !! p = fs w !! p /\
  spawned (create_files E J name w).1 = spawned w.
Proof.
  intros Hup Hdown. unfold create_files. cbv zeta.
  set (target := create_target_dir E name) in *.
  rewrite bind_unfold.
  destruct (mkdir_p_frame E target w p Hup) as [Hm1 Hm2].
  destruct (mkdir_p E target w) as [w1 [[]|e|]]; simpl in *; [|done|done].
  rewrite bind_unfold.
  destruct (cp_r_frame E (TEMPLATE_DIR E) target w1 p Hdown) as [Hc1 Hc2].
  destruct (cp_r E (TEMPLATE_DIR E) target w1) as [w2 [[]|e|]]; simpl in *;
    [|by rewrite Hc1, Hc2|by rewrite Hc1, Hc2].
  destruct (update_package_json_frame E J target name w2 p) as [Hf Hs].
  { intros ->. apply Hdown. by eexists. }
  by rewrite Hs, Hf, Hc1, Hc2.
Qed.

Lemma create_files_frame_witness :
  fs (create_files env_plain json_plain "acme" world_template).1
    !! ["srv"; "api"; "template"; "package.json"] = Some (File "{template}").
Proof.
  destruct (create_files_frame env_plain json_plain "acme" world_template
              ["srv"; "api"; "template"; "package.json"]) as [H _].
  - intros [k Hk]. discriminate Hk.
  - intros [k Hk]. discriminate Hk.
  - rewrite H. reflexivity.
Defined.

(** X20: create_template copies the template. When the template
    directory exists, does not contain the target, no file lies on the
    way to the target and every entry of the template fits what is at its
    place, the first two statements succeed; then every entry of the
    template is at the same place below the target, the target and the
    directories above it exist, every other path keeps what it has (what
    the target held before and the template does not hold stays), and
    the manifest step runs on that disk. *)
Theorem create_files_copies (E : env) (J : json) (name : string) (w : world) :
  let target := create_target_dir E name in
  fs w !! TEMPLATE_DIR E = Some Dir ->
  ~ TEMPLATE_DIR E `prefix_of` target ->
  (forall q, q <> [] -> q `prefix_of` target -> holds_file (fs w) q = false) ->
  (forall rel n, fs w !! (TEMPLATE_DIR E ++ rel) = Some n ->
     compatible (fs w !! (target ++ rel)) n = true) ->
  exists w2,
    create_files E J name w = update_package_json E J target name w2 /\
    spawned w2 = spawned w /\
    (forall rel n, fs w !! (TEMPLATE_DIR E ++ rel) = Some n -> fs w2 !! (target ++ rel) = Some n) /\
    (forall q, q <> [] -> q `prefix_of` target -> fs w2 !! q = Some Dir) /\
    (forall p, ~ (p <> [] /\ p `prefix_of` target) ->
       (forall rel, p = target ++ rel -> fs w !! (TEMPLATE_DIR E ++ rel) = None) ->
       fs w2 !! p = fs w !! p).
Proof.
  intros target Hsrc Hnp Hfree Hfit.
  destruct (mkdir_p_ok E target w Hfree) as (w1 & Hm & Hs1 & Hl1).
  assert (forall rel, fs w1 !! (TEMPLATE_DIR E ++ rel) = fs w !! (TEMPLATE_DIR E ++ rel)) as Ht.
  { intros rel. rewrite Hl1, decide_False; [done|]. intros [_ [k Hk]]. apply Hnp.
    exists (rel ++ k). by rewrite Hk, <- app_assoc. }
  assert (forall rel, (target ++ rel) `prefix_of` target -> rel = []) as Hrel.
  { intros rel [k Hk]. apply (f_equal length) in Hk. rewrite !length_app in Hk.
    destruct rel; [done|]. simpl in Hk. lia. }
  destruct (cp_r_ok E (TEMPLATE_DIR E) target w1) as (w2 & Hc & Hs2 & Hin & Hout).
  - specialize (Ht []). rewrite app_nil_r in Ht. by rewrite Ht.
  - done.
  - intros rel n. rewrite Ht. intros Hq. rewrite Hl1.
    case_decide as Hd; [|by apply Hfit].
    destruct Hd as [_ Hd]. apply Hrel in Hd. subst rel. rewrite app_nil_r in Hq.
    rewrite Hsrc in Hq. by injection Hq as <-.
  - exists w2. split_and!.
    + unfold create_files. cbv zeta. fold target.
      rewrite (bind_returned _ _ _ _ tt Hm). cbv beta.
      by rewrite (bind_returned _ _ _ _ tt Hc).
    + by rewrite Hs2.
    + intros rel n Hq. apply Hin. by rewrite Ht.
    + intros q Hq Hpre. destruct (decide (q = target)) as [->|Hne].
      * rewrite <- (app_nil_r target) at 1. apply Hin. by rewrite Ht, app_nil_r.
      * rewrite Hout, Hl1, decide_True; [done|done|].
        intros rel ->. apply Hrel in Hpre. subst rel. by rewrite app_nil_r in Hne.
    + intros p Hp Hnone. rewrite Hout, Hl1, decide_False; [done|done|].
      intros rel Heq. rewrite Ht. by apply Hnone.
Qed.

Lemma create_files_copies_witness :
  exists w2,
    create_files env_plain json_plain "acme" world_template
    = update_package_json env_plain json_plain ["srv"; "components"; "acme"] "acme" w2 /\
    fs w2 !! ["srv"; "components"; "acme"; "src"; "App.vue"] = Some (File "<app/>").
Proof.
  destruct (create_files_copies env_plain json_plain "acme" world_template)
    as (w2 & H1 & _ & H2 & _).
  - reflexivity.
  - intros [k Hk]. discriminate Hk.
  - intros q _ [k Hk]. unfold holds_file.
    destruct (fs world_template !! q) as [[c|]|] eqn:Hq; try done. exfalso.
    unfold world_template in Hq. simpl in Hq.
    repeat (apply lookup_insert_Some in Hq as [[<- Hv]|[_ Hq]]; [discriminate Hk|]).
    apply lookup_singleton_Some in Hq as [<- _]. discriminate Hk.
  - intros rel n Hn.
    change (create_target_dir env_plain "acme") with ["srv"; "components"; "acme"].
    assert (fs world_template
              !! (["srv"; "components"; "acme"] ++ rel) = None) as ->; [|by destruct n].
    simpl. rewrite !lookup_insert_ne by discriminate. by apply lookup_singleton_ne.
  - exists w2. split; [exact H1|]. apply (H2 ["src"; "App.vue"]). reflexivity.
Defined.

Lemma create_operation_steps (E : env) (J : json) (v : variant) (name : string) (w : world) :
  create_operation E J v name w =
  ((create_template E J v name w).1,
   match (create_template E J v name w).2 with
   | Returned _ => Returned (create_ok v name)
   | Threw e => match v with Part000 => Threw e | _ => Returned (error_response e) end
   | Hung => Hung
   end).
Proof.
  destruct v; unfold create_operation, try_catch; rewrite bind_unfold;
    by destruct (create_template _ _ _ name w) as [w' [[]|e|]].
Qed.

(** X21: a create without a template directory fails after it has made
    the target directory: the target and the directories above it exist
    afterwards, nothing else has changed, no process was started, and the
    failure is the ENOENT of the copy (answered with 500 by server.ts and
    part_001, escaping the handler in part_000). *)
Theorem create_without_template (E : env) (J : json) (v : variant) (name : string) (w : world) :
  let target := create_target_dir E name in
  let e := sys_error E "ENOENT" "cp" (TEMPLATE_DIR E) in
  fs w !! TEMPLATE_DIR E = None ->
  ~ TEMPLATE_DIR E `prefix_of` target ->
  (forall q, q <> [] -> q `prefix_of` target -> holds_file (fs w) q = false) ->
  let r := create_operation E J v name w in
  spawned r.1 = spawned w /\
  (forall q, fs r.1 !! q =
     if decide (q <> [] /\ q `prefix_of` target) then Some Dir else fs w !! q) /\
  r.2 = match v with Part000 => Threw e | _ => Returned (error_response e) end.
Proof.
  intros target e Hsrc Hnp Hfree r.
  destruct (mkdir_p_ok E target w Hfree) as (w1 & Hm & Hs1 & Hl1).
  assert (fs w1 !! TEMPLATE_DIR E = None) as Ht.
  { rewrite Hl1, decide_False; [done|]. by intros [_ ?]. }
  assert (create_template E J v name w = (w1, Threw e)) as Hc.
  { unfold create_template, create_files. cbv zeta. fold target.
    apply bind_threw. rewrite (bind_returned _ _ _ _ tt Hm). cbv beta.
    apply bind_threw. by apply cp_r_missing. }
  subst r. rewrite create_operation_steps, Hc. simpl. by destruct v.
Qed.

Lemma create_without_template_witness :
  fs (create_operation env_plain json_plain ServerTs "acme" world_empty).1
    !! ["srv"; "components"; "acme"] = Some Dir.
Proof.
  destruct (create_without_template env_plain json_plain ServerTs "acme" world_empty)
    as (_ & H & _).
  - reflexivity.
  - intros [k Hk]. discriminate Hk.
  - intros q _ _. reflexivity.
  - rewrite H. reflexivity.
Defined.

(** X22: how a create ends. When the statements before the commands go
    through, pnpm install and then, if install exits with zero, pnpm
    build are started in the target directory, and server.ts and part_001
    answer with the preview URL when both exit with zero and with 500 and
    the error of the first command that fails otherwise. When a statement
    before the commands throws, no process is started and the answer is
    that failure. *)
Theorem create_answer (E : env) (J : json) (v : variant) (name : string) (w w3 : world) :
  (create_files E J name w = (w3, Returned tt) ->
   let r := create_operation E J v name w in
   spawned r.1 = spawned w3 ++ install_step E name ::
     match install_result E v name w3 with
     | Returned _ => [build_step E name]
     | _ => []
     end /\
   (v <> Part000 ->
    r.2 = pipeline_answer (create_ok v name) (install_result E v name w3)
            (build_result E v name w3)) /\
   (install_result E v name w3 = Returned tt -> build_result E v name w3 = Returned tt ->
    r.2 = Returned (create_ok v name))) /\
  (forall e, create_files E J name w = (w3, Threw e) ->
   create_operation E J v name w =
   (w3, match v with Part000 => Threw e | _ => Returned (error_response e) end)).
Proof.
  split.
  - intros Hf r. subst r. rewrite create_operation_steps.
    unfold create_template. cbv zeta. rewrite (bind_returned _ _ _ _ tt Hf). cbv beta.
    change (create_target_dir E name) with (project_dir E name).
    pose proof (pipeline_completion E v name w3) as Hc.
    assert (spawned ((run_command E v "pnpm" ["install"] (project_dir E name) ;;
                      run_command E v "pnpm" ["build"] (project_dir E name)) w3).1 =
            spawned w3 ++ install_step E name ::
              match install_result E v name w3 with
              | Returned _ => [build_step E name]
              | _ => []
              end) as Hs.
    { rewrite bind_unfold. unfold install_result, install_step, run_command at 1.
      destruct (settle_command v "pnpm" ["install"] _) as [[]|e|]; simpl; try done.
      by rewrite <- app_assoc. }
    destruct ((run_command E v "pnpm" ["install"] (project_dir E name) ;;
               run_command E v "pnpm" ["build"] (project_dir E name)) w3) as [w4 c].
    simpl in *. subst c. split_and!; [done| |].
    + intros Hv. unfold pipeline_answer.
      destruct (install_result E v name w3) as [[]|e|]; [|by destruct v|done].
      destruct (build_result E v name w3) as [[]|e|]; [done|by destruct v|done].
    + by intros -> ->.
  - intros e Hf. rewrite create_operation_steps. unfold create_template. cbv zeta.
    by rewrite (bind_threw _ _ _ _ _ Hf).
Qed.

Lemma create_answer_witness :
  create_operation env_plain json_plain ServerTs "acme" world_empty =
  ((create_files env_plain json_plain "acme" world_empty).1,
   Returned (error_response (sys_error env_plain "ENOENT" "cp" (TEMPLATE_DIR env_plain)))).
Proof.
  apply (proj2 (create_answer env_plain json_plain ServerTs "acme" world_empty
                  (create_files env_plain json_plain "acme" world_empty).1)).
  by vm_compute.
Defined.
(** ** What the handlers answer *)

(** X23: in server.ts and part_001 no operation ends in an exception.
    The handler of a create or an update answers 200 with a JSON body
    when the statements of its try block all return; when one of them
    throws, it answers 500 with a JSON body whose [error] field is the
    message of the very error that was thrown, and the world is as that
    statement left it; it gives no answer only while a command does not
    end. *)
Theorem operations_answer (E : env) (J : json) (v : variant) (op : operation) (w : world) :
  v <> Part000 ->
  let r := run_operation E J v op w in
  let steps := operation_steps E J v op w in
  r.1 = steps.1 /\
  (forall e, r.2 <> Threw e) /\
  (steps.2 = Returned tt ->
     r.2 = Returned (operation_ok v op) /\
     resp_status (operation_ok v op) = 200%Z /\
     resp_content_type (operation_ok v op) = Some "application/json") /\
  (forall e, steps.2 = Threw e ->
     r.2 = Returned (Response (JsonBody [("error", err_message e)]) 500
                       (Some "application/json"))) /\
  (steps.2 = Hung <-> r.2 = Hung) /\
  (forall resp, r.2 = Returned resp ->
     resp_content_type resp = Some "application/json" /\
     (resp_status resp = 200%Z /\ steps.2 = Returned tt \/
      resp_status resp = 500%Z /\
      exists e, steps.2 = Threw e /\ resp_body resp = JsonBody [("error", err_message e)])).
Proof.
  intros Hv r steps.
  assert (r = (steps.1, match steps.2 with
                        | Returned _ => Returned (operation_ok v op)
                        | Threw e => Returned (error_response e)
                        | Hung => Hung
                        end)) as ->.
  { subst r steps. destruct op as [name|name view server]; simpl.
    - rewrite create_operation_steps.
      destruct (create_template E J v name w).2 as [[]|e|]; by destruct v.
    - rewrite update_operation_steps. unfold update_answer.
      destruct (update_steps E v name view server w).2 as [[]|e|]; by destruct v. }
  assert (resp_status (operation_ok v op) = 200%Z /\
          resp_content_type (operation_ok v op) = Some "application/json") as [H200 Hjson].
  { destruct op, v; done. }
  cbn [fst snd]. destruct steps.2 as [[]|e|]; split_and!; try done.
  - intros resp [= <-]. split; [done|]. by left.
  - by intros e' [= ->].
  - intros resp [= <-]. split; [done|]. right. split; [done|]. by exists e.
Qed.

Lemma operations_answer_witness :
  (run_operation env_plain json_plain ServerTs (Create "acme") world_empty).2
  = Returned (Response (JsonBody [("error", "ENOENT")]) 500 (Some "application/json")).
Proof.
  destruct (operations_answer env_plain json_plain ServerTs (Create "acme") world_empty)
    as (_ & _ & _ & H & _); [discriminate|].
  apply (H (sys_error env_plain "ENOENT" "cp" (TEMPLATE_DIR env_plain))).
  reflexivity.
Defined.

(** X24: run_command of server.ts and part_001 starts one process with
    the command, the arguments and the working directory given, and is
    settled by the first event of the child: it succeeds exactly when
    that is a close with code zero, fails with the text that carries the
    code for any other close (null when a signal ended the process),
    fails with the error of an 'error' event, and is left unsettled only
    when the child emits nothing. *)
Theorem run_command_settles (E : env) (v : variant) (command : string) (args : list string)
    (cwd : path) (w : world) :
  v <> Part000 ->
  let inv := Invocation command args cwd in
  let events := env_child E (length (spawned w)) inv in
  let r := run_command E v command args cwd w in
  spawned r.1 = spawned w ++ [inv] /\
  fs r.1 = env_effect E inv (fs w) /\
  (r.2 = Returned tt <-> exists rest, events = OnClose (Some 0%Z) :: rest) /\
  (forall code rest, events = OnClose code :: rest -> code <> Some 0%Z ->
     exists front,
       r.2 = Threw (new_Error (front +:+ " exited with code " +:+ show_code code))) /\
  (forall err rest, events = OnError err :: rest -> r.2 = Threw err) /\
  (r.2 = Hung <-> events = []).
Proof.
  intros Hv inv events r. subst r. unfold run_command. cbv zeta. cbn [fst snd fs spawned].
  fold inv. fold events. split_and!; try done.
  - destruct events as [|[code|err] rest]; simpl.
    + split; [done|]. by intros [? ?].
    + destruct (settle_command_close v command args code rest) as [Hiff _]. simpl in Hiff.
      rewrite Hiff. split; [intros ->; by eexists|]. by intros [? [= ->]].
    + split; [by destruct v|]. by intros [? ?].
  - intros code rest -> Hcode.
    destruct (settle_command_close v command args code rest) as [_ Hne].
    rewrite (Hne Hcode). destruct (exit_message_code v command args code) as [front ->].
    by exists front.
  - intros err rest ->. by apply settle_command_error.
  - destruct events as [|[code|err] rest]; simpl; [done| |].
    + split; [|done]. unfold on_close. by destruct code as [[]|].
    + split; [|done]. by destruct v.
Qed.

Lemma run_command_settles_witness :
  (run_command env_plain ServerTs "pnpm" ["install"] ["srv"; "components"; "acme"]
     world_empty).2 = Returned tt.
Proof.
  apply (run_command_settles env_plain ServerTs "pnpm" ["install"]
           ["srv"; "components"; "acme"] world_empty); [discriminate|].
  by exists [].
Defined.
(** ** Fault isolation (C1)

    The operations that reach [queue] are the tasks of the handlers,
    which answer a failure instead of rejecting. *)







